(** * TensorLog [mutil.py]: sparse-matrix utilities over CSR matrices

    A shallow embedding of [src/mutil.py].  A [scipy.sparse.csr_matrix] is a
    record of its three arrays and its shape; Python integers are [Z];
    [float64] values are the kernel's binary64 floats; a Python exception is
    the [Raise] branch of an error monad.  In-place array updates are
    modelled by threading the arrays through the loops that mutate them. *)

From Stdlib Require Import ZArith Lia Bool String Floats.
From stdpp Require Import base list gmap.

Local Open Scope Z_scope.

(** ** Exceptions and the error monad *)

Inductive exn : Type :=
| AssertionError (msg : string)
| ValueError
| IndexError
| FloatingPointError
| OverflowError
| AttributeError
| TypeError
| NameError.

Inductive outcome (A : Type) : Type :=
| Ok (a : A)
| Raise (e : exn).
Arguments Ok {A} a.
Arguments Raise {A} e.

Definition outcome_bind {A B} (k : A -> outcome B) (c : outcome A) : outcome B :=
  match c with
  | Ok a => k a
  | Raise e => Raise e
  end.

#[export] Instance outcome_mbind : MBind outcome := @outcome_bind.
#[export] Instance outcome_mret : MRet outcome := @Ok.

Definition py_assert (b : bool) (msg : string) : outcome unit :=
  if b then Ok tt else Raise (AssertionError msg).

(** [for x in xs: s = body(x, s)], stopping at the first exception. *)
Fixpoint forM {X S} (xs : list X) (body : X -> S -> outcome S) (s : S)
  : outcome S :=
  match xs with
  | [] => Ok s
  | x :: xs' => s' ← body x s; forM xs' body s'
  end.

Fixpoint mapM {X Y} (f : X -> outcome Y) (xs : list X) : outcome (list Y) :=
  match xs with
  | [] => Ok []
  | x :: xs' => y ← f x; ys ← mapM f xs'; Ok (y :: ys)
  end.

(** ** Python and numpy sequences *)

(** [a[i]] on a numpy array or a list: a negative index counts from the end. *)
Definition norm_index (len i : Z) : option Z :=
  if (0 <=? i) && (i <? len) then Some i
  else if (- len <=? i) && (i <? 0) then Some (len + i)
  else None.

Definition getitem {A} (l : list A) (i : Z) : outcome A :=
  match norm_index (Z.of_nat (length l)) i with
  | Some k =>
      match l !! Z.to_nat k with
      | Some a => Ok a
      | None => Raise IndexError
      end
  | None => Raise IndexError
  end.

(** [a[i] = v]. *)
Definition setitem {A} (l : list A) (i : Z) (v : A) : outcome (list A) :=
  match norm_index (Z.of_nat (length l)) i with
  | Some k => Ok (<[Z.to_nat k := v]> l)
  | None => Raise IndexError
  end.

(** One bound of a slice [a[lo:hi]]: negative counts from the end, then clamp. *)
Definition slice_bound (len i : Z) : Z :=
  if i <? 0 then Z.max 0 (len + i) else Z.min i len.

Definition slice {A} (l : list A) (lo hi : Z) : list A :=
  let len := Z.of_nat (length l) in
  let a := slice_bound len lo in
  let b := slice_bound len hi in
  take (Z.to_nat (b - a)) (drop (Z.to_nat a) l).

(** [range(lo, hi)]. *)
Definition range (lo hi : Z) : list Z := seqZ lo (hi - lo).

(** [range(lo, hi, step)]; a zero step is a [ValueError]. *)
Definition range3 (lo hi step : Z) : outcome (list Z) :=
  if step =? 0 then Raise ValueError
  else
    let n := if 0 <? step then (hi - lo + step - 1) / step
             else (lo - hi - step - 1) / (- step) in
    Ok (map (fun k => lo + k * step) (seqZ 0 n)).

(** [NP.zeros(n)] and [NP.tile(a, n)]: a negative size is refused (an
    empty array tiled a negative number of times has size zero and is
    accepted). *)
Definition np_zeros {A} (zero : A) (n : Z) : outcome (list A) :=
  if n <? 0 then Raise ValueError else Ok (replicate (Z.to_nat n) zero).

Definition np_tile {A} (a : list A) (n : Z) : outcome (list A) :=
  match a with
  | [] => Ok []
  | _ :: _ =>
      if n <? 0 then Raise ValueError
      else Ok (concat (replicate (Z.to_nat n) a))
  end.

(** [NP.max] and [NP.min] of an integer array; empty arrays are refused. *)
Definition np_max (l : list Z) : outcome Z :=
  match l with
  | [] => Raise ValueError
  | x :: xs => Ok (foldl Z.max x xs)
  end.

Definition np_min (l : list Z) : outcome Z :=
  match l with
  | [] => Raise ValueError
  | x :: xs => Ok (foldl Z.min x xs)
  end.

(** [a[mask]] for a boolean mask, which must have the length of [a]. *)
Definition np_mask {A} (a : list A) (mask : list bool) : outcome (list A) :=
  if (length mask =? length a)%nat
  then Ok (map fst (List.filter snd (zip a mask)))
  else Raise IndexError.

(** ** Floating point under [NP.seterr(all='raise', under='ignore')]

    A numpy scalar operation raises when it sets the invalid flag (a NaN
    made from operands that are not NaN), or the overflow or divide-by-zero
    flag (an infinity made from finite operands); underflow is ignored. *)

Definition fp_trapped (x y r : float) : bool :=
  (is_nan r && negb (is_nan x) && negb (is_nan y))
  || (is_infinity r && is_finite x && is_finite y).

Definition fp_op (op : float -> float -> float) (x y : float) : outcome float :=
  let r := op x y in
  if fp_trapped x y r then Raise FloatingPointError else Ok r.

Definition np_add := fp_op PrimFloat.add.
Definition np_sub := fp_op PrimFloat.sub.
Definition np_mul := fp_op PrimFloat.mul.
Definition np_div := fp_op PrimFloat.div.

(** [x == 0] and [x != 0] on floats (both zeros compare equal, NaN differs). *)
Definition is_zero_f (x : float) : bool := PrimFloat.eqb x 0%float.
Definition nonzero_f (x : float) : bool := negb (is_zero_f x).

(** ** The CSR matrix *)

Record csr_matrix : Type := mk_csr {
  data : list float;
  indices : list Z;
  indptr : list Z;
  shape : Z * Z
}.

(** Python values a caller may hand to the checks. *)
Inductive pyobj : Type :=
| PyNone
| PyInt (z : Z)
| PyDense (d : list (list float))
| PyCsr (m : csr_matrix).

Definition isinstance_csr (o : pyobj) : bool :=
  match o with
  | PyCsr _ => true
  | _ => false
  end.

(** [mat.nnz]: the last row pointer, as scipy computes it. *)
Definition nnz (m : csr_matrix) : Z := List.last (indptr m) 0.

(** The process-wide configuration [conf]. *)
Record config : Type := mk_config { careful : bool }.

Definition checkCSR (conf : config) (mat : pyobj) (context : string)
  : outcome unit :=
  if careful conf then
    py_assert (isinstance_csr mat) ("bad type [context " ++ context ++ "]")
  else Ok tt.

Definition any_nan (l : list float) : bool := existsb is_nan l.

Definition checkNoNANs (conf : config) (mat : pyobj) (context : string)
  : outcome unit :=
  if careful conf then
    _ ← checkCSR conf mat "unknown";
    match mat with
    | PyCsr m => py_assert (negb (any_nan (data m))) ("nan's found: " ++ context)
    | _ => Raise AttributeError
    end
  else Ok tt.

Definition numRows (m : csr_matrix) : Z := fst (shape m).
Definition numCols (m : csr_matrix) : Z := snd (shape m).

(** ** scipy's CSR primitives

    These belong to scipy, not to [mutil.py]; they are modelled as scipy
    documents them.  The constructor runs [check_format(full_check=False)]
    and prunes the two entry arrays to the last row pointer. *)

Definition format_ok (d : list float) (ix ip : list Z) (sh : Z * Z) : bool :=
  (0 <=? fst sh) && (0 <=? snd sh)
  && (Z.of_nat (length ip) =? fst sh + 1)
  && bool_decide (ip !! 0%nat = Some 0)
  && (length ix =? length d)%nat
  && (List.last ip 0 <=? Z.of_nat (length ix)).

Definition csr_new (d : list float) (ix ip : list Z) (sh : Z * Z)
  : outcome csr_matrix :=
  if format_ok d ix ip sh then
    let n := List.last ip 0 in
    Ok (mk_csr (slice d 0 n) (slice ix 0 n) ip sh)
  else Raise ValueError.

(** Row pointers never decrease. *)
Fixpoint nondecreasing (l : list Z) : bool :=
  match l with
  | a :: (b :: _) as t => (a <=? b) && nondecreasing t
  | _ => true
  end.

(** The structural invariants of the data model. *)
Definition csr_valid (m : csr_matrix) : bool :=
  (0 <=? numRows m) && (0 <=? numCols m)
  && (Z.of_nat (length (indptr m)) =? numRows m + 1)
  && bool_decide (indptr m !! 0%nat = Some 0)
  && (List.last (indptr m) 0 =? Z.of_nat (length (data m)))
  && (length (indices m) =? length (data m))%nat
  && nondecreasing (indptr m)
  && forallb (fun c => (0 <=? c) && (c <? numCols m)) (indices m).

Definition csr_wf (m : csr_matrix) : Prop := csr_valid m = true.

(** The stored entries of row [i], as (column, value) pairs in storage order. *)
Definition entries (m : csr_matrix) : list (Z * float) :=
  zip (indices m) (data m).

Definition row_entries (m : csr_matrix) (i : Z) : list (Z * float) :=
  let a := indptr m !!! Z.to_nat i in
  let b := indptr m !!! Z.to_nat (i + 1) in
  take (Z.to_nat (b - a)) (drop (Z.to_nat a) (entries m)).

Definition rows_of (m : csr_matrix) : list (list (Z * float)) :=
  map (row_entries m) (seqZ 0 (numRows m)).

(** Row pointers of consecutive rows of the given lengths. *)
Fixpoint ptrs_from (start : Z) (lens : list nat) : list Z :=
  start ::
  match lens with
  | [] => []
  | n :: ns => ptrs_from (start + Z.of_nat n) ns
  end.

Definition of_rows (rows : list (list (Z * float))) (sh : Z * Z) : csr_matrix :=
  mk_csr (map snd (concat rows)) (map fst (concat rows))
         (ptrs_from 0 (map length rows)) sh.

Record dense_matrix : Type := mk_dense {
  cells : list (list float);
  dshape : Z * Z
}.

(** [todense]: every stored entry is added into a zero-filled grid, in
    storage order (so duplicates of one cell add up). *)
Definition dense_row (width : nat) (es : list (Z * float)) : list float :=
  foldl (fun row e => alter (fun x => (x + e.2)%float) (Z.to_nat e.1) row)
        (replicate width 0%float) es.

Definition todense (m : csr_matrix) : outcome dense_matrix :=
  if csr_valid m then
    Ok (mk_dense (map (dense_row (Z.to_nat (numCols m))) (rows_of m)) (shape m))
  else Raise ValueError.

(** [csr_matrix(dense)]: the cells that compare unequal to zero, row-major. *)
Definition nz_cells (row : list float) : list (Z * float) :=
  List.filter (fun e => nonzero_f e.2) (zip (seqZ 0 (Z.of_nat (length row))) row).

Definition fromdense (d : dense_matrix) : csr_matrix :=
  of_rows (map nz_cells (cells d)) (dshape d).

Definition eliminate_zeros (m : csr_matrix) : csr_matrix :=
  of_rows (map (List.filter (fun e => nonzero_f e.2)) (rows_of m)) (shape m).

(** [sort_indices]: nothing to do when every row is already sorted by
    column; otherwise each row is sorted by column. *)
Fixpoint insert_by_col (e : Z * float) (l : list (Z * float)) : list (Z * float) :=
  match l with
  | [] => [e]
  | x :: t => if e.1 <=? x.1 then e :: l else x :: insert_by_col e t
  end.

Definition sort_row (l : list (Z * float)) : list (Z * float) :=
  foldr insert_by_col [] l.

Definition has_sorted_indices (m : csr_matrix) : bool :=
  forallb (fun r => nondecreasing (map fst r)) (rows_of m).

Definition sort_indices (m : csr_matrix) : csr_matrix :=
  if has_sorted_indices m then m
  else of_rows (map sort_row (rows_of m)) (shape m).

(** What the module takes from numpy, scipy, [math] and [numpy.random]. *)
Class NumLib : Type := {
  np_sum : list float -> outcome float;
  math_exp : float -> outcome float;
  np_exp : float -> outcome float;
  sp_multiply : csr_matrix -> csr_matrix -> outcome csr_matrix;
  sp_add : csr_matrix -> csr_matrix -> outcome csr_matrix;
  sp_scale : csr_matrix -> float -> outcome csr_matrix;
  sp_sum : csr_matrix -> outcome float;
  nr_shuffle : list Z -> list Z
}.

(** The fact database [db], as far as [softmax] uses it. *)
Record matrixdb : Type := mk_db { nullMatrix : Z -> csr_matrix }.

(** ** The functions of [mutil.py]

    Every function below takes [csr_matrix] values, for which the
    [checkCSR] calls of the source succeed whatever the configuration. *)

Module mutil.
Section Functions.
Context {L : NumLib}.

Definition maxValue (mat : csr_matrix) : float :=
  match data mat with
  | [] => (-1)%float
  | x :: xs =>
      foldl (fun m y => if is_nan m then m else if is_nan y then y
                        else if ltb m y then y else m) x xs
  end.

Definition densify (mat : csr_matrix) (maxExpansion : Z)
  : outcome (option dense_matrix * option (Z * Z)) :=
  hiIndex ← np_max (indices mat);
  loIndex ← np_min (indices mat);
  let denseSize := (hiIndex - loIndex) * numRows mat in
  let sparseSize := numRows mat + 1 + 2 * nnz mat in
  if sparseSize * maxExpansion <? denseSize then Ok (None, None)
  else
    let newShape := (numRows mat, hiIndex - loIndex + 1) in
    shifted ← csr_new (data mat) (map (fun c => c - loIndex) (indices mat))
                      (indptr mat) newShape;
    D ← todense shifted;
    Ok (Some D, Some (loIndex, numCols mat)).

Definition undensify (denseMat : dense_matrix) (info : Z * Z)
  : outcome csr_matrix :=
  let '(loIndex, numCols) := info in
  let '(numRows, _) := dshape denseMat in
  let tmp := fromdense denseMat in
  result ← csr_new (data tmp) (map (fun c => c + loIndex) (indices tmp))
                   (indptr tmp) (numRows, numCols);
  Ok (eliminate_zeros result).

(** [mapData]: [selector], when given, is a function from the value array
    to a boolean mask.  The name [np] is not bound in the module (numpy is
    imported as [NP]), so the branch that fills [buf] raises [NameError]. *)
Definition mapData (dataFun : list float -> outcome (list float))
    (mat : csr_matrix) (selector : option (list float -> outcome (list bool)))
    (default : float) : outcome csr_matrix :=
  let dat := data mat in
  '(selected, dat) ←
    match selector with
    | Some sel =>
        selected ← sel (data mat);
        dat ← np_mask dat selected;
        Ok (Some selected, dat)
    | None => Ok (None, dat)
    end;
  newdata ← dataFun dat;
  newdata ←
    match selector with
    | Some _ => Raise NameError
    | None => Ok newdata
    end;
  _ ← py_assert (length newdata =? length (data mat))%nat "shape mismatch";
  csr_new newdata (indices mat) (indptr mat) (shape mat).

Definition nzCols (m : csr_matrix) (i : Z) : outcome (list Z) :=
  a ← getitem (indptr m) i;
  b ← getitem (indptr m) (i + 1);
  Ok (range a b).

Definition repeat (row : csr_matrix) (n : Z) : outcome csr_matrix :=
  d ← np_tile (data row) n;
  inds ← np_tile (indices row) n;
  _ ← py_assert (numRows row =? 1) "";
  numNZCols ← getitem (indptr row) 1;
  ptrs ← range3 0 (numNZCols * n + 1) numNZCols;
  csr_new d inds ptrs (n, numCols row).

(** [alterationFun(data, lo, hi, indices)] updates [data] in place; here it
    returns the updated array. *)
Definition alteration : Type :=
  list float -> Z -> Z -> list Z -> outcome (list float).

Definition with_data (m : csr_matrix) (d : list float) : csr_matrix :=
  mk_csr d (indices m) (indptr m) (shape m).

Definition alterMatrixRows (mat : csr_matrix) (alterationFun : alteration)
  : outcome csr_matrix :=
  d ← forM (range 0 (numRows mat))
        (fun i d =>
           lo ← getitem (indptr mat) i;
           hi ← getitem (indptr mat) (i + 1);
           alterationFun d lo hi (indices mat))
        (data mat);
  Ok (with_data mat d).

Definition nullEpsilon : float := (-10)%float.

(** The builtins [max] and [sum] over a sequence of floats. *)
Definition py_max (l : list float) : outcome float :=
  match l with
  | [] => Raise ValueError
  | x :: xs => Ok (foldl (fun m y => if ltb m y then y else m) x xs)
  end.

Definition py_sum (l : list float) : outcome float :=
  forM l (fun x acc => np_add acc x) 0%float.

Definition softMaxAlteration : alteration := fun data lo hi _ =>
  rowMax ← py_max (slice data lo hi);
  _ ← py_assert (negb (is_nan rowMax)) "";
  data ← forM (range lo hi)
           (fun j data =>
              x ← getitem data j;
              y ← np_sub x rowMax;
              e ← math_exp y;
              setitem data j e)
           data;
  rowNorm ← py_sum (slice data lo hi);
  _ ← py_assert (negb (is_nan rowNorm)) "";
  forM (range lo hi)
    (fun j data =>
       x ← getitem data j;
       q ← np_div x rowNorm;
       data ← setitem data j q;
       x ← getitem data j;
       _ ← py_assert (negb (is_nan x)) "";
       x ← getitem data j;
       if is_zero_f x then
         e ← math_exp nullEpsilon;
         setitem data j e
       else Ok data)
    data.

(** [denseSoftmax]: cells equal to zero stay zero. *)
Definition np_rowmax (row : list float) : outcome float :=
  match row with
  | [] => Raise ValueError
  | x :: xs =>
      Ok (foldl (fun m y => if is_nan m then m else if is_nan y then y
                            else if ltb m y then y else m) x xs)
  end.

Definition denseSoftmaxRow (row : list float) : outcome (list float) :=
  mx ← np_rowmax row;
  e_m ← mapM (fun x =>
                y ← np_sub x mx;
                e ← np_exp y;
                np_mul e (if nonzero_f x then 1%float else 0%float)) row;
  s ← np_sum e_m;
  mapM (fun e => np_div e s) e_m.

Definition denseSoftmax (m : dense_matrix) : outcome dense_matrix :=
  rows ← mapM denseSoftmaxRow (cells m);
  Ok (mk_dense rows (dshape m)).

(** [softmax], from the matrix [result] on. *)
Definition softmax_of (result : csr_matrix) : outcome csr_matrix :=
  '(denseResult, undensifier) ← densify result 3;
  match denseResult with
  | Some D =>
      s ← denseSoftmax D;
      match undensifier with
      | Some info => undensify s info
      | None => Raise TypeError
      end
  | None => alterMatrixRows result softMaxAlteration
  end.

Definition softmax (db : matrixdb) (mat : csr_matrix) : outcome csr_matrix :=
  nullRow ← sp_scale (nullMatrix db 1) nullEpsilon;
  tiled ← repeat nullRow (numRows mat);
  result ← sp_add tiled mat;
  softmax_of result.

Definition multiplyByBroadcastRowVec (m v : csr_matrix) : outcome csr_matrix :=
  a ← getitem (indptr v) 0;
  b ← getitem (indptr v) 1;
  vd ← forM (range a b)
         (fun j (vd : gmap Z float) =>
            k ← getitem (indices v) j;
            x ← getitem (data v) j;
            Ok (<[k := x]> vd))
         ∅;
  let multiplyByVAlteration : alteration := fun data lo hi indices =>
    forM (range lo hi)
      (fun j data =>
         x ← getitem data j;
         c ← getitem indices j;
         y ← np_mul x (default 0%float (vd !! c));
         setitem data j y)
      data in
  let result := m in
  alterMatrixRows result multiplyByVAlteration.

Definition broadcastAndComponentwiseMultiply (m1 m2 : csr_matrix)
  : outcome csr_matrix :=
  let r1 := numRows m1 in
  let r2 := numRows m2 in
  if r1 =? r2 then sp_multiply m1 m2
  else
    _ ← py_assert ((r1 =? 1) || (r2 =? 1)) "mismatched matrix sizes";
    if r1 =? 1 then multiplyByBroadcastRowVec m1 m2
    else if r2 =? 1 then multiplyByBroadcastRowVec m1 m2
    else Raise NameError.

(** [a[lo:hi] *= w] on a numpy array. *)
Definition slice_scale (d : list float) (lo hi : Z) (w : float)
  : outcome (list float) :=
  let len := Z.of_nat (length d) in
  let a := Z.to_nat (slice_bound len lo) in
  let n := Z.to_nat (slice_bound len hi - slice_bound len lo) in
  mid ← mapM (fun x => np_mul x w) (take n (drop a d));
  Ok (take a d ++ mid ++ drop (a + n) d).

Definition row_sum (m : csr_matrix) (i : Z) : outcome float :=
  a ← getitem (indptr m) i;
  b ← getitem (indptr m) (i + 1);
  np_sum (slice (data m) a b).

Definition broadcastAndWeightByRowSum (m1 m2 : csr_matrix)
  : outcome csr_matrix :=
  let r1 := numRows m1 in
  let r2 := numRows m2 in
  if r2 =? 1 then
    s ← sp_sum m2;
    sp_scale m1 s
  else if (r1 =? 1) && (1 <? r2) then
    let m1_data := data m1 in
    let m1_indices := indices m1 in
    let nnz1 := Z.of_nat (length m1_data) in
    data0 ← np_zeros 0%float (nnz1 * r2);
    indices0 ← np_zeros 0 (nnz1 * r2);
    indptr0 ← np_zeros 0 (r2 + 1);
    let ptr := 0 in
    indptr0 ← setitem indptr0 0 0;
    '(data, indices, indptr, ptr) ←
      forM (range 0 r2)
        (fun i '(data, indices, indptr, ptr) =>
           w ← row_sum m2 i;
           '(data, indices) ←
             forM (range 0 nnz1)
               (fun j '(data, indices) =>
                  x ← getitem m1_data j;
                  y ← np_mul x w;
                  data ← setitem data (ptr + j) y;
                  c ← getitem m1_indices j;
                  indices ← setitem indices (ptr + j) c;
                  Ok (data, indices))
               (data, indices);
           p ← getitem indptr i;
           indptr ← setitem indptr (i + 1) (p + nnz1);
           Ok (data, indices, indptr, ptr + nnz1))
        (data0, indices0, indptr0, ptr);
    csr_new data indices indptr (shape m2)
  else
    _ ← py_assert (r1 =? r2) "";
    d ← forM (range 0 r1)
          (fun i d =>
             w ← row_sum m2 i;
             lo ← getitem (indptr m1) i;
             hi ← getitem (indptr m1) (i + 1);
             slice_scale d lo hi w)
          (data m1);
    Ok (with_data m1 d).

Definition shuffleRows (m : csr_matrix) (shuffledRowNums : option (list Z))
  : outcome csr_matrix :=
  let shuffledRowNums :=
    match shuffledRowNums with
    | Some p => p
    | None => nr_shuffle (range 0 (numRows m))
    end in
  let m_data := data m in
  let m_indices := indices m in
  let m_indptr := indptr m in
  '(data, indices, indptr, lo) ←
    forM (range 0 (Z.of_nat (length m_indptr) - 1))
      (fun i '(data, indices, indptr, lo) =>
         r ← getitem shuffledRowNums i;
         hi_r ← getitem m_indptr (r + 1);
         lo_r ← getitem m_indptr r;
         let rowLen := hi_r - lo_r in
         indptr ← setitem indptr i lo;
         indptr ← setitem indptr (i + 1) (lo + rowLen);
         '(data, indices) ←
           forM (range 0 rowLen)
             (fun j '(data, indices) =>
                src ← getitem m_indptr r;
                x ← getitem m_data (src + j);
                base ← getitem indptr i;
                data ← setitem data (base + j) x;
                src ← getitem m_indptr r;
                c ← getitem m_indices (src + j);
                base ← getitem indptr i;
                indices ← setitem indices (base + j) c;
                Ok (data, indices))
             (data, indices);
         Ok (data, indices, indptr, lo + rowLen))
      (m_data, m_indices, m_indptr, 0);
  result ← csr_new data indices indptr (shape m);
  Ok (sort_indices result).

Definition selectRows (m : csr_matrix) (lo hi : Z) : outcome csr_matrix :=
  let hi := if numRows m <? hi then numRows m else hi in
  let m_data := data m in
  let m_indices := indices m in
  let m_indptr := indptr m in
  jLo ← getitem m_indptr lo;
  jHi ← getitem m_indptr hi;
  data ← np_zeros 0%float (jHi - jLo);
  indices ← np_zeros 0 (jHi - jLo);
  indptr ← np_zeros 0 (hi - lo + 1);
  '(data, indices, indptr) ←
    forM (range 0 (hi - lo))
      (fun i '(data, indices, indptr) =>
         hi_i ← getitem m_indptr (lo + i + 1);
         lo_i ← getitem m_indptr (lo + i);
         let rowLen := hi_i - lo_i in
         p ← getitem m_indptr (lo + i);
         indptr ← setitem indptr i (p - jLo);
         '(data, indices) ←
           forM (range 0 rowLen)
             (fun j '(data, indices) =>
                p ← getitem m_indptr (lo + i);
                let k := p + j in
                x ← getitem m_data k;
                base ← getitem indptr i;
                data ← setitem data (base + j) x;
                c ← getitem m_indices k;
                base ← getitem indptr i;
                indices ← setitem indices (base + j) c;
                Ok (data, indices))
             (data, indices);
         Ok (data, indices, indptr))
      (data, indices, indptr);
  p ← getitem m_indptr hi;
  indptr ← setitem indptr (hi - lo) (p - jLo);
  csr_new data indices indptr (hi - lo, numCols m).

End Functions.
End mutil.

(** ** Views used by the statements *)

#[export] Instance float_inhabited : Inhabited float := populate 0%float.

(** The row pointer [indptr[i]]. *)
Definition rowptr (m : csr_matrix) (i : Z) : Z := indptr m !!! Z.to_nat i.

(** Rows [lo, hi) of [m], with the offsets translated to start at zero. *)
Definition selected (m : csr_matrix) (lo hi : Z) : csr_matrix :=
  let jLo := rowptr m lo in
  let jHi := rowptr m hi in
  mk_csr (slice (data m) jLo jHi) (slice (indices m) jLo jHi)
         (map (fun p => p - jLo) (slice (indptr m) lo (hi + 1)))
         (hi - lo, numCols m).

(** The number of stored entries of row [r]. *)
Definition row_len (m : csr_matrix) (r : Z) : nat := length (row_entries m r).

(** The value of cell [(r, c)]: the stored values of row [r] at column
    [c], added up from zero in storage order. *)
Definition cell_of (es : list (Z * float)) (c : Z) : float :=
  foldl (fun acc e => if e.1 =? c then (acc + e.2)%float else acc) 0%float es.

Definition cell (m : csr_matrix) (r c : Z) : float :=
  cell_of (row_entries m r) c.

(** The dense band of [m] over the columns [lo .. hi]. *)
Definition band (m : csr_matrix) (lo hi : Z) : dense_matrix :=
  mk_dense
    (map (fun r => map (fun c => cell m r c) (seqZ lo (hi - lo + 1)))
         (seqZ 0 (numRows m)))
    (numRows m, hi - lo + 1).

(** [m] with its columns renumbered from [lo], as [densify] builds it. *)
Definition shifted (m : csr_matrix) (lo hi : Z) : csr_matrix :=
  mk_csr (data m) (map (fun c => c - lo) (indices m)) (indptr m)
         (numRows m, hi - lo + 1).

Definition nz_entry (e : Z * float) : bool := nonzero_f e.2.

(** Row [r] of [m] read off its dense band: the cells over the columns
    [lo .. hi] that differ from zero, by increasing column. *)
Definition band_row (m : csr_matrix) (lo hi r : Z) : list (Z * float) :=
  List.filter nz_entry (map (fun c => (c, cell m r c)) (seqZ lo (hi - lo + 1))).

(** Columns strictly increase. *)
Fixpoint increasing (l : list Z) : bool :=
  match l with
  | a :: (b :: _) as t => (a <? b) && increasing t
  | _ => true
  end.

(** Canonical storage: in every row the columns strictly increase and no
    stored value is zero. *)
Definition canonical (m : csr_matrix) : bool :=
  forallb (fun r => increasing (map fst r) && forallb nz_entry r) (rows_of m).

(** The values stored in row [i]. *)
Definition row_values (m : csr_matrix) (i : Z) : list float :=
  slice (data m) (rowptr m i) (rowptr m (i + 1)).

(** Row [i] of the broadcast result, in the specification's words: the
    values of the single row of [m1], each multiplied by the sum of the
    values stored in row [i] of [m2]. *)
Definition weighted_rows `{L : NumLib} (m1 m2 : csr_matrix) : outcome (list (list float)) :=
  mapM (fun i => w ← np_sum (row_values m2 i);
                 mapM (fun x => np_mul x w) (data m1))
       (range 0 (numRows m2)).

Definition tiled_by_row_sum `{L : NumLib} (m1 m2 : csr_matrix) : outcome csr_matrix :=
  rows ← weighted_rows m1 m2;
  Ok (mk_csr (concat rows)
             (concat (replicate (Z.to_nat (numRows m2)) (indices m1)))
             (map (fun k => k * Z.of_nat (length (data m1)))
                  (seqZ 0 (numRows m2 + 1)))
             (shape m2)).

(** The sparse softmax of one row, in the specification's words.

    The maximum of a row: its first value, replaced in turn by every later
    value that is greater; an empty row has none. *)
Fixpoint max_from (m : float) (l : list float) : float :=
  match l with
  | [] => m
  | y :: l' => max_from (if ltb m y then y else m) l'
  end.

Definition row_max (vs : list float) : outcome float :=
  match vs with
  | [] => Raise ValueError
  | x :: xs => Ok (max_from x xs)
  end.

(** The sum of a row: its values added one after the other, from zero. *)
Fixpoint sum_from (acc : float) (l : list float) : outcome float :=
  match l with
  | [] => Ok acc
  | x :: l' => s ← np_add acc x; sum_from s l'
  end.

Definition row_norm (es : list float) : outcome float := sum_from 0%float es.

Definition exp_shifted `{L : NumLib} (rowMax v : float) : outcome float :=
  y ← np_sub v rowMax; math_exp y.

Definition normalised `{L : NumLib} (rowNorm e : float) : outcome float :=
  q ← np_div e rowNorm;
  _ ← py_assert (negb (is_nan q)) "";
  if is_zero_f q then math_exp (-10)%float else Ok q.

Definition softmax_row `{L : NumLib} (vs : list float) : outcome (list float) :=
  rowMax ← row_max vs;
  _ ← py_assert (negb (is_nan rowMax)) "";
  es ← mapM (exp_shifted rowMax) vs;
  rowNorm ← row_norm es;
  _ ← py_assert (negb (is_nan rowNorm)) "";
  mapM (normalised rowNorm) es.

Definition softmax_rows `{L : NumLib} (m : csr_matrix) : outcome csr_matrix :=
  rows ← mapM (fun i => softmax_row (row_values m i)) (range 0 (numRows m));
  Ok (mutil.with_data m (concat rows)).

(** One step of numpy's [max] reduction: a NaN, once met, stays. *)
Definition fmax_step (m y : float) : float :=
  if is_nan m then m else if is_nan y then y else if ltb m y then y else m.

(** The rows of [m1], each scaled by the sum of the values stored in the
    same row of [m2]. *)
Definition scaled_rows `{L : NumLib} (m1 m2 : csr_matrix)
  : outcome (list (list float)) :=
  mapM (fun i => w ← np_sum (row_values m2 i);
                 mapM (fun x => np_mul x w) (row_values m1 i))
       (range 0 (numRows m1)).

(** The dictionary [vd] built from a row: a later entry of a column
    replaces an earlier one. *)
Definition row_dict (es : list (Z * float)) : gmap Z float :=
  foldl (fun d e => <[e.1 := e.2]> d) ∅ es.

(** [vd.get(c, 0.0)]. *)
Definition broadcast_factor (es : list (Z * float)) (c : Z) : float :=
  default 0%float (row_dict es !! c).

(** Every stored value of [m] times the factor that row 0 of [v] gives
    for its column. *)
Definition times_row_vector `{L : NumLib} (m v : csr_matrix) : outcome csr_matrix :=
  d ← mapM (fun e => np_mul e.2 (broadcast_factor (row_entries v 0) e.1))
           (entries m);
  Ok (mutil.with_data m d).

(** ** Example matrices *)

Module examples.

(** A reference instance of the library operations: sums add left to right
    from zero (as numpy does for fewer than eight items), and the
    exponential is the degree-12 Taylor polynomial of [x / 16] raised to
    the sixteenth power; the sparse operations that the examples never
    reach are refused. *)
Definition sum_left (l : list float) : outcome float :=
  forM l (fun x acc => np_add acc x) 0%float.

Definition exp_taylor (x : float) : float :=
  let y := (x / 16)%float in
  let p := foldr (fun k acc => (1 + y / k * acc)%float) 1%float
             [1; 2; 3; 4; 5; 6; 7; 8; 9; 10; 11; 12]%float in
  let p2 := (p * p)%float in
  let p4 := (p2 * p2)%float in
  let p8 := (p4 * p4)%float in
  (p8 * p8)%float.

#[export] Instance ref_lib : NumLib := {|
  np_sum := sum_left;
  math_exp := fun x => Ok (exp_taylor x);
  np_exp := fun x => Ok (exp_taylor x);
  sp_multiply := fun _ _ => Raise TypeError;
  sp_add := fun _ _ => Raise TypeError;
  sp_scale := fun _ _ => Raise TypeError;
  sp_sum := fun m => sum_left (data m);
  nr_shuffle := fun l => l
|}.

Definition careful_conf : config := mk_config true.

(** A 2x2 identity pattern and the same matrix with [indptr] cut short. *)
Definition small : csr_matrix :=
  mk_csr [1; 2]%float [0; 1] [0; 1; 2] (2, 2).
Definition corrupted : csr_matrix :=
  mk_csr [1; 2]%float [0; 1] [0; 1] (2, 2).

(** Scenario 5 of the specification. *)
Definition bcast_m1 : csr_matrix := mk_csr [3]%float [1] [0; 1] (1, 2).
Definition bcast_m2 : csr_matrix := mk_csr [4; 5]%float [1; 1] [0; 1; 2] (2, 2).

(** An empty 2x3 matrix and an empty single row. *)
Definition empty23 : csr_matrix := mk_csr [] [] [0; 0; 0] (2, 3).
Definition empty_row : csr_matrix := mk_csr [] [] [0; 0] (1, 3).

(** Scenario 4 of the specification: the row [2, 0, 4] and two rows with
    sums 1 and 2. *)
Definition wrs_m1 : csr_matrix := mk_csr [2; 4]%float [0; 2] [0; 2] (1, 3).
Definition wrs_m2 : csr_matrix := mk_csr [1; 2]%float [0; 0] [0; 1; 2] (2, 3).

(** A single row that stores column 1 twice, first 3 and then 5. *)
Definition twice_col1 : csr_matrix :=
  mk_csr [3; 5]%float [1; 1] [0; 2] (1, 2).

(** Two rows of different lengths, with sums 3 and 5. *)
Definition uneven : csr_matrix :=
  mk_csr [1; 2; 5]%float [0; 1; 0] [0; 2; 3] (2, 3).

(** One row with three entries spread over the columns 0..1000, too wide
    for the dense path. *)
Definition wide3 : csr_matrix :=
  mk_csr [1; 3; -800]%float [0; 500; 1000] [0; 3] (1, 1001).

(** Scenario 6 of the specification: two entries spanning the columns
    0..1000, too wide for the dense path. *)
Definition wide : csr_matrix :=
  mk_csr [1; 1]%float [0; 1000] [0; 2] (1, 1001).

(** The reference operations with an exponential that underflows to zero
    below -700, as the real one does. *)
Definition underflow_lib : NumLib := {|
  np_sum := sum_left;
  math_exp := fun x => Ok (if ltb x (-700)%float then 0%float else exp_taylor x);
  np_exp := fun x => Ok (if ltb x (-700)%float then 0%float else exp_taylor x);
  sp_multiply := fun _ _ => Raise TypeError;
  sp_add := fun _ _ => Raise TypeError;
  sp_scale := fun _ _ => Raise TypeError;
  sp_sum := fun m => sum_left (data m);
  nr_shuffle := fun l => l
|}.

(** The reference operations with [m * w] scaling every stored value. *)
Definition scaling_lib : NumLib := {|
  np_sum := examples.sum_left;
  math_exp := fun x => Ok (examples.exp_taylor x);
  np_exp := fun x => Ok (examples.exp_taylor x);
  sp_multiply := fun _ _ => Raise TypeError;
  sp_add := fun _ _ => Raise TypeError;
  sp_scale := fun m w =>
    d ← mapM (fun x => np_mul x w) (data m); Ok (mutil.with_data m d);
  sp_sum := fun m => examples.sum_left (data m);
  nr_shuffle := fun l => l
|}.

End examples.

(** ** Basic facts *)

Lemma bind_Ok {A B} (a : A) (k : A -> outcome B) : (Ok a ≫= k) = k a.
Proof. reflexivity. Qed.

Lemma bind_Raise {A B} (e : exn) (k : A -> outcome B) :
  (Raise e ≫= k) = Raise e.
Proof. reflexivity. Qed.

Lemma csr_wf_spec (m : csr_matrix) :
  csr_wf m ->
  0 <= numRows m /\ 0 <= numCols m
  /\ Z.of_nat (length (indptr m)) = numRows m + 1
  /\ indptr m !! 0%nat = Some 0
  /\ List.last (indptr m) 0 = Z.of_nat (length (data m))
  /\ length (indices m) = length (data m)
  /\ nondecreasing (indptr m) = true
  /\ Forall (fun c => 0 <= c < numCols m) (indices m).
Proof.
  unfold csr_wf, csr_valid. intros H.
  repeat (apply andb_prop in H; destruct H as [H ?]).
  repeat match goal with
  | H : (_ <=? _) = true |- _ => apply Z.leb_le in H
  | H : (_ =? _) = true |- _ => apply Z.eqb_eq in H
  | H : (_ =? _)%nat = true |- _ => apply Nat.eqb_eq in H
  | H : bool_decide _ = true |- _ => apply bool_decide_eq_true in H
  end.
  repeat split; try assumption.
  apply Forall_forall. intros c Hc.
  match goal with H : forallb _ _ = true |- _ =>
    rewrite forallb_forall in H; specialize (H c) end.
  apply list_elem_of_In in Hc.
  match goal with H : In c _ -> _ |- _ => specialize (H Hc) end.
  lia.
Qed.

(** ** Sequences, loops and row pointers *)


Lemma getitem_ok {A} (l : list A) (i : Z) (a : A) :
  0 <= i -> l !! Z.to_nat i = Some a -> getitem l i = Ok a.
Proof.
  intros Hi Hl. unfold getitem, norm_index.
  pose proof (lookup_lt_Some _ _ _ Hl) as Hlt.
  destruct (0 <=? i) eqn:E1; [| lia].
  destruct (i <? Z.of_nat (length l)) eqn:E2; [| lia].
  simpl. rewrite Hl. reflexivity.
Qed.

Lemma setitem_ok {A} (l : list A) (i : Z) (v : A) :
  0 <= i < Z.of_nat (length l) ->
  setitem l i v = Ok (<[Z.to_nat i := v]> l).
Proof.
  intros Hi. unfold setitem, norm_index.
  destruct (0 <=? i) eqn:E1; [| lia].
  destruct (i <? Z.of_nat (length l)) eqn:E2; [| lia].
  reflexivity.
Qed.

Lemma range_nil (lo hi : Z) : hi <= lo -> range lo hi = [].
Proof.
  intros H. unfold range, seqZ.
  replace (Z.to_nat (hi - lo)) with 0%nat by lia. reflexivity.
Qed.

Lemma range_cons (lo hi : Z) : lo < hi -> range lo hi = lo :: range (lo + 1) hi.
Proof.
  intros H. unfold range.
  rewrite (seqZ_cons lo (hi - lo)) by lia.
  f_equal. f_equal; lia.
Qed.

Lemma forM_range_inv {S} (P : Z -> S -> Prop) (body : Z -> S -> outcome S)
    (lo hi : Z) (s : S) :
  lo <= hi -> P lo s ->
  (forall i s, lo <= i < hi -> P i s ->
     exists s', body i s = Ok s' /\ P (i + 1) s') ->
  exists s', forM (range lo hi) body s = Ok s' /\ P hi s'.
Proof.
  intros Hle. remember (Z.to_nat (hi - lo)) as n eqn:Hn.
  revert lo s Hle Hn. induction n as [|n IH]; intros lo s Hle Hn H0 Hstep.
  - assert (hi = lo) by lia. subst hi.
    rewrite range_nil by lia. exists s. split; [reflexivity | assumption].
  - rewrite range_cons by lia. simpl.
    destruct (Hstep lo s ltac:(lia) H0) as (s1 & Hb & H1).
    rewrite Hb. simpl.
    apply (IH (lo + 1) s1); [lia | lia | assumption |].
    intros i s2 Hi. apply Hstep. lia.
Qed.

Lemma nondecreasing_lookup (l : list Z) (i j : nat) (a b : Z) :
  nondecreasing l = true -> l !! i = Some a -> l !! j = Some b ->
  (i <= j)%nat -> a <= b.
Proof.
  revert i j a b. induction l as [|x l IH]; intros i j a b Hnd Hi Hj Hij.
  - discriminate.
  - assert (nondecreasing l = true) as Hnd'.
    { destruct l; [reflexivity |]. simpl in Hnd.
      apply andb_prop in Hnd. tauto. }
    assert (forall k c, l !! k = Some c -> x <= c) as Hhd.
    { clear Hi Hj Hij i j a b. intros k.
      induction k as [|k IHk]; intros c Hc.
      - destruct l as [|y l]; [discriminate |]. simpl in Hc.
        injection Hc as ->. simpl in Hnd. apply andb_prop in Hnd.
        destruct Hnd as [Hxy _]. apply Z.leb_le in Hxy. exact Hxy.
      - destruct (l !! k) as [c'|] eqn:Hk.
        + specialize (IHk c' eq_refl).
          pose proof (IH k (Datatypes.S k) c' c Hnd' Hk Hc ltac:(lia)). lia.
        + apply lookup_lt_Some in Hc. apply lookup_ge_None in Hk. lia. }
    destruct i as [|i], j as [|j]; simpl in *.
    + injection Hi as <-. injection Hj as <-. lia.
    + injection Hi as <-. eapply Hhd; eassumption.
    + lia.
    + eapply IH; eauto. lia.
Qed.

Lemma List_last_lookup {A} (l : list A) (d : A) :
  l <> [] -> l !! (length l - 1)%nat = Some (List.last l d).
Proof.
  induction l as [|x l IH]; [congruence |]. intros _.
  destruct l as [|y l]; [reflexivity |].
  specialize (IH ltac:(congruence)).
  simpl in *. rewrite Nat.sub_0_r in *. exact IH.
Qed.



Section Wf.
Context (m : csr_matrix) (Hwf : csr_wf m).

Lemma wf_rows_nonneg : 0 <= numRows m.
Proof. destruct (csr_wf_spec m Hwf) as (? & _). assumption. Qed.

Lemma wf_indptr_length : length (indptr m) = Datatypes.S (Z.to_nat (numRows m)).
Proof. destruct (csr_wf_spec m Hwf) as (? & _ & ? & _). lia. Qed.

Lemma wf_indices_length : length (indices m) = length (data m).
Proof. destruct (csr_wf_spec m Hwf) as (_ & _ & _ & _ & _ & ? & _). assumption. Qed.

Lemma rowptr_lookup (i : Z) :
  0 <= i <= numRows m -> indptr m !! Z.to_nat i = Some (rowptr m i).
Proof.
  intros Hi. unfold rowptr. apply list_lookup_lookup_total_lt.
  rewrite wf_indptr_length. lia.
Qed.

Lemma rowptr_mono (i j : Z) :
  0 <= i -> i <= j -> j <= numRows m -> rowptr m i <= rowptr m j.
Proof.
  intros Hi Hij Hj.
  destruct (csr_wf_spec m Hwf) as (_ & _ & _ & _ & _ & _ & Hnd & _).
  eapply (nondecreasing_lookup _ (Z.to_nat i) (Z.to_nat j)); eauto.
  - apply rowptr_lookup; lia.
  - apply rowptr_lookup; lia.
  - lia.
Qed.

Lemma rowptr_0 : rowptr m 0 = 0.
Proof.
  destruct (csr_wf_spec m Hwf) as (_ & _ & _ & H0 & _).
  unfold rowptr. apply list_lookup_total_correct. exact H0.
Qed.

Lemma rowptr_last : rowptr m (numRows m) = Z.of_nat (length (data m)).
Proof.
  destruct (csr_wf_spec m Hwf) as (_ & _ & _ & _ & Hl & _).
  unfold rowptr. apply list_lookup_total_correct.
  rewrite <- Hl.
  replace (Z.to_nat (numRows m)) with (length (indptr m) - 1)%nat
    by (rewrite wf_indptr_length; lia).
  apply List_last_lookup. intros E. pose proof wf_indptr_length as Hlen.
  rewrite E in Hlen. discriminate.
Qed.

Lemma rowptr_bounds (i : Z) :
  0 <= i <= numRows m -> 0 <= rowptr m i <= Z.of_nat (length (data m)).
Proof.
  intros Hi. rewrite <- rowptr_0 at 1. rewrite <- rowptr_last.
  split; apply rowptr_mono; lia.
Qed.

Lemma getitem_indptr (i : Z) :
  0 <= i <= numRows m -> getitem (indptr m) i = Ok (rowptr m i).
Proof. intros Hi. apply getitem_ok; [lia | apply rowptr_lookup; lia]. Qed.

Lemma getitem_data (k : Z) :
  0 <= k < Z.of_nat (length (data m)) ->
  getitem (data m) k = Ok (data m !!! Z.to_nat k).
Proof.
  intros Hk. apply getitem_ok; [lia |].
  apply list_lookup_lookup_total_lt. lia.
Qed.

Lemma getitem_indices (k : Z) :
  0 <= k < Z.of_nat (length (data m)) ->
  getitem (indices m) k = Ok (indices m !!! Z.to_nat k).
Proof.
  intros Hk. apply getitem_ok; [lia |].
  apply list_lookup_lookup_total_lt. rewrite wf_indices_length. lia.
Qed.

End Wf.

(** ** Invariant layer *)

(** C1 (as amended): with the careful flag on, [checkCSR] fails, with an
    assertion error that carries the context string, exactly when the
    object is not a CSR matrix; it never looks at the arrays, so every
    CSR-typed object passes, and with the flag off it never fails. *)
Theorem checkCSR_type_only (conf : config) (mat : pyobj) (context : string) :
  checkCSR conf mat context =
    (if careful conf && negb (isinstance_csr mat)
     then Raise (AssertionError ("bad type [context " ++ context ++ "]"))
     else Ok tt)
  /\ (forall m : csr_matrix, checkCSR conf (PyCsr m) context = Ok tt).
Proof.
  unfold checkCSR, py_assert. split.
  - destruct (careful conf), (isinstance_csr mat); reflexivity.
  - intros m. destruct (careful conf); reflexivity.
Qed.

(** C1, counterexample: the matrix whose row-pointer array was shortened by
    one breaks the structural invariants and still passes the careful
    check. *)
Lemma checkCSR_accepts_corrupted :
  csr_valid examples.corrupted = false
  /\ checkCSR examples.careful_conf (PyCsr examples.corrupted) "test" = Ok tt.
Proof. split; reflexivity. Qed.

(** ** Dense bridge: empty matrices *)

Lemma last_nil_length {A} (l : list A) : length l = 0%nat -> l = [].
Proof. destruct l; [reflexivity | discriminate]. Qed.

(** C9: on a well-formed matrix without stored entries [densify] raises
    (the maximum of an empty index array) and returns neither a dense band
    nor the pair of absent values. *)
Theorem densify_empty_raises (mat : csr_matrix) (maxExpansion : Z) :
  csr_wf mat -> nnz mat = 0 ->
  mutil.densify mat maxExpansion = Raise ValueError.
Proof.
  intros Hwf Hnnz.
  destruct (csr_wf_spec mat Hwf) as (_ & _ & _ & _ & Hlast & Hlen & _).
  unfold nnz in Hnnz. rewrite Hnnz in Hlast.
  assert (indices mat = []) as Hnil by (apply last_nil_length; lia).
  unfold mutil.densify. rewrite Hnil. reflexivity.
Qed.

Lemma densify_empty_raises_witness :
  csr_wf examples.empty23 /\ nnz examples.empty23 = 0
  /\ mutil.densify examples.empty23 3 = Raise ValueError.
Proof.
  split; [reflexivity | split; [reflexivity |]].
  apply densify_empty_raises; reflexivity.
Defined.

(** ** Tiling a row *)

(** C10: for a well-formed single row without stored entries, the step of
    the row-pointer range is zero and [repeat] raises instead of returning
    an all-empty matrix of [n] rows. *)
Theorem repeat_empty_row_raises (row : csr_matrix) (n : Z) :
  csr_wf row -> numRows row = 1 -> nnz row = 0 ->
  mutil.repeat row n = Raise ValueError.
Proof.
  intros Hwf Hrows Hnnz.
  destruct (csr_wf_spec row Hwf) as (_ & _ & Hlen & H0 & Hlast & Hix & _).
  unfold nnz in Hnnz.
  destruct (indptr row) as [|p0 [|p1 [|p2 t]]] eqn:Hip;
    simpl in Hlen; try lia.
  simpl in Hnnz. subst p1. simpl in Hlast.
  assert (data row = []) as Hd by (apply last_nil_length; lia).
  assert (indices row = []) as Hi by (apply last_nil_length; lia).
  unfold mutil.repeat, np_tile. rewrite Hd, Hi.
  rewrite !bind_Ok. rewrite Hrows, Hip. reflexivity.
Qed.

Lemma repeat_empty_row_raises_witness :
  csr_wf examples.empty_row /\ numRows examples.empty_row = 1
  /\ nnz examples.empty_row = 0
  /\ mutil.repeat examples.empty_row 3 = Raise ValueError.
Proof.
  split; [reflexivity | split; [reflexivity | split; [reflexivity |]]].
  apply repeat_empty_row_raises; reflexivity.
Defined.

(** ** Broadcast multiply *)

Lemma alterMatrixRows_frame `{L : NumLib} (m res : csr_matrix)
    (f : mutil.alteration) :
  mutil.alterMatrixRows m f = Ok res ->
  indices res = indices m /\ indptr res = indptr m /\ shape res = shape m.
Proof.
  unfold mutil.alterMatrixRows. intros H.
  match type of H with
  | (?c ≫= _) = _ => destruct c as [d|e]; [| discriminate]
  end.
  rewrite bind_Ok in H. injection H as <-. auto.
Qed.

Lemma multiplyByBroadcastRowVec_frame `{L : NumLib} (m v res : csr_matrix) :
  mutil.multiplyByBroadcastRowVec m v = Ok res ->
  indices res = indices m /\ indptr res = indptr m /\ shape res = shape m.
Proof.
  unfold mutil.multiplyByBroadcastRowVec. intros H.
  destruct (getitem (indptr v) 0) as [a|e]; [| discriminate].
  rewrite bind_Ok in H.
  destruct (getitem (indptr v) 1) as [b|e]; [| discriminate].
  rewrite bind_Ok in H.
  match type of H with
  | (?c ≫= _) = _ => destruct c as [vd|e]; [| discriminate]
  end.
  rewrite bind_Ok in H. cbv zeta in H.
  eapply alterMatrixRows_frame. exact H.
Qed.

(** C2, the code at scenario 5: with the single row first, the first row
    of the two-row operand becomes the lookup table and the single row is
    the one rewritten, so one row comes back, not two; with the operands
    swapped the two rows [12] and [15] come back.  In general, when [m1]
    has one row and [m2] has not, any result keeps the index arrays and
    the shape of [m1]. *)
Theorem broadcast_multiply_single_row_first (L : NumLib) :
  mutil.broadcastAndComponentwiseMultiply examples.bcast_m1 examples.bcast_m2
  = Ok (mk_csr [12]%float [1] [0; 1] (1, 2))
  /\ mutil.broadcastAndComponentwiseMultiply examples.bcast_m2 examples.bcast_m1
     = Ok (mk_csr [12; 15]%float [1; 1] [0; 1; 2] (2, 2))
  /\ forall m1 m2 res,
       numRows m1 = 1 -> numRows m2 <> 1 ->
       mutil.broadcastAndComponentwiseMultiply m1 m2 = Ok res ->
       indices res = indices m1 /\ indptr res = indptr m1
       /\ shape res = shape m1.
Proof.
  split; [vm_compute; reflexivity |]. split; [vm_compute; reflexivity |].
  intros m1 m2 res H1 H2. unfold mutil.broadcastAndComponentwiseMultiply.
  cbv zeta. rewrite H1.
  rewrite (proj2 (Z.eqb_neq 1 (numRows m2))) by lia.
  simpl. apply multiplyByBroadcastRowVec_frame.
Qed.

(** ** Row selection *)

Lemma slice_in_range {A} (l : list A) (a b : Z) :
  0 <= a -> a <= b -> b <= Z.of_nat (length l) ->
  slice l a b = take (Z.to_nat (b - a)) (drop (Z.to_nat a) l).
Proof.
  intros Ha Hab Hb. unfold slice, slice_bound.
  destruct (a <? 0) eqn:E1; [lia |].
  destruct (b <? 0) eqn:E2; [lia |].
  rewrite !Z.min_l by lia. reflexivity.
Qed.

Lemma slice_all {A} (l : list A) : slice l 0 (Z.of_nat (length l)) = l.
Proof.
  rewrite slice_in_range by lia. simpl.
  apply take_ge. lia.
Qed.

Lemma np_zeros_ok {A} (z : A) (n : Z) :
  0 <= n -> np_zeros z n = Ok (replicate (Z.to_nat n) z).
Proof. intros H. unfold np_zeros. destruct (n <? 0) eqn:E; [lia | reflexivity]. Qed.

Lemma list_eq_lookup_lt {A} (l1 l2 : list A) :
  length l1 = length l2 ->
  (forall i : nat, (i < length l1)%nat -> l1 !! i = l2 !! i) -> l1 = l2.
Proof.
  intros Hlen H. apply list_eq. intros i.
  destruct (decide (i < length l1)%nat) as [Hi|Hi]; [auto |].
  rewrite (lookup_ge_None_2 l1 i) by lia.
  rewrite (lookup_ge_None_2 l2 i) by lia. reflexivity.
Qed.

Lemma List_last_insert_end {A} (l : list A) (n : nat) (x d : A) :
  length l = Datatypes.S n -> List.last (<[n := x]> l) d = x.
Proof.
  intros Hlen.
  assert (<[n := x]> l <> []) as Hne.
  { intros E. apply (f_equal length) in E. rewrite length_insert in E.
    simpl in E. lia. }
  pose proof (List_last_lookup _ d Hne) as Hl.
  rewrite length_insert, Hlen in Hl. simpl in Hl. rewrite Nat.sub_0_r in Hl.
  rewrite list_lookup_insert_eq in Hl by lia. congruence.
Qed.

Lemma selectRows_closed (m : csr_matrix) (lo hi : Z) :
  csr_wf m -> 0 <= lo -> lo <= hi -> lo <= numRows m ->
  mutil.selectRows m lo hi = Ok (selected m lo (Z.min hi (numRows m))).
Proof.
  intros Hwf Hlo Hlh Hlr.
  unfold mutil.selectRows.
  set (hi' := if numRows m <? hi then numRows m else hi).
  assert (hi' = Z.min hi (numRows m)) as Hhi'.
  { subst hi'. destruct (numRows m <? hi) eqn:E; lia. }
  assert (lo <= hi' <= numRows m) as Hb by lia.
  clearbody hi'. rewrite <- Hhi'. clear Hhi' Hlh hi.
  cbv zeta.
  rewrite (getitem_indptr m Hwf lo) by lia. rewrite bind_Ok.
  rewrite (getitem_indptr m Hwf hi') by lia. rewrite bind_Ok.
  pose proof (rowptr_mono m Hwf lo hi' ltac:(lia) ltac:(lia) ltac:(lia)) as Hmono.
  pose proof (rowptr_bounds m Hwf lo ltac:(lia)) as HbLo.
  pose proof (rowptr_bounds m Hwf hi' ltac:(lia)) as HbHi.
  set (jLo := rowptr m lo) in *. set (jHi := rowptr m hi') in *.
  rewrite !np_zeros_ok by lia. rewrite !bind_Ok.
  set (N := Z.to_nat (jHi - jLo)). set (n := hi' - lo).
  pose (P := fun (i : Z) (st : list float * list Z * list Z) =>
    let '(d, ix, ip) := st in
    length d = N /\ length ix = N /\ length ip = Z.to_nat (n + 1)
    /\ (forall p : nat, Z.of_nat p < rowptr m (lo + i) - jLo ->
          d !! p = data m !! (Z.to_nat jLo + p)%nat
          /\ ix !! p = indices m !! (Z.to_nat jLo + p)%nat)
    /\ (forall k : nat, Z.of_nat k < i ->
          ip !! k = Some (rowptr m (lo + Z.of_nat k) - jLo))).
  match goal with |- context [forM (range 0 n) ?body ?s] =>
    destruct (forM_range_inv P body 0 n s) as ([[d ix] ip] & Heq & HP)
  end.
  - lia.
  - unfold P. rewrite !length_replicate.
    replace (lo + 0) with lo by lia. fold jLo.
    repeat split; try reflexivity; intros; lia.
  - intros i [[d ix] ip] Hi (Hd & Hix & Hip & Hcopy & Hptr).
    rewrite (getitem_indptr m Hwf (lo + i + 1)) by lia. rewrite bind_Ok.
    rewrite (getitem_indptr m Hwf (lo + i)) by lia. rewrite !bind_Ok.
    rewrite setitem_ok by lia. rewrite bind_Ok.
    pose proof (rowptr_mono m Hwf lo (lo + i) ltac:(lia) ltac:(lia) ltac:(lia)) as M1.
    pose proof (rowptr_mono m Hwf (lo + i) (lo + i + 1) ltac:(lia) ltac:(lia) ltac:(lia)) as M2.
    pose proof (rowptr_mono m Hwf (lo + i + 1) hi' ltac:(lia) ltac:(lia) ltac:(lia)) as M3.
    fold jLo in M1. fold jHi in M3.
    set (a := rowptr m (lo + i)) in *. set (b := rowptr m (lo + i + 1)) in *.
    set (ip1 := <[Z.to_nat i := a - jLo]> ip).
    pose (Q := fun (j : Z) (st : list float * list Z) =>
      let '(d, ix) := st in
      length d = N /\ length ix = N
      /\ (forall p : nat, Z.of_nat p < a - jLo + j ->
            d !! p = data m !! (Z.to_nat jLo + p)%nat
            /\ ix !! p = indices m !! (Z.to_nat jLo + p)%nat)).
    match goal with |- context [forM (range 0 (b - a)) ?body ?s] =>
      destruct (forM_range_inv Q body 0 (b - a) s) as ([d1 ix1] & Heq1 & HQ)
    end.
    + lia.
    + unfold Q. repeat split; try assumption.
      * apply Hcopy. lia.
      * apply Hcopy. lia.
    + intros j [d0 ix0] Hj (Hd0 & Hix0 & Hc0).
      assert (ip1 !! Z.to_nat i = Some (a - jLo)) as Hbase.
      { subst ip1. apply list_lookup_insert_eq. lia. }
      cbv beta iota. rewrite bind_Ok.
      rewrite (getitem_data m (a + j)) by lia. rewrite bind_Ok.
      rewrite (getitem_ok ip1 i (a - jLo) ltac:(lia) Hbase). rewrite bind_Ok.
      rewrite setitem_ok by lia. rewrite bind_Ok.
      rewrite (getitem_indices m Hwf (a + j)) by lia. rewrite !bind_Ok.
      rewrite setitem_ok by lia. rewrite bind_Ok.
      eexists. split; [reflexivity |].
      unfold Q. rewrite !length_insert. repeat split; try assumption.
      * destruct (decide (p = Z.to_nat (a - jLo + j))) as [->|Hne].
        -- rewrite list_lookup_insert_eq by lia.
           replace (Z.to_nat jLo + Z.to_nat (a - jLo + j))%nat
             with (Z.to_nat (a + j)) by lia.
           symmetry. apply list_lookup_lookup_total_lt. lia.
        -- rewrite list_lookup_insert_ne by lia. apply Hc0. lia.
      * destruct (decide (p = Z.to_nat (a - jLo + j))) as [->|Hne].
        -- rewrite list_lookup_insert_eq by lia.
           replace (Z.to_nat jLo + Z.to_nat (a - jLo + j))%nat
             with (Z.to_nat (a + j)) by lia.
           symmetry. apply list_lookup_lookup_total_lt.
           rewrite (wf_indices_length m Hwf). lia.
        -- rewrite list_lookup_insert_ne by lia. apply Hc0. lia.
    + rewrite Heq1. rewrite bind_Ok. eexists. split; [reflexivity |].
      destruct HQ as (Hd1 & Hix1 & Hc1).
      unfold P. subst ip1. rewrite length_insert.
      replace (lo + (i + 1)) with (lo + i + 1) by lia. fold b.
      split; [assumption |]. split; [assumption |]. split; [assumption |].
      split.
      * intros p Hp. apply Hc1. lia.
      * intros k Hk. destruct (decide (k = Z.to_nat i)) as [->|Hne].
        -- rewrite list_lookup_insert_eq by lia.
           replace (lo + Z.of_nat (Z.to_nat i)) with (lo + i) by lia.
           reflexivity.
        -- rewrite list_lookup_insert_ne by lia. apply Hptr. lia.
  - rewrite Heq. rewrite !bind_Ok. clear Heq.
    destruct HP as (Hd & Hix & Hip & Hcopy & Hptr).
    replace (lo + n) with hi' in Hcopy by lia. fold jHi in Hcopy.
    clear P. subst N.
    rewrite setitem_ok by lia. rewrite bind_Ok.
    set (ip' := <[Z.to_nat n := jHi - jLo]> ip).
    assert (forall k : nat, Z.of_nat k <= n ->
              ip' !! k = Some (rowptr m (lo + Z.of_nat k) - jLo)) as Hptr'.
    { intros k Hk. subst ip'.
      destruct (decide (k = Z.to_nat n)) as [->|Hne].
      - rewrite list_lookup_insert_eq by lia.
        replace (lo + Z.of_nat (Z.to_nat n)) with hi' by lia. reflexivity.
      - rewrite list_lookup_insert_ne by lia. apply Hptr. lia. }
    assert (List.last ip' 0 = jHi - jLo) as Hlast.
    { subst ip'. apply List_last_insert_end. lia. }
    pose proof (wf_indptr_length m Hwf) as Hlenip.
    pose proof (wf_indices_length m Hwf) as Hlenix.
    destruct (csr_wf_spec m Hwf) as (_ & Hcols & _).
    unfold csr_new, format_ok. rewrite Hlast.
    assert (length ip' = Z.to_nat (n + 1)) as Hip'
      by (subst ip'; rewrite length_insert; assumption).
    rewrite Hip', Hd, Hix. simpl fst. simpl snd.
    rewrite (proj2 (Z.leb_le 0 n)) by lia.
    rewrite (proj2 (Z.leb_le 0 (numCols m))) by lia.
    rewrite (proj2 (Z.eqb_eq _ _)) by lia.
    assert (ip' !! 0%nat = Some 0) as Hip0.
    { rewrite Hptr' by lia. f_equal.
      replace (lo + Z.of_nat 0) with lo by lia. fold jLo. lia. }
    rewrite (bool_decide_eq_true_2 _ Hip0).
    rewrite Nat.eqb_refl.
    rewrite (proj2 (Z.leb_le _ _)) by lia.
    simpl andb. cbv iota. f_equal. unfold selected. fold jLo jHi.
    rewrite !slice_in_range by lia.
    change (Z.to_nat 0) with 0%nat. rewrite !drop_0, Z.sub_0_r.
    f_equal.
    + apply list_eq_lookup_lt.
      * rewrite !length_take, length_drop. lia.
      * intros p Hp. rewrite length_take in Hp.
        rewrite !lookup_take_lt by lia. rewrite lookup_drop.
        apply Hcopy. lia.
    + apply list_eq_lookup_lt.
      * rewrite !length_take, length_drop. lia.
      * intros p Hp. rewrite length_take in Hp.
        rewrite !lookup_take_lt by lia. rewrite lookup_drop.
        apply Hcopy. lia.
    + apply list_eq_lookup_lt.
      * rewrite length_map, length_take, length_drop. lia.
      * intros k Hk. rewrite Hptr' by lia.
        rewrite list_lookup_fmap, lookup_take_lt by lia. rewrite lookup_drop.
        replace (Z.to_nat lo + k)%nat with (Z.to_nat (lo + Z.of_nat k)) by lia.
        rewrite (rowptr_lookup m Hwf) by lia. reflexivity.
Qed.

(** ** Rows and row pointers *)

Lemma ptrs_from_length (s : Z) (lens : list nat) :
  length (ptrs_from s lens) = Datatypes.S (length lens).
Proof.
  revert s. induction lens as [|n lens IH]; intros s; simpl; [reflexivity |].
  rewrite IH. reflexivity.
Qed.

Lemma ptrs_from_lookup (s : Z) (lens : list nat) (i : nat) :
  (i <= length lens)%nat ->
  ptrs_from s lens !! i = Some (s + Z.of_nat (sum_list (take i lens))).
Proof.
  revert s i. induction lens as [|n lens IH]; intros s i Hi.
  - simpl in Hi. assert (i = 0%nat) as -> by lia. simpl. f_equal. lia.
  - destruct i as [|i].
    + simpl. f_equal. lia.
    + simpl in Hi. change (ptrs_from s (n :: lens) !! Datatypes.S i)
        with (ptrs_from (s + Z.of_nat n) lens !! i).
      rewrite IH by lia. simpl. f_equal. lia.
Qed.

Lemma concat_row (rows : list (list (Z * float))) (i : nat)
    (r : list (Z * float)) :
  rows !! i = Some r ->
  take (length r) (drop (sum_list (take i (map length rows))) (concat rows)) = r.
Proof.
  revert i. induction rows as [|x rows IH]; intros i Hi; [discriminate |].
  destruct i as [|i]; simpl in *.
  - injection Hi as ->. apply take_app_length.
  - rewrite drop_app_add'.
    + apply IH. exact Hi.
    + reflexivity.
Qed.

Lemma entries_of_rows (rows : list (list (Z * float))) (sh : Z * Z) :
  entries (of_rows rows sh) = concat rows.
Proof. unfold entries, of_rows. simpl. apply zip_fst_snd. Qed.

Lemma sum_list_take_S (l : list nat) (i : nat) (n : nat) :
  l !! i = Some n -> sum_list (take (Datatypes.S i) l) = (sum_list (take i l) + n)%nat.
Proof.
  revert i. induction l as [|x l IH]; intros i Hi; [discriminate |].
  destruct i as [|i]; simpl in *.
  - injection Hi as ->. lia.
  - rewrite (IH i Hi). lia.
Qed.

Lemma row_entries_of_rows (rows : list (list (Z * float))) (sh : Z * Z)
    (i : nat) (r : list (Z * float)) :
  rows !! i = Some r -> row_entries (of_rows rows sh) (Z.of_nat i) = r.
Proof.
  intros Hi. pose proof (lookup_lt_Some _ _ _ Hi) as Hlt.
  unfold row_entries. rewrite entries_of_rows.
  assert (indptr (of_rows rows sh) = ptrs_from 0 (map length rows)) as -> by reflexivity.
  set (lens := map length rows).
  assert (length lens = length rows) as Hlens by apply length_map.
  assert (ptrs_from 0 lens !!! Z.to_nat (Z.of_nat i)
          = Z.of_nat (sum_list (take i lens))) as ->.
  { apply list_lookup_total_correct. rewrite Nat2Z.id.
    rewrite ptrs_from_lookup by lia. f_equal. }
  assert (ptrs_from 0 lens !!! Z.to_nat (Z.of_nat i + 1)
          = Z.of_nat (sum_list (take i lens) + length r)) as ->.
  { apply list_lookup_total_correct.
    replace (Z.to_nat (Z.of_nat i + 1)) with (Datatypes.S i) by lia.
    rewrite ptrs_from_lookup by lia. f_equal.
    rewrite (sum_list_take_S _ i (length r)); [lia |].
    subst lens. rewrite list_lookup_fmap, Hi. reflexivity. }
  rewrite Nat2Z.id.
  replace (Z.to_nat (Z.of_nat (sum_list (take i lens) + length r)
                     - Z.of_nat (sum_list (take i lens))))
    with (length r) by lia.
  apply concat_row. exact Hi.
Qed.

Lemma rows_of_of_rows (rows : list (list (Z * float))) (sh : Z * Z) :
  fst sh = Z.of_nat (length rows) -> rows_of (of_rows rows sh) = rows.
Proof.
  intros Hsh. unfold rows_of.
  assert (numRows (of_rows rows sh) = Z.of_nat (length rows)) as -> by exact Hsh.
  apply list_eq_lookup_lt.
  - rewrite length_map, length_seqZ. lia.
  - intros i Hi. rewrite length_map, length_seqZ in Hi.
    rewrite list_lookup_fmap, lookup_seqZ_lt by lia. simpl.
    destruct (lookup_lt_is_Some_2 rows i ltac:(lia)) as [r Hr].
    rewrite Hr. f_equal. apply row_entries_of_rows. exact Hr.
Qed.

Lemma ptrs_from_nondecreasing (s : Z) (lens : list nat) :
  nondecreasing (ptrs_from s lens) = true.
Proof.
  revert s. induction lens as [|n lens IH]; intros s; [reflexivity |].
  change (ptrs_from s (n :: lens)) with (s :: ptrs_from (s + Z.of_nat n) lens).
  specialize (IH (s + Z.of_nat n)).
  destruct lens as [|n' lens]; simpl in *.
  - rewrite andb_true_r. apply Z.leb_le. lia.
  - rewrite IH. rewrite andb_true_r. apply Z.leb_le. lia.
Qed.

Lemma ptrs_from_last (s : Z) (lens : list nat) :
  List.last (ptrs_from s lens) 0 = s + Z.of_nat (sum_list lens).
Proof.
  revert s. induction lens as [|n lens IH]; intros s.
  - simpl. lia.
  - change (ptrs_from s (n :: lens)) with (s :: ptrs_from (s + Z.of_nat n) lens).
    specialize (IH (s + Z.of_nat n)).
    destruct (ptrs_from (s + Z.of_nat n) lens) as [|p t] eqn:E.
    + destruct lens; discriminate.
    + change (List.last (s :: p :: t) 0) with (List.last (p :: t) 0).
      rewrite IH. simpl. lia.
Qed.

Lemma sum_list_lengths {A} (rows : list (list A)) :
  sum_list (map length rows) = length (concat rows).
Proof.
  induction rows as [|r rows IH]; [reflexivity |].
  simpl. rewrite length_app, IH. reflexivity.
Qed.

Lemma csr_wf_of_rows (rows : list (list (Z * float))) (sh : Z * Z) :
  fst sh = Z.of_nat (length rows) -> 0 <= snd sh ->
  Forall (Forall (fun e => 0 <= e.1 < snd sh)) rows ->
  csr_wf (of_rows rows sh).
Proof.
  intros Hrows Hcols Hin. unfold csr_wf, csr_valid, of_rows, numRows, numCols.
  simpl.
  rewrite ptrs_from_length, ptrs_from_last, ptrs_from_nondecreasing.
  rewrite sum_list_lengths, !length_map.
  rewrite (proj2 (Z.leb_le 0 (fst sh))) by lia.
  rewrite (proj2 (Z.leb_le 0 (snd sh))) by lia.
  rewrite (proj2 (Z.eqb_eq _ _)) by lia.
  rewrite (proj2 (Z.eqb_eq _ _)) by lia.
  rewrite Nat.eqb_refl.
  assert (ptrs_from 0 (map length rows) !! 0%nat = Some 0) as H0
    by (destruct rows; reflexivity).
  rewrite (bool_decide_eq_true_2 _ H0). simpl.
  apply forallb_forall. intros c Hc.
  apply in_map_iff in Hc. destruct Hc as (e & <- & He).
  apply in_concat in He. destruct He as (r & Hr & He).
  rewrite Forall_forall in Hin. apply list_elem_of_In in Hr, He.
  specialize (Hin r Hr). rewrite Forall_forall in Hin.
  specialize (Hin e He). simpl in Hin.
  apply andb_true_intro. split; [apply Z.leb_le | apply Z.ltb_lt]; lia.
Qed.

Section WfRows.
Context (m : csr_matrix) (Hwf : csr_wf m).

Lemma entries_length : length (entries m) = length (data m).
Proof.
  unfold entries. rewrite length_zip_with, (wf_indices_length m Hwf). lia.
Qed.

Lemma rows_concat (a k : nat) :
  Z.of_nat (a + k) <= numRows m ->
  concat (map (row_entries m) (seqZ (Z.of_nat a) (Z.of_nat k)))
  = take (Z.to_nat (rowptr m (Z.of_nat (a + k)) - rowptr m (Z.of_nat a)))
         (drop (Z.to_nat (rowptr m (Z.of_nat a))) (entries m)).
Proof.
  induction k as [|k IH]; intros Hk.
  - simpl. replace (a + 0)%nat with a by lia. rewrite Z.sub_diag. reflexivity.
  - rewrite seqZ_S, map_app, concat_app, IH by lia. simpl.
    rewrite app_nil_r. unfold row_entries at 1. fold (rowptr m (Z.of_nat a + Z.of_nat k)).
    fold (rowptr m (Z.of_nat a + Z.of_nat k + 1)).
    replace (Z.of_nat a + Z.of_nat k) with (Z.of_nat (a + k)) by lia.
    replace (Z.of_nat (a + k) + 1) with (Z.of_nat (a + Datatypes.S k)) by lia.
    pose proof (rowptr_mono m Hwf (Z.of_nat a) (Z.of_nat (a + k))
                  ltac:(lia) ltac:(lia) ltac:(lia)) as M1.
    pose proof (rowptr_mono m Hwf (Z.of_nat (a + k)) (Z.of_nat (a + Datatypes.S k))
                  ltac:(lia) ltac:(lia) ltac:(lia)) as M2.
    pose proof (rowptr_bounds m Hwf (Z.of_nat a) ltac:(lia)) as B1.
    set (pa := rowptr m (Z.of_nat a)) in *.
    set (pb := rowptr m (Z.of_nat (a + k))) in *.
    set (pc := rowptr m (Z.of_nat (a + Datatypes.S k))) in *.
    replace (Z.to_nat pb) with (Z.to_nat pa + Z.to_nat (pb - pa))%nat by lia.
    rewrite <- drop_drop, take_take_drop. f_equal. lia.
Qed.

Lemma row_entries_length (i : Z) :
  0 <= i < numRows m ->
  length (row_entries m i) = Z.to_nat (rowptr m (i + 1) - rowptr m i).
Proof.
  intros Hi. unfold row_entries. fold (rowptr m i). fold (rowptr m (i + 1)).
  pose proof (rowptr_mono m Hwf i (i + 1) ltac:(lia) ltac:(lia) ltac:(lia)).
  pose proof (rowptr_bounds m Hwf i ltac:(lia)).
  pose proof (rowptr_bounds m Hwf (i + 1) ltac:(lia)).
  rewrite length_take, length_drop, entries_length. lia.
Qed.

Lemma selected_of_rows (a k : nat) :
  Z.of_nat (a + k) <= numRows m ->
  selected m (Z.of_nat a) (Z.of_nat (a + k))
  = of_rows (map (row_entries m) (seqZ (Z.of_nat a) (Z.of_nat k)))
            (Z.of_nat k, numCols m).
Proof.
  intros Hk. unfold selected, of_rows.
  pose proof (rowptr_mono m Hwf (Z.of_nat a) (Z.of_nat (a + k))
                ltac:(lia) ltac:(lia) ltac:(lia)) as M1.
  pose proof (rowptr_bounds m Hwf (Z.of_nat a) ltac:(lia)) as B1.
  pose proof (rowptr_bounds m Hwf (Z.of_nat (a + k)) ltac:(lia)) as B2.
  pose proof (wf_indices_length m Hwf) as Hix.
  pose proof (wf_indptr_length m Hwf) as Hip.
  rewrite rows_concat by lia.
  rewrite !slice_in_range by lia.
  unfold entries. rewrite zip_with_drop, zip_with_take.
  f_equal.
  - rewrite snd_zip; [reflexivity |].
    rewrite !length_take, !length_drop. lia.
  - rewrite fst_zip; [reflexivity |].
    rewrite !length_take, !length_drop. lia.
  - apply list_eq_lookup_lt.
    + rewrite length_map, length_take, length_drop, ptrs_from_length.
      rewrite !length_map, length_seqZ. lia.
    + intros i Hi. rewrite length_map, length_take, length_drop in Hi.
      rewrite list_lookup_fmap, lookup_take_lt, lookup_drop by lia.
      replace (Z.to_nat (Z.of_nat a) + i)%nat with (Z.to_nat (Z.of_nat (a + i))) by lia.
      rewrite (rowptr_lookup m Hwf) by lia. simpl.
      rewrite ptrs_from_lookup by (rewrite !length_map, length_seqZ; lia).
      f_equal.
      rewrite !firstn_map.
      rewrite sum_list_lengths.
      assert (take i (seqZ (Z.of_nat a) (Z.of_nat k)) = seqZ (Z.of_nat a) (Z.of_nat i)) as ->.
      { apply list_eq_lookup_lt.
        - rewrite length_take, !length_seqZ. lia.
        - intros j Hj. rewrite length_take, length_seqZ in Hj.
          rewrite lookup_take_lt by lia.
          rewrite !lookup_seqZ_lt by lia. reflexivity. }
      rewrite rows_concat by lia.
      pose proof (rowptr_mono m Hwf (Z.of_nat a) (Z.of_nat (a + i))
                    ltac:(lia) ltac:(lia) ltac:(lia)).
      pose proof (rowptr_mono m Hwf (Z.of_nat (a + i)) (Z.of_nat (a + k))
                    ltac:(lia) ltac:(lia) ltac:(lia)).
      rewrite length_take, length_drop, entries_length. lia.
  - f_equal. lia.
Qed.

Lemma selected_all : selected m 0 (numRows m) = m.
Proof.
  unfold selected. rewrite (rowptr_0 m Hwf), (rowptr_last m Hwf).
  pose proof (wf_indices_length m Hwf) as Hix.
  pose proof (wf_indptr_length m Hwf) as Hip.
  pose proof (wf_rows_nonneg m Hwf) as Hr.
  rewrite slice_all. rewrite <- Hix, slice_all.
  replace (numRows m + 1) with (Z.of_nat (length (indptr m))) by lia.
  rewrite slice_all.
  destruct m as [d ix ip [r c]]. simpl. f_equal.
  - rewrite <- (map_id ip) at 2. apply map_ext. intros p. lia.
  - f_equal. unfold numRows. simpl. lia.
Qed.

End WfRows.

Lemma Forall_zip_fst {A B} (P : A -> Prop) (l : list A) (k : list B) :
  Forall P l -> Forall (fun e => P e.1) (zip l k).
Proof.
  intros H. revert k. induction H as [|x l Hx Hl IH]; intros k.
  - constructor.
  - destruct k as [|y k]; simpl; constructor; auto.
Qed.

Lemma row_entries_cols (m : csr_matrix) (i : Z) :
  csr_wf m -> Forall (fun e => 0 <= e.1 < numCols m) (row_entries m i).
Proof.
  intros Hwf.
  destruct (csr_wf_spec m Hwf) as (_ & _ & _ & _ & _ & _ & _ & Hc).
  unfold row_entries, entries. apply Forall_take, Forall_drop.
  apply (Forall_zip_fst (fun c => 0 <= c < numCols m)). exact Hc.
Qed.

Lemma selected_wf (m : csr_matrix) (lo hi : Z) :
  csr_wf m -> 0 <= lo -> lo <= hi -> hi <= numRows m ->
  csr_wf (selected m lo hi)
  /\ forall i, 0 <= i < hi - lo ->
       row_entries (selected m lo hi) i = row_entries m (lo + i).
Proof.
  intros Hwf Hlo Hlh Hhi.
  pose proof (selected_of_rows m Hwf (Z.to_nat lo) (Z.to_nat (hi - lo))
                ltac:(lia)) as E.
  replace (Z.of_nat (Z.to_nat lo + Z.to_nat (hi - lo))) with hi in E by lia.
  rewrite !Z2Nat.id in E by lia. rewrite E. split.
  - apply csr_wf_of_rows.
    + simpl. rewrite length_map, length_seqZ. lia.
    + simpl. destruct (csr_wf_spec m Hwf) as (_ & ? & _). assumption.
    + apply Forall_forall. intros r Hr. apply list_elem_of_In in Hr.
      apply in_map_iff in Hr. destruct Hr as (i & <- & _).
      apply (row_entries_cols m i Hwf).
  - intros i Hi. rewrite <- (Z2Nat.id i) at 1 by lia.
    apply row_entries_of_rows.
    rewrite list_lookup_fmap, lookup_seqZ_lt by lia. simpl.
    f_equal. f_equal. lia.
Qed.

(** C7: on a well-formed matrix, with [0 <= lo <= hi] and [lo] a row
    bound, [selectRows] clamps [hi] to the row count and returns a
    well-formed matrix of [hi - lo] rows and the same columns whose arrays
    are the slices of the source arrays with the row pointers translated
    to start at zero and whose row [i] holds exactly the entries of row
    [lo + i]; selecting all rows gives the matrix back. *)
Theorem selectRows_spec (m : csr_matrix) (lo hi : Z) :
  csr_wf m -> 0 <= lo -> lo <= hi -> lo <= numRows m ->
  let hi' := Z.min hi (numRows m) in
  exists res,
    mutil.selectRows m lo hi = Ok res
    /\ res = selected m lo hi'
    /\ csr_wf res
    /\ shape res = (hi' - lo, numCols m)
    /\ rowptr res 0 = 0
    /\ (forall i, 0 <= i < hi' - lo ->
          row_entries res i = row_entries m (lo + i))
    /\ (lo = 0 -> numRows m <= hi -> res = m).
Proof.
  intros Hwf Hlo Hlh Hlr hi'.
  exists (selected m lo hi').
  destruct (selected_wf m lo hi' Hwf) as [Hwf' Hrows]; [lia | lia | lia |].
  split; [apply selectRows_closed; assumption |].
  split; [reflexivity |].
  split; [assumption |].
  split; [reflexivity |].
  split; [apply rowptr_0; assumption |].
  split; [assumption |].
  intros -> Hall. replace hi' with (numRows m) by lia.
  apply selected_all. assumption.
Qed.

Lemma selectRows_spec_witness :
  exists res,
    mutil.selectRows examples.small 0 5 = Ok res
    /\ res = selected examples.small 0 2
    /\ csr_wf res
    /\ shape res = (2, 2)
    /\ rowptr res 0 = 0
    /\ (forall i, 0 <= i < 2 ->
          row_entries res i = row_entries examples.small (0 + i))
    /\ (0 = 0 -> 2 <= 5 -> res = examples.small).
Proof.
  apply (selectRows_spec examples.small 0 5); [reflexivity | lia | lia |].
  unfold numRows; simpl; lia.
Defined.

(** ** Row permutation *)

Lemma row_entries_lookup (m : csr_matrix) (r : Z) (j : nat) :
  csr_wf m -> 0 <= r < numRows m ->
  (j < length (row_entries m r))%nat ->
  row_entries m r !! j
  = Some (indices m !!! (Z.to_nat (rowptr m r) + j)%nat,
          data m !!! (Z.to_nat (rowptr m r) + j)%nat).
Proof.
  intros Hwf Hr Hj. rewrite (row_entries_length m Hwf) in Hj by lia.
  pose proof (rowptr_bounds m Hwf r ltac:(lia)).
  pose proof (rowptr_bounds m Hwf (r + 1) ltac:(lia)).
  pose proof (wf_indices_length m Hwf) as Hix.
  unfold row_entries. fold (rowptr m r). fold (rowptr m (r + 1)).
  rewrite lookup_take_lt by lia. rewrite lookup_drop.
  unfold entries. rewrite lookup_zip_with.
  rewrite (list_lookup_lookup_total_lt (indices m)) by lia.
  rewrite (list_lookup_lookup_total_lt (data m)) by lia.
  reflexivity.
Qed.

Lemma concat_rows_length (m : csr_matrix) (l : list Z) :
  length (concat (map (row_entries m) l)) = sum_list_with (row_len m) l.
Proof.
  induction l as [|r l IH]; [reflexivity |].
  simpl. rewrite length_app, IH. reflexivity.
Qed.

Lemma sum_take_le {A} (f : A -> nat) (l : list A) (k : nat) :
  (sum_list_with f (take k l) <= sum_list_with f l)%nat.
Proof.
  rewrite <- (take_drop k l) at 2. rewrite sum_list_with_app. lia.
Qed.

Section Perm.
Context (m : csr_matrix) (Hwf : csr_wf m).
Context (perm : list Z) (Hperm : perm ≡ₚ seqZ 0 (numRows m)).

Lemma perm_length : length perm = Z.to_nat (numRows m).
Proof. rewrite Hperm. apply length_seqZ. Qed.

Lemma perm_range (i : nat) (r : Z) :
  perm !! i = Some r -> 0 <= r < numRows m.
Proof.
  intros Hi. apply list_elem_of_lookup_2 in Hi. rewrite Hperm in Hi.
  apply elem_of_seqZ in Hi. lia.
Qed.

Lemma perm_total :
  sum_list_with (row_len m) perm = length (data m).
Proof.
  rewrite Hperm. rewrite <- concat_rows_length.
  pose proof (wf_rows_nonneg m Hwf) as Hr.
  pose proof (rows_concat m Hwf 0 (Z.to_nat (numRows m)) ltac:(lia)) as E.
  change (Z.of_nat 0) with 0 in E. rewrite Nat.add_0_l in E.
  rewrite !Z2Nat.id in E by lia.
  rewrite E, (rowptr_0 m Hwf), (rowptr_last m Hwf).
  change (Z.to_nat 0) with 0%nat. rewrite drop_0.
  rewrite length_take, (entries_length m Hwf). lia.
Qed.

Lemma perm_prefix_le (k : nat) :
  (sum_list_with (row_len m) (take k perm) <= length (data m))%nat.
Proof. rewrite <- perm_total. apply sum_take_le. Qed.

Lemma perm_prefix_S (i : nat) (r : Z) :
  perm !! i = Some r ->
  sum_list_with (row_len m) (take (Datatypes.S i) perm)
  = (sum_list_with (row_len m) (take i perm) + row_len m r)%nat.
Proof.
  intros Hi. rewrite (take_S_r _ _ _ Hi), sum_list_with_app. simpl. lia.
Qed.

End Perm.

Lemma concat_rows_lookup (m : csr_matrix) (perm : list Z) (i j : nat) (r : Z) :
  perm !! i = Some r -> (j < row_len m r)%nat ->
  concat (map (row_entries m) perm)
    !! (sum_list_with (row_len m) (take i perm) + j)%nat
  = row_entries m r !! j.
Proof.
  intros Hi Hj.
  assert (map (row_entries m) perm !! i = Some (row_entries m r)) as Hrow
    by (rewrite list_lookup_fmap, Hi; reflexivity).
  pose proof (concat_row _ _ _ Hrow) as E.
  rewrite !firstn_map, sum_list_lengths, concat_rows_length in E.
  transitivity
    (take (length (row_entries m r))
       (drop (sum_list_with (row_len m) (take i perm))
          (concat (map (row_entries m) perm))) !! j).
  - rewrite lookup_take_lt by exact Hj. rewrite lookup_drop. reflexivity.
  - rewrite E. reflexivity.
Qed.

Lemma csr_new_wf (d : list float) (ix ip : list Z) (sh : Z * Z) :
  csr_wf (mk_csr d ix ip sh) -> csr_new d ix ip sh = Ok (mk_csr d ix ip sh).
Proof.
  intros Hwf.
  destruct (csr_wf_spec _ Hwf) as (Hr & Hc & Hlen & H0 & Hlast & Hix & _).
  unfold numRows, numCols in *. simpl in *.
  unfold csr_new, format_ok.
  rewrite (proj2 (Z.leb_le 0 (fst sh))) by lia.
  rewrite (proj2 (Z.leb_le 0 (snd sh))) by lia.
  rewrite (proj2 (Z.eqb_eq _ _)) by lia.
  rewrite (bool_decide_eq_true_2 _ H0).
  rewrite (proj2 (Nat.eqb_eq _ _)) by lia.
  rewrite (proj2 (Z.leb_le _ _)) by lia.
  simpl. rewrite Hlast. rewrite slice_all. rewrite <- Hix, slice_all.
  reflexivity.
Qed.

Lemma rows_of_perm_wf (m : csr_matrix) (perm : list Z) (sh : Z * Z) :
  csr_wf m -> fst sh = Z.of_nat (length perm) -> snd sh = numCols m ->
  csr_wf (of_rows (map (row_entries m) perm) sh).
Proof.
  intros Hwf Hr Hc. apply csr_wf_of_rows.
  - rewrite length_map. exact Hr.
  - rewrite Hc. destruct (csr_wf_spec m Hwf) as (_ & ? & _). assumption.
  - apply Forall_forall. intros r Hin. apply list_elem_of_In in Hin.
    apply in_map_iff in Hin. destruct Hin as (i & <- & _).
    rewrite Hc. apply (row_entries_cols m i Hwf).
Qed.

Lemma shuffleRows_closed `{L : NumLib} (m : csr_matrix) (perm : list Z) :
  csr_wf m -> perm ≡ₚ seqZ 0 (numRows m) ->
  mutil.shuffleRows m (Some perm)
  = Ok (sort_indices (of_rows (map (row_entries m) perm) (shape m))).
Proof.
  intros Hwf Hperm. unfold mutil.shuffleRows. cbv zeta.
  pose proof (wf_indptr_length m Hwf) as Hlenip.
  pose proof (wf_indices_length m Hwf) as Hlenix.
  pose proof (wf_rows_nonneg m Hwf) as Hrows.
  pose proof (perm_length m perm Hperm) as Hlenp.
  replace (Z.of_nat (length (indptr m)) - 1) with (numRows m) by lia.
  set (T := concat (map (row_entries m) perm)).
  set (off := fun k : nat => sum_list_with (row_len m) (take k perm)).
  set (nnz := length (data m)).
  pose (P := fun (i : Z) (st : list float * list Z * list Z * Z) =>
    let '(d, ix, ip, lo) := st in
    length d = nnz /\ length ix = nnz
    /\ length ip = Datatypes.S (Z.to_nat (numRows m))
    /\ lo = Z.of_nat (off (Z.to_nat i))
    /\ (forall p : nat, (p < off (Z.to_nat i))%nat ->
          d !! p = snd <$> T !! p /\ ix !! p = fst <$> T !! p)
    /\ (forall k : nat, (k <= Z.to_nat i)%nat ->
          ip !! k = Some (Z.of_nat (off k)))).
  match goal with |- context [forM (range 0 (numRows m)) ?body ?s] =>
    destruct (forM_range_inv P body 0 (numRows m) s)
      as ([[[d ix] ip] lo] & Heq & HP)
  end.
  - lia.
  - unfold P. change (Z.to_nat 0) with 0%nat.
    assert (off 0%nat = 0%nat) as Hoff0 by reflexivity.
    rewrite Hoff0.
    split; [reflexivity |]. split; [exact Hlenix |]. split; [exact Hlenip |].
    split; [reflexivity |]. split; [intros p Hp; lia |].
    intros k Hk. assert (k = 0%nat) as -> by lia. rewrite Hoff0.
    destruct (csr_wf_spec m Hwf) as (_ & _ & _ & H0 & _). exact H0.
  - intros i [[[d ix] ip] lo] Hi (Hd & Hix & Hip & Hlo & Hcopy & Hptr).
    destruct (lookup_lt_is_Some_2 perm (Z.to_nat i) ltac:(lia)) as [r Hr].
    pose proof (perm_range m perm Hperm _ _ Hr) as Hrr.
    pose proof (perm_prefix_S m perm _ _ Hr) as HoffS.
    pose proof (perm_prefix_le m Hwf perm Hperm (Datatypes.S (Z.to_nat i))) as Hle.
    fold (off (Datatypes.S (Z.to_nat i))) in HoffS, Hle.
    fold (off (Z.to_nat i)) in HoffS.
    pose proof (row_entries_length m Hwf r ltac:(lia)) as Hrl.
    fold (row_len m r) in Hrl.
    pose proof (rowptr_mono m Hwf r (r + 1) ltac:(lia) ltac:(lia) ltac:(lia)) as M1.
    pose proof (rowptr_bounds m Hwf r ltac:(lia)) as B1.
    pose proof (rowptr_bounds m Hwf (r + 1) ltac:(lia)) as B2.
    rewrite (getitem_ok perm i r ltac:(lia) Hr). rewrite bind_Ok.
    rewrite (getitem_indptr m Hwf (r + 1)) by lia. rewrite bind_Ok.
    rewrite (getitem_indptr m Hwf r) by lia. rewrite !bind_Ok.
    set (a := rowptr m r) in *. set (b := rowptr m (r + 1)) in *.
    rewrite setitem_ok by lia. rewrite bind_Ok.
    rewrite setitem_ok by (rewrite length_insert; lia). rewrite bind_Ok.
    set (ip2 := <[Z.to_nat (i + 1) := lo + (b - a)]> (<[Z.to_nat i := lo]> ip)).
    assert (ip2 !! Z.to_nat i = Some lo) as Hbase.
    { subst ip2. rewrite list_lookup_insert_ne by lia.
      apply list_lookup_insert_eq. lia. }
    pose (Q := fun (j : Z) (st : list float * list Z) =>
      let '(d, ix) := st in
      length d = nnz /\ length ix = nnz
      /\ (forall p : nat, (Z.of_nat p < lo + j) ->
            d !! p = snd <$> T !! p /\ ix !! p = fst <$> T !! p)).
    match goal with |- context [forM (range 0 (b - a)) ?body ?s] =>
      destruct (forM_range_inv Q body 0 (b - a) s) as ([d1 ix1] & Heq1 & HQ)
    end.
    + lia.
    + unfold Q. split; [assumption |]. split; [assumption |].
      intros p Hp. apply Hcopy. lia.
    + intros j [d0 ix0] Hj (Hd0 & Hix0 & Hc0).
      cbv beta iota. rewrite bind_Ok.
      rewrite (getitem_data m (a + j)) by lia. rewrite bind_Ok.
      rewrite (getitem_ok ip2 i lo ltac:(lia) Hbase). rewrite bind_Ok.
      rewrite setitem_ok by lia. rewrite !bind_Ok.
      rewrite (getitem_indices m Hwf (a + j)) by lia. rewrite !bind_Ok.
      rewrite setitem_ok by lia. rewrite bind_Ok.
      eexists. split; [reflexivity |].
      unfold Q. rewrite !length_insert.
      split; [assumption |]. split; [assumption |].
      intros p Hp.
      destruct (decide (p = Z.to_nat (lo + j))) as [->|Hne].
      * rewrite !list_lookup_insert_eq by lia.
        replace (Z.to_nat (lo + j))
          with (off (Z.to_nat i) + Z.to_nat j)%nat by lia.
        unfold T, off.
        rewrite (concat_rows_lookup m perm _ _ r Hr) by lia.
        rewrite (row_entries_lookup m r _ Hwf) by (fold (row_len m r); lia).
        simpl. fold a.
        replace (Z.to_nat a + Z.to_nat j)%nat with (Z.to_nat (a + j)) by lia.
        split; reflexivity.
      * rewrite !list_lookup_insert_ne by lia. apply Hc0. lia.
    + rewrite Heq1. rewrite bind_Ok. eexists. split; [reflexivity |].
      destruct HQ as (Hd1 & Hix1 & Hc1).
      unfold P. subst ip2. rewrite !length_insert.
      replace (Z.to_nat (i + 1)) with (Datatypes.S (Z.to_nat i)) by lia.
      split; [assumption |]. split; [assumption |]. split; [assumption |].
      split; [lia |]. split.
      * intros p Hp. apply Hc1. lia.
      * intros k Hk.
        destruct (decide (k = Datatypes.S (Z.to_nat i))) as [->|Hne].
        -- rewrite list_lookup_insert_eq by (rewrite length_insert; lia).
           f_equal. lia.
        -- rewrite list_lookup_insert_ne by lia.
           destruct (decide (k = Z.to_nat i)) as [->|Hne'].
           ++ rewrite list_lookup_insert_eq by lia. f_equal. lia.
           ++ rewrite list_lookup_insert_ne by lia. apply Hptr. lia.
  - rewrite Heq. rewrite !bind_Ok. clear Heq.
    destruct HP as (Hd & Hix & Hip & Hlo & Hcopy & Hptr).
    assert (off (Z.to_nat (numRows m)) = nnz) as Hoff.
    { unfold off. rewrite take_ge by lia. apply (perm_total m Hwf perm Hperm). }
    rewrite Hoff in Hcopy.
    assert (length T = nnz) as HlenT.
    { unfold T. rewrite concat_rows_length. apply (perm_total m Hwf perm Hperm). }
    assert (mk_csr d ix ip (shape m)
            = of_rows (map (row_entries m) perm) (shape m)) as Hres.
    { unfold of_rows. fold T. f_equal.
      - apply list_eq_lookup_lt.
        + rewrite length_map. lia.
        + intros p Hp. rewrite (proj1 (Hcopy p ltac:(lia))).
          symmetry. apply list_lookup_fmap.
      - apply list_eq_lookup_lt.
        + rewrite length_map. lia.
        + intros p Hp. rewrite (proj2 (Hcopy p ltac:(lia))).
          symmetry. apply list_lookup_fmap.
      - apply list_eq_lookup_lt.
        + rewrite ptrs_from_length, !length_map. lia.
        + intros k Hk. rewrite Hptr by lia.
          rewrite ptrs_from_lookup by (rewrite !length_map; lia).
          f_equal. unfold off.
          rewrite !firstn_map, sum_list_lengths, concat_rows_length. lia. }
    rewrite csr_new_wf.
    + rewrite bind_Ok. rewrite Hres. reflexivity.
    + rewrite Hres. apply rows_of_perm_wf; [assumption | | reflexivity].
      fold (numRows m). lia.
Qed.

Lemma insert_by_col_perm (e : Z * float) (l : list (Z * float)) :
  insert_by_col e l ≡ₚ e :: l.
Proof.
  induction l as [|x l IH]; simpl; [reflexivity |].
  destruct (e.1 <=? x.1); [reflexivity |].
  rewrite IH. apply Permutation_swap.
Qed.

Lemma sort_row_perm (l : list (Z * float)) : sort_row l ≡ₚ l.
Proof.
  induction l as [|x l IH]; simpl; [reflexivity |].
  rewrite insert_by_col_perm, IH. reflexivity.
Qed.

Lemma nondecreasing_cons (a : Z) (l : list Z) :
  nondecreasing (a :: l) = true <->
  (forall b, head l = Some b -> a <= b) /\ nondecreasing l = true.
Proof.
  destruct l as [|b l]; simpl.
  - split; [intros _; split; [intros ? [=] | reflexivity] | reflexivity].
  - rewrite andb_true_iff, Z.leb_le. split.
    + intros [H1 H2]. split; [intros ? [= <-]; exact H1 | exact H2].
    + intros [H1 H2]. split; [apply H1; reflexivity | exact H2].
Qed.

Lemma insert_by_col_sorted (e : Z * float) (l : list (Z * float)) :
  nondecreasing (map fst l) = true ->
  nondecreasing (map fst (insert_by_col e l)) = true.
Proof.
  induction l as [|x l IH]; intros Hs; [reflexivity |].
  simpl. destruct (e.1 <=? x.1) eqn:E.
  - change (map fst (e :: x :: l)) with (e.1 :: map fst (x :: l)).
    apply nondecreasing_cons. split; [| exact Hs].
    simpl. intros b [= <-]. apply Z.leb_le. exact E.
  - change (map fst (x :: insert_by_col e l))
      with (x.1 :: map fst (insert_by_col e l)).
    change (map fst (x :: l)) with (x.1 :: map fst l) in Hs.
    apply nondecreasing_cons in Hs. destruct Hs as [Hhd Hs].
    apply nondecreasing_cons. split; [| apply IH; exact Hs].
    intros b Hb. apply Z.leb_gt in E.
    destruct l as [|y l]; simpl in Hb.
    + injection Hb as <-. lia.
    + destruct (e.1 <=? y.1); simpl in Hb; injection Hb as <-.
      * lia.
      * apply Hhd. reflexivity.
Qed.

Lemma sort_row_sorted (l : list (Z * float)) :
  nondecreasing (map fst (sort_row l)) = true.
Proof.
  induction l as [|x l IH]; [reflexivity |].
  simpl. apply insert_by_col_sorted. exact IH.
Qed.

Lemma rows_of_all (m : csr_matrix) :
  csr_wf m -> of_rows (rows_of m) (shape m) = m.
Proof.
  intros Hwf. pose proof (wf_rows_nonneg m Hwf) as Hr.
  pose proof (selected_of_rows m Hwf 0 (Z.to_nat (numRows m)) ltac:(lia)) as E.
  change (Z.of_nat 0) with 0 in E. rewrite Nat.add_0_l in E.
  rewrite !Z2Nat.id in E by lia.
  rewrite (selected_all m Hwf) in E.
  unfold rows_of. symmetry. etransitivity; [exact E |].
  f_equal. unfold numRows, numCols. destruct (shape m); reflexivity.
Qed.

(** C8: for a well-formed matrix and a permutation of its row numbers,
    [shuffleRows] returns a well-formed matrix of the same shape whose row
    [i] holds the entries of row [permutation[i]] (so the row pointers are
    those of the permuted row lengths), ordered by column; with the
    identity permutation and rows already ordered by column, the result is
    the matrix itself. *)
Theorem shuffleRows_spec `{L : NumLib} (m : csr_matrix) (perm : list Z) :
  csr_wf m -> perm ≡ₚ seqZ 0 (numRows m) ->
  exists res,
    mutil.shuffleRows m (Some perm) = Ok res
    /\ csr_wf res
    /\ shape res = shape m
    /\ (forall (i : nat) (r : Z), perm !! i = Some r ->
          row_entries res (Z.of_nat i) ≡ₚ row_entries m r
          /\ nondecreasing (map fst (row_entries res (Z.of_nat i))) = true
          /\ rowptr res (Z.of_nat i + 1) - rowptr res (Z.of_nat i)
             = rowptr m (r + 1) - rowptr m r)
    /\ (perm = seqZ 0 (numRows m) -> has_sorted_indices m = true -> res = m).
Proof.
  intros Hwf Hperm.
  rewrite (shuffleRows_closed m perm Hwf Hperm).
  set (rows := map (row_entries m) perm).
  set (X := of_rows rows (shape m)).
  pose proof (perm_length m perm Hperm) as Hlenp.
  pose proof (wf_rows_nonneg m Hwf) as Hr.
  assert (fst (shape m) = Z.of_nat (length rows)) as Hsh.
  { subst rows. rewrite length_map. fold (numRows m). lia. }
  assert (rows_of X = rows) as HrX by (apply rows_of_of_rows; exact Hsh).
  assert (csr_wf X) as HwfX.
  { apply rows_of_perm_wf; [assumption | | reflexivity]. fold (numRows m). lia. }
  assert (forall res (rows' : list (list (Z * float))),
            res = of_rows rows' (shape m) ->
            length rows' = length rows ->
            (forall (i : nat) r', rows' !! i = Some r' ->
               exists r, perm !! i = Some r /\ r' ≡ₚ row_entries m r
                         /\ nondecreasing (map fst r') = true) ->
            csr_wf res /\ shape res = shape m
            /\ (forall (i : nat) (r : Z), perm !! i = Some r ->
                  row_entries res (Z.of_nat i) ≡ₚ row_entries m r
                  /\ nondecreasing (map fst (row_entries res (Z.of_nat i))) = true
                  /\ rowptr res (Z.of_nat i + 1) - rowptr res (Z.of_nat i)
                     = rowptr m (r + 1) - rowptr m r)) as Hgen.
  { intros res rows' -> Hlen Hrows'.
    assert (csr_wf (of_rows rows' (shape m))) as Hwf'.
    { apply csr_wf_of_rows.
      - lia.
      - destruct (csr_wf_spec m Hwf) as (_ & ? & _). assumption.
      - apply Forall_lookup. intros i r' Hi.
        destruct (Hrows' i r' Hi) as (r & _ & Hp & _).
        rewrite Hp. apply (row_entries_cols m r Hwf). }
    split; [exact Hwf' |]. split; [reflexivity |].
    intros i r Hi.
    assert (i < length rows')%nat as Hlt.
    { rewrite Hlen. subst rows. rewrite length_map.
      eapply lookup_lt_Some; eassumption. }
    destruct (lookup_lt_is_Some_2 rows' i Hlt) as [r' Hr'].
    destruct (Hrows' i r' Hr') as (r0 & Hi0 & Hp & Hs).
    assert (r0 = r) as -> by congruence.
    pose proof (row_entries_of_rows rows' (shape m) i r' Hr') as E.
    rewrite E. split; [exact Hp |]. split; [exact Hs |].
    pose proof (perm_range m perm Hperm i r Hi) as Hrr.
    pose proof (row_entries_length _ Hwf' (Z.of_nat i)) as L1.
    pose proof (row_entries_length m Hwf r ltac:(lia)) as L2.
    rewrite E in L1.
    assert (numRows (of_rows rows' (shape m)) = numRows m) as Hnr by reflexivity.
    assert (length rows = length perm) as Hlr by apply length_map.
    specialize (L1 ltac:(rewrite Hnr; lia)).
    pose proof (Permutation_length Hp) as L3.
    pose proof (rowptr_mono _ Hwf' (Z.of_nat i) (Z.of_nat i + 1)
                  ltac:(lia) ltac:(lia) ltac:(rewrite Hnr; lia)).
    pose proof (rowptr_mono m Hwf r (r + 1) ltac:(lia) ltac:(lia) ltac:(lia)).
    lia. }
  unfold sort_indices. destruct (has_sorted_indices X) eqn:Hsorted.
  - exists X. split; [reflexivity |].
    destruct (Hgen X rows eq_refl eq_refl) as (H1 & H2 & H3).
    { intros i r' Hi. subst rows. rewrite list_lookup_fmap in Hi.
      destruct (perm !! i) as [r|] eqn:Hpi; [| discriminate].
      injection Hi as <-. exists r. split; [reflexivity |].
      split; [reflexivity |].
      unfold has_sorted_indices in Hsorted. rewrite HrX in Hsorted.
      rewrite forallb_forall in Hsorted. apply Hsorted.
      apply in_map. apply list_elem_of_In.
      eapply list_elem_of_lookup_2; eassumption. }
    split; [exact H1 |]. split; [exact H2 |]. split; [exact H3 |].
    intros -> _. subst X rows. apply rows_of_all. exact Hwf.
  - rewrite HrX.
    exists (of_rows (map sort_row rows) (shape X)). split; [reflexivity |].
    destruct (Hgen (of_rows (map sort_row rows) (shape X)) (map sort_row rows)
                eq_refl ltac:(apply length_map)) as (H1 & H2 & H3).
    { intros i r' Hi. subst rows. rewrite !list_lookup_fmap in Hi.
      destruct (perm !! i) as [r|] eqn:Hpi; [| discriminate].
      injection Hi as <-. exists r. split; [reflexivity |].
      split; [apply sort_row_perm | apply sort_row_sorted]. }
    split; [exact H1 |]. split; [exact H2 |]. split; [exact H3 |].
    intros -> Hs. exfalso. subst X rows.
    change (map (row_entries m) (seqZ 0 (numRows m))) with (rows_of m) in Hsorted.
    rewrite (rows_of_all m Hwf) in Hsorted. congruence.
Qed.

Lemma shuffleRows_spec_witness :
  csr_wf examples.small
  /\ [1; 0] ≡ₚ seqZ 0 (numRows examples.small)
  /\ exists res,
       mutil.shuffleRows (L := examples.ref_lib) examples.small (Some [1; 0])
       = Ok res
       /\ csr_wf res /\ shape res = shape examples.small.
Proof.
  split; [reflexivity |]. split; [apply Permutation_swap |].
  destruct (shuffleRows_spec (L := examples.ref_lib) examples.small [1; 0]
              eq_refl (Permutation_swap 0 1 []))
    as (res & H1 & H2 & H3 & _).
  exists res. split; [exact H1 |]. split; [exact H2 | exact H3].
Defined.

(** ** Dense bridge *)

Lemma foldl_min_spec (x : Z) (xs : list Z) :
  foldl Z.min x xs ∈ x :: xs /\ Forall (fun c => foldl Z.min x xs <= c) (x :: xs).
Proof.
  revert x. induction xs as [|y xs IH]; intros x; simpl.
  - split; [left | constructor; [lia | constructor]].
  - destruct (IH (Z.min x y)) as [Hin Hle]. split.
    + apply elem_of_cons in Hin. destruct Hin as [Hin|Hin].
      * rewrite Hin. destruct (Z.min_spec x y) as [[_ ->]|[_ ->]].
        -- left.
        -- right. left.
      * right. right. exact Hin.
    + inversion Hle as [|? ? H1 H2]; subst.
      constructor; [lia |]. constructor; [lia | exact H2].
Qed.

Lemma foldl_max_spec (x : Z) (xs : list Z) :
  foldl Z.max x xs ∈ x :: xs /\ Forall (fun c => c <= foldl Z.max x xs) (x :: xs).
Proof.
  revert x. induction xs as [|y xs IH]; intros x; simpl.
  - split; [left | constructor; [lia | constructor]].
  - destruct (IH (Z.max x y)) as [Hin Hle]. split.
    + apply elem_of_cons in Hin. destruct Hin as [Hin|Hin].
      * rewrite Hin. destruct (Z.max_spec x y) as [[_ ->]|[_ ->]].
        -- right. left.
        -- left.
      * right. right. exact Hin.
    + inversion Hle as [|? ? H1 H2]; subst.
      constructor; [lia |]. constructor; [lia | exact H2].
Qed.

Lemma np_min_spec (l : list Z) :
  l <> [] -> exists lo, np_min l = Ok lo /\ lo ∈ l /\ Forall (fun c => lo <= c) l.
Proof.
  destruct l as [|x xs]; [congruence |]. intros _.
  exists (foldl Z.min x xs). split; [reflexivity | apply foldl_min_spec].
Qed.

Lemma np_max_spec (l : list Z) :
  l <> [] -> exists hi, np_max l = Ok hi /\ hi ∈ l /\ Forall (fun c => c <= hi) l.
Proof.
  destruct l as [|x xs]; [congruence |]. intros _.
  exists (foldl Z.max x xs). split; [reflexivity | apply foldl_max_spec].
Qed.

Lemma dense_row_fold (es : list (Z * float)) (row : list float) (c : nat) (v : float) :
  Forall (fun e => 0 <= e.1) es -> row !! c = Some v ->
  foldl (fun row e => alter (fun x => (x + e.2)%float) (Z.to_nat e.1) row) row es !! c
  = Some (foldl (fun acc e => if e.1 =? Z.of_nat c then (acc + e.2)%float else acc) v es).
Proof.
  intros Hes. revert row v. induction Hes as [|e es He Hes IH]; intros row v Hrow.
  - exact Hrow.
  - simpl. apply IH.
    destruct (decide (Z.to_nat e.1 = c)) as [E|E].
    + rewrite <- E at 1. rewrite list_lookup_alter_eq, E, Hrow. simpl.
      rewrite (proj2 (Z.eqb_eq _ _)) by lia. reflexivity.
    + rewrite list_lookup_alter_ne by exact E.
      rewrite (proj2 (Z.eqb_neq _ _)) by lia. exact Hrow.
Qed.

Lemma dense_row_length (width : nat) (es : list (Z * float)) :
  length (dense_row width es) = width.
Proof.
  unfold dense_row.
  assert (forall row : list float,
            length (foldl (fun row e => alter (fun x => (x + e.2)%float)
                                          (Z.to_nat e.1) row) row es)
            = length row) as H.
  { induction es as [|e es IH]; intros row; [reflexivity |].
    simpl. rewrite IH. apply length_alter. }
  rewrite H. apply length_replicate.
Qed.

Lemma dense_row_lookup (width : nat) (es : list (Z * float)) (c : nat) :
  Forall (fun e => 0 <= e.1) es -> (c < width)%nat ->
  dense_row width es !! c = Some (cell_of es (Z.of_nat c)).
Proof.
  intros Hes Hc. unfold dense_row, cell_of.
  apply dense_row_fold; [exact Hes |].
  apply lookup_replicate_2. exact Hc.
Qed.

Lemma cell_of_shift (es : list (Z * float)) (lo c : Z) :
  cell_of (map (fun e => (e.1 - lo, e.2)) es) c = cell_of es (lo + c).
Proof.
  unfold cell_of. generalize 0%float.
  induction es as [|e es IH]; intros acc; [reflexivity |].
  simpl. rewrite IH.
  destruct (e.1 - lo =? c) eqn:E1, (e.1 =? lo + c) eqn:E2;
    try reflexivity; lia.
Qed.

Lemma cell_of_absent (es : list (Z * float)) (c : Z) :
  Forall (fun e => e.1 <> c) es -> cell_of es c = 0%float.
Proof.
  unfold cell_of. generalize 0%float.
  induction es as [|e es IH]; intros acc H; [reflexivity |].
  inversion H as [|? ? H1 H2]; subst. simpl.
  rewrite (proj2 (Z.eqb_neq _ _) H1). apply IH. exact H2.
Qed.

Lemma csr_wf_intro (m : csr_matrix) :
  0 <= numRows m -> 0 <= numCols m ->
  Z.of_nat (length (indptr m)) = numRows m + 1 ->
  indptr m !! 0%nat = Some 0 ->
  List.last (indptr m) 0 = Z.of_nat (length (data m)) ->
  length (indices m) = length (data m) ->
  nondecreasing (indptr m) = true ->
  Forall (fun c => 0 <= c < numCols m) (indices m) ->
  csr_wf m.
Proof.
  intros H1 H2 H3 H4 H5 H6 H7 H8. unfold csr_wf, csr_valid.
  rewrite (proj2 (Z.leb_le _ _) H1), (proj2 (Z.leb_le _ _) H2).
  rewrite (proj2 (Z.eqb_eq _ _) H3), (bool_decide_eq_true_2 _ H4).
  rewrite (proj2 (Z.eqb_eq _ _) H5), (proj2 (Nat.eqb_eq _ _) H6), H7.
  simpl. apply forallb_forall. intros c Hc. apply list_elem_of_In in Hc.
  rewrite Forall_forall in H8. specialize (H8 c Hc).
  apply andb_true_intro. split; [apply Z.leb_le | apply Z.ltb_lt]; lia.
Qed.

Lemma shifted_wf (m : csr_matrix) (lo hi : Z) :
  csr_wf m -> lo <= hi -> Forall (fun c => lo <= c <= hi) (indices m) ->
  csr_wf (shifted m lo hi).
Proof.
  intros Hwf Hlh Hb.
  destruct (csr_wf_spec m Hwf) as (H1 & H2 & H3 & H4 & H5 & H6 & H7 & H8).
  apply csr_wf_intro; unfold shifted, numRows, numCols in *; simpl;
    try assumption; try lia.
  - rewrite length_map. exact H6.
  - apply Forall_forall. intros c Hc. apply list_elem_of_In in Hc.
    apply in_map_iff in Hc. destruct Hc as (c0 & <- & Hc0).
    apply list_elem_of_In in Hc0. rewrite Forall_forall in Hb.
    specialize (Hb c0 Hc0). lia.
Qed.

Lemma zip_map_fst {A B C} (f : A -> C) (l : list A) (k : list B) :
  zip (map f l) k = map (fun e => (f e.1, e.2)) (zip l k).
Proof.
  revert k. induction l as [|x l IH]; intros [|y k]; simpl; try reflexivity.
  rewrite IH. reflexivity.
Qed.

Lemma shifted_row_entries (m : csr_matrix) (lo hi r : Z) :
  row_entries (shifted m lo hi) r
  = map (fun e => (e.1 - lo, e.2)) (row_entries m r).
Proof.
  unfold row_entries, entries, shifted. simpl.
  rewrite zip_map_fst, skipn_map, firstn_map. reflexivity.
Qed.

Lemma todense_shifted (m : csr_matrix) (lo hi : Z) :
  csr_wf m -> lo <= hi -> Forall (fun c => lo <= c <= hi) (indices m) ->
  todense (shifted m lo hi) = Ok (band m lo hi).
Proof.
  intros Hwf Hlh Hb. unfold todense.
  pose proof (shifted_wf m lo hi Hwf Hlh Hb) as Hwf'.
  unfold csr_wf in Hwf'. rewrite Hwf'. f_equal. unfold band.
  f_equal. unfold rows_of.
  assert (numRows (shifted m lo hi) = numRows m) as -> by reflexivity.
  rewrite map_map. apply map_ext_in. intros r Hr.
  apply list_elem_of_In, elem_of_seqZ in Hr.
  rewrite shifted_row_entries.
  assert (numCols (shifted m lo hi) = hi - lo + 1) as -> by reflexivity.
  assert (Forall (fun e : Z * float => 0 <= e.1)
            (map (fun e : Z * float => (e.1 - lo, e.2)) (row_entries m r))) as Hpos.
  { apply Forall_forall. intros e He. apply list_elem_of_In in He.
    apply in_map_iff in He. destruct He as (e0 & <- & He0). simpl.
    assert (Forall (fun e : Z * float => lo <= e.1 <= hi) (row_entries m r)) as Hall.
    { unfold row_entries, entries. apply Forall_take, Forall_drop.
      apply (Forall_zip_fst (fun c => lo <= c <= hi)). exact Hb. }
    rewrite Forall_forall in Hall. apply list_elem_of_In in He0.
    specialize (Hall e0 He0). lia. }
  apply list_eq_lookup_lt.
  - rewrite dense_row_length, length_map, length_seqZ. reflexivity.
  - intros c Hc. rewrite dense_row_length in Hc.
    rewrite dense_row_lookup by assumption.
    rewrite list_lookup_fmap, lookup_seqZ_lt by lia. simpl.
    rewrite cell_of_shift. reflexivity.
Qed.

Lemma last_nnz (m : csr_matrix) :
  csr_wf m -> nnz m = Z.of_nat (length (data m)).
Proof.
  intros Hwf. destruct (csr_wf_spec m Hwf) as (_ & _ & _ & _ & H & _). exact H.
Qed.

Lemma densify_closed (mat : csr_matrix) (maxExpansion : Z) :
  csr_wf mat -> indices mat <> [] ->
  exists lo hi,
    (lo ∈ indices mat /\ hi ∈ indices mat
     /\ Forall (fun c => lo <= c <= hi) (indices mat))
    /\ mutil.densify mat maxExpansion
       = (if maxExpansion * (numRows mat + 1 + 2 * nnz mat)
             <? numRows mat * (hi - lo)
          then Ok (None, None)
          else Ok (Some (band mat lo hi), Some (lo, numCols mat))).
Proof.
  intros Hwf Hne.
  destruct (np_min_spec _ Hne) as (lo & Hmin & Hlo & Hlob).
  destruct (np_max_spec _ Hne) as (hi & Hmax & Hhi & Hhib).
  exists lo, hi.
  assert (Forall (fun c => lo <= c <= hi) (indices mat)) as Hb.
  { rewrite Forall_forall in *. intros c Hc.
    specialize (Hlob c Hc). specialize (Hhib c Hc). lia. }
  assert (lo <= hi) as Hlh.
  { rewrite Forall_forall in Hb. specialize (Hb lo Hlo). lia. }
  split; [auto |].
  unfold mutil.densify. rewrite Hmax, Hmin. rewrite !bind_Ok.
  replace ((hi - lo) * numRows mat) with (numRows mat * (hi - lo)) by lia.
  replace ((numRows mat + 1 + 2 * nnz mat) * maxExpansion)
    with (maxExpansion * (numRows mat + 1 + 2 * nnz mat)) by lia.
  destruct (maxExpansion * (numRows mat + 1 + 2 * nnz mat)
            <? numRows mat * (hi - lo)); [reflexivity |].
  rewrite (csr_new_wf (data mat) (map (fun c => c - lo) (indices mat))
             (indptr mat) (numRows mat, hi - lo + 1)
             (shifted_wf mat lo hi Hwf Hlh Hb)).
  rewrite bind_Ok. fold (shifted mat lo hi).
  rewrite todense_shifted by assumption. reflexivity.
Qed.

(** C5: for a well-formed matrix with stored entries, with [lo] and [hi]
    the least and greatest stored column, [densify] returns the pair of
    absent values exactly when [rows * (hi - lo)] exceeds [maxExpansion *
    (rows + 1 + 2 * nnz)]; otherwise it returns, with the pair
    [(lo, cols)], a dense matrix of [rows] rows of [hi - lo + 1] cells,
    where cell [(r, c)] is the sum of the values stored at row [r] and
    column [lo + c], zero where nothing is stored. *)
Theorem densify_spec (mat : csr_matrix) (maxExpansion : Z) :
  csr_wf mat -> indices mat <> [] ->
  exists lo hi D,
    (lo ∈ indices mat /\ hi ∈ indices mat
     /\ Forall (fun c => lo <= c <= hi) (indices mat))
    /\ mutil.densify mat maxExpansion
       = (if maxExpansion * (numRows mat + 1 + 2 * nnz mat)
             <? numRows mat * (hi - lo)
          then Ok (None, None)
          else Ok (Some D, Some (lo, numCols mat)))
    /\ dshape D = (numRows mat, hi - lo + 1)
    /\ length (cells D) = Z.to_nat (numRows mat)
    /\ (forall r, 0 <= r < numRows mat ->
          exists row,
            cells D !! Z.to_nat r = Some row
            /\ length row = Z.to_nat (hi - lo + 1)
            /\ forall c, 0 <= c <= hi - lo ->
                 row !! Z.to_nat c = Some (cell mat r (lo + c))
                 /\ (Forall (fun e => e.1 <> lo + c) (row_entries mat r) ->
                     row !! Z.to_nat c = Some 0%float)).
Proof.
  intros Hwf Hne.
  destruct (densify_closed mat maxExpansion Hwf Hne) as (lo & hi & Hb & Hd).
  exists lo, hi, (band mat lo hi).
  split; [exact Hb |]. split; [exact Hd |]. split; [reflexivity |].
  unfold band. simpl cells. split.
  - rewrite length_map, length_seqZ. reflexivity.
  - intros r Hr.
    exists (map (fun c => cell mat r c) (seqZ lo (hi - lo + 1))).
    split.
    + rewrite list_lookup_fmap, lookup_seqZ_lt by lia.
      rewrite Z.add_0_l, Z2Nat.id by lia. reflexivity.
    + split; [rewrite length_map, length_seqZ; reflexivity |].
      intros c Hc.
      assert (map (fun c0 => cell mat r c0) (seqZ lo (hi - lo + 1))
                !! Z.to_nat c = Some (cell mat r (lo + c))) as Hcell.
      { rewrite list_lookup_fmap, lookup_seqZ_lt by lia.
        rewrite Z2Nat.id by lia. reflexivity. }
      split; [exact Hcell |].
      intros Habs. rewrite Hcell. f_equal.
      apply cell_of_absent. exact Habs.
Qed.

Lemma add_zero_nonzero (v : float) :
  nonzero_f v = true -> (0 + v)%float = v.
Proof.
  unfold nonzero_f, is_zero_f. intros H. apply negb_true_iff in H.
  rewrite FloatAxioms.eqb_spec in H.
  apply Prim2SF_inj. rewrite FloatAxioms.add_spec.
  change (Prim2SF 0) with (S754_zero false) in *.
  destruct (Prim2SF v) as [s| s| |s mf e] eqn:E; try reflexivity.
  simpl in H. discriminate.
Qed.

Lemma nz_cells_shift (f : Z -> float) (lo s : Z) (n : nat) :
  map (fun e => (e.1 + lo, e.2))
      (List.filter nz_entry
         (zip (seqZ s (Z.of_nat n)) (map f (seqZ (s + lo) (Z.of_nat n)))))
  = List.filter nz_entry (map (fun c => (c, f c)) (seqZ (s + lo) (Z.of_nat n))).
Proof.
  revert s. induction n as [|n IH]; intros s; [reflexivity |].
  rewrite !(seqZ_cons _ (Z.of_nat (Datatypes.S n))) by lia.
  replace (Z.pred (Z.of_nat (Datatypes.S n))) with (Z.of_nat n) by lia.
  replace (Z.succ (s + lo)) with (Z.succ s + lo) by lia.
  simpl.
  change (nz_entry (s, f (s + lo))) with (nonzero_f (f (s + lo))).
  change (nz_entry (s + lo, f (s + lo))) with (nonzero_f (f (s + lo))).
  destruct (nonzero_f (f (s + lo))); simpl; rewrite IH; reflexivity.
Qed.

Lemma filter_idem {A} (p : A -> bool) (l : list A) :
  List.filter p (List.filter p l) = List.filter p l.
Proof.
  induction l as [|x l IH]; [reflexivity |].
  simpl. destruct (p x) eqn:E; simpl; rewrite ?E, IH; reflexivity.
Qed.

Lemma of_rows_shift (rows : list (list (Z * float))) (lo : Z) (sh : Z * Z) :
  mk_csr (data (of_rows rows sh))
         (map (fun c => c + lo) (indices (of_rows rows sh)))
         (indptr (of_rows rows sh)) sh
  = of_rows (map (map (fun e => (e.1 + lo, e.2))) rows) sh.
Proof.
  unfold of_rows. simpl. f_equal.
  - induction rows as [|r rows IH]; [reflexivity |].
    simpl. rewrite !map_app, IH, map_map. reflexivity.
  - induction rows as [|r rows IH]; [reflexivity |].
    simpl. rewrite !map_app, IH, !map_map. reflexivity.
  - f_equal. rewrite map_map. apply map_ext. intros r. rewrite length_map.
    reflexivity.
Qed.

Lemma undensify_band (m : csr_matrix) (lo hi : Z) :
  csr_wf m -> lo <= hi -> 0 <= lo -> hi < numCols m ->
  mutil.undensify (band m lo hi) (lo, numCols m)
  = Ok (of_rows (map (band_row m lo hi) (seqZ 0 (numRows m))) (shape m)).
Proof.
  intros Hwf Hlh Hlo Hhi.
  pose proof (wf_rows_nonneg m Hwf) as Hr.
  unfold mutil.undensify. simpl dshape. cbv iota beta.
  unfold fromdense. simpl dshape.
  set (rows0 := map nz_cells (cells (band m lo hi))).
  set (sh := (numRows m, numCols m)).
  assert (shape m = sh) as Hsh
    by (unfold sh, numRows, numCols; destruct (shape m); reflexivity).
  assert (map (map (fun e : Z * float => (e.1 + lo, e.2))) rows0
          = map (band_row m lo hi) (seqZ 0 (numRows m))) as Hrows.
  { subst rows0. unfold band. simpl cells. rewrite !map_map.
    apply map_ext. intros r. unfold nz_cells, band_row.
    rewrite length_map, length_seqZ.
    pose proof (nz_cells_shift (cell m r) lo 0 (Z.to_nat (hi - lo + 1))) as E.
    rewrite Z2Nat.id in E by lia. rewrite Z2Nat.id by lia.
    rewrite Z.add_0_l in E. exact E. }
  assert (csr_wf (of_rows (map (band_row m lo hi) (seqZ 0 (numRows m))) sh))
    as Hwf'.
  { apply csr_wf_of_rows.
    - simpl. rewrite length_map, length_seqZ. lia.
    - simpl. lia.
    - apply Forall_forall. intros row Hrow. apply list_elem_of_In in Hrow.
      apply in_map_iff in Hrow. destruct Hrow as (r & <- & _).
      apply Forall_forall. intros e He. apply list_elem_of_In in He.
      unfold band_row in He. apply filter_In in He. destruct He as [He _].
      apply in_map_iff in He. destruct He as (c & <- & Hc).
      apply list_elem_of_In, elem_of_seqZ in Hc. simpl. lia. }
  pose proof (of_rows_shift rows0 lo sh) as Eshift.
  assert (data (of_rows rows0 (numRows m, hi - lo + 1)) = data (of_rows rows0 sh))
    as -> by reflexivity.
  assert (indices (of_rows rows0 (numRows m, hi - lo + 1))
          = indices (of_rows rows0 sh)) as -> by reflexivity.
  assert (indptr (of_rows rows0 (numRows m, hi - lo + 1))
          = indptr (of_rows rows0 sh)) as -> by reflexivity.
  fold sh. rewrite csr_new_wf; rewrite Eshift, Hrows; [| exact Hwf'].
  rewrite bind_Ok. f_equal. unfold eliminate_zeros.
  rewrite rows_of_of_rows by (simpl; rewrite length_map, length_seqZ; lia).
  rewrite map_map. rewrite Hsh. f_equal. apply map_ext. intros r.
  unfold band_row. apply filter_idem.
Qed.

Lemma cell_fold_absent (es : list (Z * float)) (c : Z) (acc : float) :
  Forall (fun e => e.1 <> c) es ->
  foldl (fun acc e => if e.1 =? c then (acc + e.2)%float else acc) acc es = acc.
Proof.
  revert acc. induction es as [|e es IH]; intros acc H; [reflexivity |].
  inversion H as [|? ? H1 H2]; subst. simpl.
  rewrite (proj2 (Z.eqb_neq _ _) H1). apply IH. exact H2.
Qed.

Lemma cell_of_cons_ne (e : Z * float) (es : list (Z * float)) (c : Z) :
  e.1 <> c -> cell_of (e :: es) c = cell_of es c.
Proof.
  intros H. unfold cell_of. simpl. rewrite (proj2 (Z.eqb_neq _ _) H).
  reflexivity.
Qed.

Lemma cell_of_cons_eq (e : Z * float) (es : list (Z * float)) :
  Forall (fun e' => e'.1 <> e.1) es ->
  cell_of (e :: es) e.1 = (0 + e.2)%float.
Proof.
  intros H. unfold cell_of. simpl. rewrite Z.eqb_refl.
  apply cell_fold_absent. exact H.
Qed.

Lemma increasing_cons (a : Z) (l : list Z) :
  increasing (a :: l) = true ->
  Forall (fun b => a < b) l /\ increasing l = true.
Proof.
  revert a. induction l as [|b l IH]; intros a H.
  - split; [constructor | reflexivity].
  - simpl in H. apply andb_prop in H. destruct H as [Hab Hl].
    apply Z.ltb_lt in Hab. split; [| exact Hl].
    constructor; [exact Hab |].
    destruct (IH b Hl) as [Hall _].
    eapply Forall_impl; [exact Hall |]. simpl. intros; lia.
Qed.

Lemma filter_band_absent (es : list (Z * float)) (lo : Z) (n : Z) :
  Forall (fun e => ~ (lo <= e.1 < lo + n)) es ->
  List.filter nz_entry (map (fun c => (c, cell_of es c)) (seqZ lo n)) = [].
Proof.
  intros H.
  assert (forall c, lo <= c < lo + n -> cell_of es c = 0%float) as Hz.
  { intros c Hc. apply cell_of_absent. eapply Forall_impl; [exact H |].
    simpl. intros e He Heq. apply He. rewrite Heq. exact Hc. }
  assert (forall l : list Z, Forall (fun c => lo <= c < lo + n) l ->
            List.filter nz_entry (map (fun c => (c, cell_of es c)) l) = []) as Hl.
  { induction l as [|c l IH]; intros Hall; [reflexivity |].
    inversion Hall as [|? ? H1 H2]; subst. simpl.
    unfold nz_entry at 1. simpl. rewrite (Hz c H1).
    change (nonzero_f 0) with false. cbv iota. apply IH. exact H2. }
  apply Hl. apply Forall_forall. intros c Hc. apply elem_of_seqZ in Hc. lia.
Qed.

Lemma band_row_canonical (es : list (Z * float)) (hi : Z) :
  increasing (map fst es) = true -> forallb nz_entry es = true ->
  forall lo, Forall (fun e => lo <= e.1 <= hi) es ->
  List.filter nz_entry (map (fun c => (c, cell_of es c)) (seqZ lo (hi - lo + 1)))
  = es.
Proof.
  induction es as [|e es IH]; intros Hinc Hnz lo Hb.
  - apply filter_band_absent. constructor.
  - inversion Hb as [|? ? Hb1 Hb2]; subst.
    change (map fst (e :: es)) with (e.1 :: map fst es) in Hinc.
    apply increasing_cons in Hinc. destruct Hinc as [Hgt Hinc].
    simpl in Hnz. apply andb_prop in Hnz. destruct Hnz as [Hnz1 Hnz].
    assert (Forall (fun e' : Z * float => e.1 < e'.1) es) as Hgt'.
    { apply Forall_forall. intros e' He'.
      rewrite Forall_forall in Hgt. apply Hgt.
      apply list_elem_of_In. apply in_map. apply list_elem_of_In. exact He'. }
    replace (hi - lo + 1) with ((e.1 - lo) + (1 + (hi - e.1))) by lia.
    rewrite seqZ_app by lia. rewrite (seqZ_cons (lo + (e.1 - lo))) by lia.
    replace (lo + (e.1 - lo)) with e.1 by lia.
    replace (Z.pred (1 + (hi - e.1))) with (hi - (e.1 + 1) + 1) by lia.
    rewrite map_app, List.filter_app. simpl.
    rewrite filter_band_absent.
    2:{ constructor; [lia |]. eapply Forall_impl; [exact Hgt' |].
        simpl. intros e' He'. lia. }
    rewrite cell_of_cons_eq.
    2:{ eapply Forall_impl; [exact Hgt' |]. simpl. intros e' He'. lia. }
    unfold nz_entry in Hnz1.
    rewrite (add_zero_nonzero _ Hnz1).
    unfold nz_entry at 1. simpl. rewrite Hnz1. simpl.
    destruct e as [c v]. simpl in *. f_equal.
    etransitivity; [| apply (IH Hinc Hnz (Z.succ c))].
    2:{ rewrite Forall_forall in *. intros e' He'.
        specialize (Hgt' e' He'). specialize (Hb2 e' He'). lia. }
    replace (hi - Z.succ c + 1) with (hi - (c + 1) + 1) by lia.
    f_equal. apply map_ext_in. intros c' Hc'.
    apply list_elem_of_In, elem_of_seqZ in Hc'.
    f_equal. apply cell_of_cons_ne. simpl. lia.
Qed.

(** C6: for a well-formed matrix with stored entries whose band
    qualifies, [undensify] of [densify] succeeds and gives a well-formed
    matrix of the same shape whose row [r] stores exactly the cells of row
    [r] that differ from zero, with their values, by increasing column
    (zeros are not stored); for a matrix in canonical storage (columns
    strictly increasing in each row, no stored zero) the result is the
    matrix itself. *)
Theorem densify_undensify_roundtrip (mat : csr_matrix) (maxExpansion : Z) :
  csr_wf mat -> indices mat <> [] ->
  exists lo hi,
    (lo ∈ indices mat /\ hi ∈ indices mat
     /\ Forall (fun c => lo <= c <= hi) (indices mat))
    /\ (numRows mat * (hi - lo)
          <= maxExpansion * (numRows mat + 1 + 2 * nnz mat) ->
        exists D info res,
          mutil.densify mat maxExpansion = Ok (Some D, Some info)
          /\ mutil.undensify D info = Ok res
          /\ csr_wf res
          /\ shape res = shape mat
          /\ (forall r, 0 <= r < numRows mat ->
                row_entries res r = band_row mat lo hi r)
          /\ (canonical mat = true -> res = mat)).
Proof.
  intros Hwf Hne.
  destruct (densify_closed mat maxExpansion Hwf Hne)
    as (lo & hi & (Hlo & Hhi & Hb) & Hdens).
  exists lo, hi. split; [auto |]. intros Hq.
  destruct (csr_wf_spec mat Hwf) as (Hr & _ & _ & _ & _ & _ & _ & Hcols).
  assert (0 <= lo /\ hi < numCols mat /\ lo <= hi) as (Hlo0 & Hhic & Hlh).
  { rewrite Forall_forall in Hcols, Hb.
    pose proof (Hcols lo Hlo). pose proof (Hcols hi Hhi).
    pose proof (Hb lo Hlo). lia. }
  rewrite (proj2 (Z.ltb_ge _ _) Hq) in Hdens.
  set (rows := map (band_row mat lo hi) (seqZ 0 (numRows mat))).
  exists (band mat lo hi), (lo, numCols mat), (of_rows rows (shape mat)).
  split; [exact Hdens |].
  split; [apply undensify_band; assumption |].
  assert (fst (shape mat) = Z.of_nat (length rows)) as Hlen.
  { subst rows. rewrite length_map, length_seqZ. fold (numRows mat). lia. }
  split.
  { apply csr_wf_of_rows; [exact Hlen | fold (numCols mat); lia |].
    apply Forall_forall. intros row Hrow. apply list_elem_of_In in Hrow.
    apply in_map_iff in Hrow. destruct Hrow as (r & <- & _).
    apply Forall_forall. intros e He. apply list_elem_of_In in He.
    unfold band_row in He. apply filter_In in He. destruct He as [He _].
    apply in_map_iff in He. destruct He as (c & <- & Hc).
    apply list_elem_of_In, elem_of_seqZ in Hc. simpl.
    fold (numCols mat). lia. }
  split; [reflexivity |].
  split.
  { intros r Hrr. rewrite <- (Z2Nat.id r) at 1 by lia.
    apply row_entries_of_rows. subst rows.
    rewrite list_lookup_fmap, lookup_seqZ_lt by lia. simpl.
    f_equal. f_equal. lia. }
  intros Hcan. rewrite <- (rows_of_all mat Hwf) at 2. f_equal.
  subst rows. unfold rows_of. apply map_ext_in. intros r Hr'.
  unfold canonical in Hcan. rewrite forallb_forall in Hcan.
  specialize (Hcan (row_entries mat r)
                (in_map (row_entries mat) _ _ Hr')).
  apply andb_prop in Hcan. destruct Hcan as [Hinc Hnz].
  unfold band_row, cell. apply band_row_canonical; [exact Hinc | exact Hnz |].
  unfold row_entries, entries. apply Forall_take, Forall_drop.
  apply (Forall_zip_fst (fun c => lo <= c <= hi)). exact Hb.
Qed.

Lemma densify_undensify_roundtrip_witness :
  exists lo hi,
    (lo ∈ indices examples.small /\ hi ∈ indices examples.small
     /\ Forall (fun c => lo <= c <= hi) (indices examples.small))
    /\ (numRows examples.small * (hi - lo)
          <= 3 * (numRows examples.small + 1 + 2 * nnz examples.small) ->
        exists D info res,
          mutil.densify examples.small 3 = Ok (Some D, Some info)
          /\ mutil.undensify D info = Ok res
          /\ csr_wf res
          /\ shape res = shape examples.small
          /\ (forall r, 0 <= r < numRows examples.small ->
                row_entries res r = band_row examples.small lo hi r)
          /\ (canonical examples.small = true -> res = examples.small)).
Proof.
  apply (densify_undensify_roundtrip examples.small 3);
    [reflexivity | discriminate].
Defined.

Lemma densify_spec_witness :
  csr_wf examples.small /\ indices examples.small <> []
  /\ mutil.densify examples.small 3
     = Ok (Some (mk_dense [[1; 0]; [0; 2]]%float (2, 2)), Some (0, 2))
  /\ exists lo hi D,
       (lo ∈ indices examples.small /\ hi ∈ indices examples.small
        /\ Forall (fun c => lo <= c <= hi) (indices examples.small))
       /\ mutil.densify examples.small 3
          = (if 3 * (numRows examples.small + 1 + 2 * nnz examples.small)
                <? numRows examples.small * (hi - lo)
             then Ok (None, None)
             else Ok (Some D, Some (lo, numCols examples.small)))
       /\ dshape D = (numRows examples.small, hi - lo + 1).
Proof.
  split; [reflexivity |]. split; [discriminate |]. split; [reflexivity |].
  destruct (densify_spec examples.small 3 eq_refl ltac:(discriminate))
    as (lo & hi & D & H1 & H2 & H3 & _).
  exists lo, hi, D. split; [exact H1 |]. split; [exact H2 | exact H3].
Defined.

(** Scenario 6: two entries spanning columns 0..1000 are too wide. *)
Example densify_too_wide :
  mutil.densify (mk_csr [1; 1]%float [0; 1000] [0; 2] (1, 1001)) 3
  = Ok (None, None).
Proof. reflexivity. Qed.

(** ** Broadcast by row sums *)

(** ** Loops that build a list *)

Lemma forM_mapM_sim_from {Y S} (f : Z -> outcome Y) (body : Z -> S -> outcome S)
    (R : list Y -> S -> Prop) (lo hi : Z) :
  (forall i ys s, lo <= i < hi -> length ys = Z.to_nat (i - lo) -> R ys s ->
     match f i with
     | Ok y => exists s', body i s = Ok s' /\ R (ys ++ [y]) s'
     | Raise e => body i s = Raise e
     end) ->
  forall (n : nat) (a : Z) (ys0 : list Y) (s : S),
    lo <= a -> a + Z.of_nat n = hi -> length ys0 = Z.to_nat (a - lo) ->
    R ys0 s ->
    match mapM f (range a hi) with
    | Ok ys => exists s', forM (range a hi) body s = Ok s'
                          /\ R (ys0 ++ ys) s' /\ length ys = n
    | Raise e => forM (range a hi) body s = Raise e
    end.
Proof.
  intros Hstep. induction n as [|n IH]; intros a ys0 s Ha Hn Hlen HR.
  - rewrite range_nil by lia. simpl. exists s.
    rewrite app_nil_r. auto.
  - rewrite range_cons by lia. simpl.
    pose proof (Hstep a ys0 s ltac:(lia) Hlen HR) as Hs.
    destruct (f a) as [y|e].
    + destruct Hs as (s1 & Hb & HR1). rewrite Hb. simpl.
      specialize (IH (a + 1) (ys0 ++ [y]) s1 ltac:(lia) ltac:(lia)
                    ltac:(rewrite length_app; simpl; lia) HR1).
      destruct (mapM f (range (a + 1) hi)) as [ys|e]; simpl.
      * destruct IH as (s' & Hf & HR' & Hl). exists s'.
        rewrite <- app_assoc in HR'. simpl in HR'. simpl. auto.
      * exact IH.
    + rewrite Hs. reflexivity.
Qed.

Lemma forM_mapM_sim {Y S} (f : Z -> outcome Y) (body : Z -> S -> outcome S)
    (R : list Y -> S -> Prop) (lo hi : Z) (s : S) :
  lo <= hi -> R [] s ->
  (forall i ys s, lo <= i < hi -> length ys = Z.to_nat (i - lo) -> R ys s ->
     match f i with
     | Ok y => exists s', body i s = Ok s' /\ R (ys ++ [y]) s'
     | Raise e => body i s = Raise e
     end) ->
  match mapM f (range lo hi) with
  | Ok ys => exists s', forM (range lo hi) body s = Ok s'
                        /\ R ys s' /\ length ys = Z.to_nat (hi - lo)
  | Raise e => forM (range lo hi) body s = Raise e
  end.
Proof.
  intros Hle HR Hstep.
  apply (forM_mapM_sim_from f body R lo hi Hstep (Z.to_nat (hi - lo)) lo [] s);
    [lia | lia | simpl; lia | exact HR].
Qed.

Lemma mapM_range_getitem {A Y} (g : A -> outcome Y) (l : list A) :
  mapM (fun j => x ← getitem l j; g x) (range 0 (Z.of_nat (length l)))
  = mapM g l.
Proof.
  assert (forall (pre : list A),
            mapM (fun j => x ← getitem (pre ++ l) j; g x)
                 (range (Z.of_nat (length pre)) (Z.of_nat (length (pre ++ l))))
            = mapM g l) as H.
  { induction l as [|x l IH]; intros pre.
    - rewrite app_nil_r, range_nil by lia. reflexivity.
    - rewrite range_cons by (rewrite length_app; simpl; lia). simpl.
      rewrite (getitem_ok (pre ++ x :: l) _ x) by
        (try lia; rewrite Nat2Z.id; apply list_lookup_middle; reflexivity).
      rewrite bind_Ok.
      specialize (IH (pre ++ [x])). rewrite <- app_assoc in IH. simpl in IH.
      rewrite length_app in IH. simpl in IH.
      replace (Z.of_nat (length pre + 1)) with (Z.of_nat (length pre) + 1) in IH
        by lia.
      rewrite IH. reflexivity. }
  exact (H []).
Qed.

Lemma take_insert_snoc {A} (l : list A) (n : nat) (y : A) :
  (n < length l)%nat -> take (Datatypes.S n) (<[n := y]> l) = take n l ++ [y].
Proof.
  intros Hn.
  rewrite (take_S_r _ _ y) by (apply list_lookup_insert_eq; exact Hn).
  rewrite take_insert_ge by lia. reflexivity.
Qed.

Lemma mapM_length {X Y} (g : X -> outcome Y) (l : list X) (ys : list Y) :
  mapM g l = Ok ys -> length ys = length l.
Proof.
  revert ys. induction l as [|x l IH]; intros ys H; simpl in H.
  - injection H as <-. reflexivity.
  - destruct (g x) as [y|e]; [| discriminate]. simpl in H.
    destruct (mapM g l) as [ys'|e]; [| discriminate]. simpl in H.
    injection H as <-. simpl. rewrite (IH ys' eq_refl). reflexivity.
Qed.

Lemma row_sum_values `{L : NumLib} (m : csr_matrix) (i : Z) :
  csr_wf m -> 0 <= i < numRows m ->
  mutil.row_sum m i = np_sum (row_values m i).
Proof.
  intros Hwf Hi. unfold mutil.row_sum, row_values.
  rewrite (getitem_indptr m Hwf i), bind_Ok by lia.
  rewrite (getitem_indptr m Hwf (i + 1)), bind_Ok by lia.
  reflexivity.
Qed.

Lemma weightByRowSum_tiles `{L : NumLib} (m1 m2 : csr_matrix) :
  csr_wf m1 -> csr_wf m2 -> numRows m1 = 1 -> 1 < numRows m2 ->
  mutil.broadcastAndWeightByRowSum m1 m2 = tiled_by_row_sum m1 m2.
Proof.
  intros Hwf1 Hwf2 Hr1 Hr2.
  pose proof (wf_indices_length m1 Hwf1) as Hix1.
  destruct (csr_wf_spec m2 Hwf2) as (_ & Hcols2 & _).
  unfold mutil.broadcastAndWeightByRowSum, tiled_by_row_sum, weighted_rows.
  cbv zeta. rewrite Hr1.
  rewrite (proj2 (Z.eqb_neq (numRows m2) 1)) by lia.
  rewrite (proj2 (Z.ltb_lt 1 (numRows m2))) by lia.
  simpl andb. cbv iota.
  set (nnz1 := Z.of_nat (length (data m1))).
  set (r2 := numRows m2) in *.
  rewrite !np_zeros_ok by (subst nnz1; nia). rewrite !bind_Ok.
  rewrite setitem_ok by (rewrite length_replicate; lia). rewrite bind_Ok.
  set (N := Z.to_nat (nnz1 * r2)).
  set (f := fun i : Z =>
              w ← np_sum (row_values m2 i);
              mapM (fun x => np_mul x w) (data m1)).
  pose (R := fun (ys : list (list float))
                 (st : list float * list Z * list Z * Z) =>
    let '(d, ix, ip, ptr) := st in
    length d = N /\ length ix = N
    /\ length ip = Datatypes.S (Z.to_nat r2)
    /\ ptr = Z.of_nat (length ys) * nnz1
    /\ take (Z.to_nat ptr) d = concat ys
    /\ take (Z.to_nat ptr) ix = concat (replicate (length ys) (indices m1))
    /\ (forall k : nat, (k <= length ys)%nat ->
          ip !! k = Some (Z.of_nat k * nnz1))).
  match goal with |- context [forM (range 0 r2) ?body ?s] =>
    pose proof (forM_mapM_sim f body R 0 r2 s ltac:(lia)) as Hsim
  end.
  assert (length (replicate (Z.to_nat (r2 + 1)) 0) = Datatypes.S (Z.to_nat r2))
    as Hlen0 by (rewrite length_replicate; lia).
  lapply Hsim; [clear Hsim; intros Hsim |].
  2:{ unfold R. rewrite length_insert, !length_replicate. simpl.
      repeat split; try reflexivity; try lia.
      intros k Hk. assert (k = 0%nat) as -> by lia.
      rewrite list_lookup_insert_eq by (rewrite length_replicate; lia).
      reflexivity. }
  lapply Hsim; [clear Hsim; intros Hsim |].
  2:{ clear Hsim. intros i ys [[[d ix] ip] ptr] Hi Hlen
        (Hd & Hix & Hip & Hptr & Htd & Htix & Hptrs).
      unfold f. cbv beta iota.
      rewrite (row_sum_values m2 i Hwf2 Hi).
      destruct (np_sum (row_values m2 i)) as [w|e]; [| reflexivity].
      rewrite !bind_Ok.
      rewrite <- (mapM_range_getitem (fun x => np_mul x w) (data m1)).
      fold nnz1.
      pose (R' := fun (zs : list float) (st : list float * list Z) =>
        let '(d', ix') := st in
        length d' = N /\ length ix' = N
        /\ take (Z.to_nat ptr + length zs) d' = concat ys ++ zs
        /\ take (Z.to_nat ptr + length zs) ix'
           = concat (replicate (length ys) (indices m1))
             ++ take (length zs) (indices m1)).
      assert (ptr + nnz1 <= Z.of_nat N) as Hroom by (subst N nnz1; nia).
      assert (0 <= ptr) as Hptr0 by (subst nnz1; nia).
      match goal with |- context [forM (range 0 nnz1) ?body ?s] =>
        pose proof (forM_mapM_sim
                      (fun j => x ← getitem (data m1) j; np_mul x w)
                      body R' 0 nnz1 s ltac:(subst nnz1; lia)) as Hin
      end.
      lapply Hin; [clear Hin; intros Hin |].
      2:{ unfold R'. simpl. rewrite Nat.add_0_r, app_nil_r, app_nil_r. auto. }
      lapply Hin; [clear Hin; intros Hin |].
      2:{ clear Hin. intros j zs [d' ix'] Hj Hlz (Hd' & Hix' & Htd' & Htix').
          cbv beta iota.
          destruct (getitem (data m1) j) as [x|e] eqn:Hx; [| reflexivity].
          rewrite !bind_Ok.
          destruct (np_mul x w) as [y|e]; [| reflexivity].
          rewrite !bind_Ok.
          rewrite setitem_ok by lia. rewrite bind_Ok.
          rewrite (getitem_indices m1 Hwf1 j) by (fold nnz1; lia).
          rewrite bind_Ok.
          rewrite setitem_ok by lia. rewrite bind_Ok.
          eexists. split; [reflexivity |].
          unfold R'. rewrite !length_insert, length_app. simpl.
          replace (Z.to_nat (ptr + j)) with (Z.to_nat ptr + length zs)%nat by lia.
          replace (Z.to_nat ptr + (length zs + 1))%nat
            with (Datatypes.S (Z.to_nat ptr + length zs)) by lia.
          rewrite !take_insert_snoc by lia.
          rewrite Htd', Htix', <- !app_assoc.
          split; [assumption |]. split; [assumption |].
          split; [reflexivity |]. f_equal.
          replace (length zs + 1)%nat with (Datatypes.S (length zs)) by lia.
          rewrite (take_S_r _ _ (indices m1 !!! Z.to_nat j)).
          - replace (Z.to_nat j) with (length zs) by lia. reflexivity.
          - replace (length zs) with (Z.to_nat j) by lia.
            apply list_lookup_lookup_total_lt. fold nnz1 in Hj. lia. }
      destruct (mapM (fun j => x ← getitem (data m1) j; np_mul x w)
                     (range 0 nnz1)) as [zs|e].
      - destruct Hin as ([d1 ix1] & Hf & (Hd1 & Hix1' & Htd1 & Htix1) & Hlz).
        rewrite Hf. rewrite bind_Ok.
        rewrite (getitem_ok ip i (Z.of_nat (Z.to_nat i) * nnz1) ltac:(lia))
          by (apply Hptrs; lia).
        rewrite bind_Ok.
        rewrite setitem_ok by lia. rewrite bind_Ok.
        eexists. split; [reflexivity |].
        unfold R. rewrite length_insert, length_app. simpl.
        split; [assumption |]. split; [assumption |]. split; [assumption |].
        split; [lia |].
        replace (Z.to_nat (ptr + nnz1)) with (Z.to_nat ptr + length zs)%nat
          by (subst nnz1; lia).
        rewrite Htd1, Htix1, concat_app. simpl. rewrite app_nil_r.
        split; [reflexivity |]. split.
        + replace (length ys + 1)%nat with (Datatypes.S (length ys)) by lia.
          rewrite replicate_S_end, concat_app. simpl. rewrite app_nil_r.
          f_equal. apply take_ge. subst nnz1. lia.
        + intros k Hk.
          destruct (decide (k = Z.to_nat (i + 1))) as [->|Hne].
          * rewrite list_lookup_insert_eq by lia. f_equal. lia.
          * rewrite list_lookup_insert_ne by lia. apply Hptrs. lia.
      - rewrite Hin. reflexivity. }
  fold f.
  destruct (mapM f (range 0 r2)) as [rows|e]; [| rewrite Hsim; reflexivity].
  destruct Hsim as ([[[d ix] ip] ptr] & Hf & HR & Hlen).
  rewrite Hf. rewrite !bind_Ok.
  destruct HR as (Hd & Hix & Hip & Hptr & Htd & Htix & Hptrs).
  clear Hf. rewrite Z.sub_0_r in Hlen.
  assert (Z.to_nat ptr = N) as HN by (subst N ptr; f_equal; lia).
  rewrite HN in Htd, Htix.
  rewrite take_ge in Htd by lia. rewrite take_ge in Htix by lia.
  rewrite Hlen in Htix.
  assert (ip = map (fun k => k * nnz1) (seqZ 0 (r2 + 1))) as Hipeq.
  { apply list_eq_lookup_lt.
    - rewrite length_map, length_seqZ. lia.
    - intros k Hk. rewrite Hptrs by lia.
      rewrite list_lookup_fmap, lookup_seqZ_lt by lia. simpl. f_equal. }
  assert (List.last ip 0 = Z.of_nat N) as Hlast.
  { assert (ip <> []) as Hne by (intros E; rewrite E in Hip; discriminate).
    pose proof (List_last_lookup ip 0 Hne) as Hl.
    rewrite Hptrs in Hl by lia. injection Hl as <-.
    rewrite Hip. subst N.
    replace (Z.of_nat (Datatypes.S (Z.to_nat r2) - 1)) with r2 by lia.
    subst nnz1. nia. }
  unfold csr_new, format_ok. rewrite Hlast.
  unfold numCols in Hcols2. fold (numRows m2). fold r2.
  rewrite (proj2 (Z.leb_le 0 r2)) by lia.
  rewrite (proj2 (Z.leb_le 0 (snd (shape m2)))) by lia.
  rewrite (proj2 (Z.eqb_eq _ _)) by lia.
  assert (ip !! 0%nat = Some 0) as Hip0 by (rewrite Hptrs by lia; f_equal).
  rewrite (bool_decide_eq_true_2 _ Hip0).
  rewrite (proj2 (Nat.eqb_eq _ _)) by lia.
  rewrite (proj2 (Z.leb_le _ _)) by lia.
  simpl andb. cbv iota.
  rewrite <- Hd at 1. rewrite slice_all. rewrite <- Hix, slice_all.
  rewrite Htd, Htix, Hipeq. reflexivity.
Qed.


Lemma mapM_lookup {X Y} (g : X -> outcome Y) (l : list X) (ys : list Y)
    (i : nat) (x : X) :
  mapM g l = Ok ys -> l !! i = Some x ->
  exists y, g x = Ok y /\ ys !! i = Some y.
Proof.
  revert ys i. induction l as [|x0 l IH]; intros ys i H Hi; [discriminate |].
  simpl in H. destruct (g x0) as [y0|e] eqn:E0; [| discriminate]. simpl in H.
  destruct (mapM g l) as [ys'|e]; [| discriminate]. simpl in H.
  injection H as <-. destruct i as [|i]; simpl in Hi.
  - injection Hi as <-. exists y0. split; [exact E0 | reflexivity].
  - destruct (IH ys' i eq_refl Hi) as (y & Hy & Hl). exists y. auto.
Qed.

Lemma length_concat_replicate {A} (n : nat) (l : list A) :
  length (concat (replicate n l)) = (n * length l)%nat.
Proof.
  induction n as [|n IH]; [reflexivity |].
  simpl. rewrite length_app, IH. reflexivity.
Qed.

Lemma tiled_as_rows (ix1 : list Z) (rows : list (list float)) (sh : Z * Z) :
  Forall (fun r => length r = length ix1) rows ->
  mk_csr (concat rows) (concat (replicate (length rows) ix1))
         (map (fun k => k * Z.of_nat (length ix1))
              (seqZ 0 (Z.of_nat (length rows) + 1)))
         sh
  = of_rows (map (zip ix1) rows) sh.
Proof.
  intros Hall. unfold of_rows. f_equal.
  - induction Hall as [|r rows Hr Hall IH]; [reflexivity |].
    simpl. rewrite map_app, <- IH. f_equal.
    symmetry. apply snd_zip. lia.
  - induction Hall as [|r rows Hr Hall IH]; [reflexivity |].
    simpl. rewrite map_app, <- IH. f_equal.
    symmetry. apply fst_zip. lia.
  - apply list_eq_lookup_lt.
    + rewrite ptrs_from_length, !length_map, length_seqZ. lia.
    + intros k Hk. rewrite length_map, length_seqZ in Hk.
      rewrite list_lookup_fmap, lookup_seqZ_lt by lia. simpl.
      rewrite ptrs_from_lookup by (rewrite !length_map; lia).
      f_equal. rewrite map_map.
      assert (map (fun x => length (zip ix1 x)) rows
              = replicate (length rows) (length ix1)) as ->.
      { clear Hk. induction Hall as [|r rows Hr Hall IH]; [reflexivity |].
        simpl. rewrite IH, length_zip_with, Hr, Nat.min_id. reflexivity. }
      rewrite take_replicate, sum_list_replicate.
      rewrite Nat.min_l by lia. lia.
Qed.

(** C3: for well-formed operands with [rows(m1) = 1] and [rows(m2) > 1],
    [broadcastAndWeightByRowSum] is the row-by-row computation of the
    specification (it fails exactly when a row sum or a product does);
    whenever it returns, the result has the shape of [m2], value and
    column arrays of length [nnz(m1) * rows(m2)], row pointers that are
    the successive multiples of [nnz(m1)], and row [i] pairs the columns
    of [m1]'s row with its values multiplied by the sum of the values
    stored in [m2]'s row [i]. *)
Theorem weightByRowSum_spec `{L : NumLib} (m1 m2 : csr_matrix) :
  csr_wf m1 -> csr_wf m2 -> numRows m1 = 1 -> 1 < numRows m2 ->
  mutil.broadcastAndWeightByRowSum m1 m2 = tiled_by_row_sum m1 m2
  /\ forall res,
       mutil.broadcastAndWeightByRowSum m1 m2 = Ok res ->
       shape res = shape m2
       /\ Z.of_nat (length (data res))
          = Z.of_nat (length (data m1)) * numRows m2
       /\ length (indices res) = length (data res)
       /\ indptr res = map (fun k => k * Z.of_nat (length (data m1)))
                           (seqZ 0 (numRows m2 + 1))
       /\ forall i, 0 <= i < numRows m2 ->
            exists w vs,
              np_sum (row_values m2 i) = Ok w
              /\ mapM (fun x => np_mul x w) (data m1) = Ok vs
              /\ row_entries res i = zip (indices m1) vs.
Proof.
  intros Hwf1 Hwf2 Hr1 Hr2.
  pose proof (weightByRowSum_tiles m1 m2 Hwf1 Hwf2 Hr1 Hr2) as Heq.
  split; [exact Heq |]. intros res Hres. rewrite Heq in Hres.
  unfold tiled_by_row_sum in Hres.
  destruct (weighted_rows m1 m2) as [rows|e] eqn:Hrows; [| discriminate].
  rewrite bind_Ok in Hres. injection Hres as <-.
  pose proof (wf_indices_length m1 Hwf1) as Hix1.
  pose proof (mapM_length _ _ _ Hrows) as Hlen.
  unfold range in Hlen. rewrite length_seqZ, Z.sub_0_r in Hlen.
  assert (forall (i : nat) r, rows !! i = Some r ->
            exists w, np_sum (row_values m2 (Z.of_nat i)) = Ok w
                      /\ mapM (fun x => np_mul x w) (data m1) = Ok r) as Hrow.
  { intros i r Hi. pose proof (lookup_lt_Some _ _ _ Hi) as Hlt.
    destruct (mapM_lookup _ _ _ i (Z.of_nat i) Hrows) as (y & Hy & Hyl).
    { unfold range. rewrite lookup_seqZ_lt by lia. f_equal. }
    assert (y = r) as -> by congruence.
    destruct (np_sum (row_values m2 (Z.of_nat i))) as [w|e]; [| discriminate].
    exists w. split; [reflexivity | exact Hy]. }
  assert (Forall (fun r => length r = length (indices m1)) rows) as Hall.
  { apply Forall_lookup. intros i r Hi.
    destruct (Hrow i r Hi) as (w & _ & Hm).
    rewrite (mapM_length _ _ _ Hm). lia. }
  pose proof (tiled_as_rows (indices m1) rows (shape m2) Hall) as Erows.
  rewrite Hlen, Hix1 in Erows. rewrite Z2Nat.id in Erows by lia.
  simpl. split; [reflexivity |].
  assert (length (concat rows) = (length rows * length (data m1))%nat) as Hcl.
  { rewrite <- sum_list_lengths.
    assert (map length rows = replicate (length rows) (length (data m1))) as ->.
    { clear -Hall Hix1. induction Hall as [|r rows Hr Hall IH]; [reflexivity |].
      simpl. rewrite IH, Hr, Hix1. reflexivity. }
    rewrite sum_list_replicate. lia. }
  split; [rewrite Hcl; nia |].
  split.
  { rewrite Hcl, length_concat_replicate. lia. }
  split; [reflexivity |].
  intros i Hi.
  destruct (lookup_lt_is_Some_2 rows (Z.to_nat i) ltac:(lia)) as [r Hr].
  destruct (Hrow _ r Hr) as (w & Hw & Hm).
  rewrite Z2Nat.id in Hw by lia.
  exists w, r. split; [exact Hw |]. split; [exact Hm |].
  rewrite Erows. rewrite <- (Z2Nat.id i) by lia.
  apply row_entries_of_rows. rewrite list_lookup_fmap, Hr. reflexivity.
Qed.

Lemma weightByRowSum_spec_witness :
  csr_wf examples.wrs_m1 /\ csr_wf examples.uneven
  /\ numRows examples.wrs_m1 = 1 /\ 1 < numRows examples.uneven
  /\ mutil.broadcastAndWeightByRowSum (L := examples.ref_lib)
       examples.wrs_m1 examples.uneven
     = Ok (mk_csr [6; 12; 10; 20]%float [0; 2; 0; 2] [0; 2; 4] (2, 3))
  /\ np_sum (NumLib := examples.ref_lib) (row_values examples.uneven 0)
     = Ok 3%float
  /\ np_sum (NumLib := examples.ref_lib) (row_values examples.uneven 1)
     = Ok 5%float.
Proof.
  split; [reflexivity |]. split; [reflexivity |].
  split; [reflexivity |]. split; [reflexivity |].
  destruct (weightByRowSum_spec (L := examples.ref_lib)
              examples.wrs_m1 examples.uneven
              eq_refl eq_refl eq_refl eq_refl) as [Heq _].
  rewrite Heq. split; [reflexivity |]. split; reflexivity.
Defined.

(** ** In-place updates of one row *)

Lemma getitem_boundary {A} (P rest : list A) (x : A) (j : Z) :
  0 <= j -> length P = Z.to_nat j -> getitem (P ++ x :: rest) j = Ok x.
Proof.
  intros Hj HP. apply getitem_ok; [exact Hj |].
  apply list_lookup_middle. symmetry. exact HP.
Qed.

Lemma setitem_boundary {A} (P rest : list A) (x v : A) (j : Z) :
  0 <= j -> length P = Z.to_nat j ->
  setitem (P ++ x :: rest) j v = Ok (P ++ v :: rest).
Proof.
  intros Hj HP. rewrite setitem_ok by (rewrite length_app; simpl; lia).
  f_equal. rewrite <- HP.
  replace (length P) with (length P + 0)%nat by lia.
  rewrite insert_app_r. reflexivity.
Qed.

(** A loop over [range(lo, hi)] whose step [j] replaces element [j] by
    [g] of it maps [g] over the slice. *)
Lemma forM_segment_map {A} `{!Inhabited A} (g : A -> outcome A)
    (body : Z -> list A -> outcome (list A)) (src : list A) (hi : Z) :
  hi <= Z.of_nat (length src) ->
  (forall (j : Z) (P : list A) (x : A) (rest : list A),
     0 <= j < hi -> length P = Z.to_nat j ->
     body j (P ++ x :: rest)
     = (y ← g x; Ok (P ++ y :: rest))) ->
  forall (n : nat) (j : Z) (P : list A),
    0 <= j -> j + Z.of_nat n = hi -> length P = Z.to_nat j ->
    forM (range j hi) body (P ++ drop (Z.to_nat j) src)
    = (ys ← mapM g (take n (drop (Z.to_nat j) src));
       Ok (P ++ ys ++ drop (Z.to_nat hi) src)).
Proof.
  intros Hhi Hbody. induction n as [|n IH]; intros j P Hj Hn HP.
  - assert (j = hi) as -> by lia. rewrite range_nil by lia. reflexivity.
  - rewrite range_cons by lia. simpl forM.
    assert (src !! Z.to_nat j = Some (src !!! Z.to_nat j)) as Hx
      by (apply list_lookup_lookup_total_lt; lia).
    rewrite (drop_S _ _ _ Hx). simpl take. simpl mapM.
    rewrite Hbody by (try lia; exact HP).
    destruct (g (src !!! Z.to_nat j)) as [y|e]; [| reflexivity].
    rewrite !bind_Ok.
    specialize (IH (j + 1) (P ++ [y]) ltac:(lia) ltac:(lia)
                  ltac:(rewrite length_app; simpl; lia)).
    replace (Z.to_nat (j + 1)) with (Datatypes.S (Z.to_nat j)) in IH by lia.
    rewrite <- app_assoc in IH. simpl in IH. rewrite IH.
    destruct (mapM g (take n (drop (Datatypes.S (Z.to_nat j)) src)))
      as [ys|e]; [| reflexivity].
    rewrite !bind_Ok. rewrite <- app_assoc. reflexivity.
Qed.

Lemma forM_slice_map {A} `{!Inhabited A} (g : A -> outcome A)
    (body : Z -> list A -> outcome (list A)) (src : list A) (lo hi : Z) :
  0 <= lo -> lo <= hi -> hi <= Z.of_nat (length src) ->
  (forall (j : Z) (P : list A) (x : A) (rest : list A),
     0 <= j < hi -> length P = Z.to_nat j ->
     body j (P ++ x :: rest)
     = (y ← g x; Ok (P ++ y :: rest))) ->
  forM (range lo hi) body src
  = (ys ← mapM g (slice src lo hi);
     Ok (take (Z.to_nat lo) src ++ ys ++ drop (Z.to_nat hi) src)).
Proof.
  intros Hlo Hlh Hhi Hbody.
  pose proof (forM_segment_map g body src hi Hhi Hbody
                (Z.to_nat (hi - lo)) lo (take (Z.to_nat lo) src)
                Hlo ltac:(lia) ltac:(rewrite length_take; lia)) as H.
  rewrite take_drop in H. rewrite slice_in_range by lia. exact H.
Qed.

(** ** Order on floats *)

Lemma SFltb_trans (x y z : SpecFloat.spec_float) :
  SpecFloat.SFltb x y = true -> SpecFloat.SFltb y z = true ->
  SpecFloat.SFltb x z = true.
Proof.
  unfold SpecFloat.SFltb, SpecFloat.SFcompare.
  destruct x as [sx|sx| |sx mx ex], y as [sy|sy| |sy my ey],
           z as [sz|sz| |sz mz ez];
    try destruct sx; try destruct sy; try destruct sz;
    try discriminate; try reflexivity;
    intros H1 H2.
  all: destruct (Z.compare_spec ex ey), (Z.compare_spec ey ez),
         (Z.compare_spec ex ez); try discriminate; try lia; try reflexivity.
  all: subst; rewrite ?Pos.compare_cont_spec in *; simpl in *;
       fold (Pos.compare mx my) in *; fold (Pos.compare my mz) in *;
       fold (Pos.compare mx mz) in *.
  all: destruct (Pos.compare_spec mx my), (Pos.compare_spec my mz),
         (Pos.compare_spec mx mz); simpl in *; try discriminate; try lia;
       try reflexivity.
Qed.

Lemma ltb_trans (x y z : float) :
  ltb x y = true -> ltb y z = true -> ltb x z = true.
Proof. rewrite !FloatAxioms.ltb_spec. apply SFltb_trans. Qed.

Lemma ltb_irrefl (x : float) : ltb x x = false.
Proof.
  rewrite FloatAxioms.ltb_spec. unfold SpecFloat.SFltb, SpecFloat.SFcompare.
  destruct (Prim2SF x) as [s|s| |s m e]; try destruct s; try reflexivity.
  all: rewrite Z.compare_refl, Pos.compare_cont_refl; reflexivity.
Qed.

(** ** Sparse softmax *)

Lemma slice_middle {A} (P mid rest : list A) (lo hi : Z) :
  0 <= lo -> length P = Z.to_nat lo -> length mid = Z.to_nat (hi - lo) ->
  lo <= hi ->
  slice (P ++ mid ++ rest) lo hi = mid
  /\ take (Z.to_nat lo) (P ++ mid ++ rest) = P
  /\ drop (Z.to_nat hi) (P ++ mid ++ rest) = rest.
Proof.
  intros Hlo HP Hmid Hlh. split; [| split].
  - rewrite slice_in_range by (rewrite ?length_app; lia).
    rewrite <- HP, drop_app_length. rewrite <- Hmid. apply take_app_length.
  - rewrite <- HP. apply take_app_length.
  - rewrite app_assoc. apply drop_app_length'. rewrite length_app. lia.
Qed.

Lemma max_from_foldl (l : list float) (m : float) :
  max_from m l = foldl (fun m y => if ltb m y then y else m) m l.
Proof.
  revert m. induction l as [|y l IH]; intros m; [reflexivity |].
  simpl. apply IH.
Qed.

Lemma py_max_row_max (vs : list float) : mutil.py_max vs = row_max vs.
Proof.
  destruct vs as [|x xs]; [reflexivity |].
  unfold mutil.py_max, row_max. f_equal.
Qed.

Lemma py_sum_row_norm (es : list float) : mutil.py_sum es = row_norm es.
Proof.
  unfold mutil.py_sum, row_norm. generalize 0%float.
  induction es as [|x es IH]; intros acc; [reflexivity |].
  simpl. destruct (np_add acc x) as [s|e]; [| reflexivity].
  rewrite !bind_Ok. apply IH.
Qed.

(** The maximum is a value of the row, and no value of the row is greater. *)
Lemma max_from_spec (l : list float) (m : float) :
  max_from m l ∈ m :: l
  /\ Forall (fun v => ltb (max_from m l) v = false) (m :: l).
Proof.
  rewrite max_from_foldl.
  induction l as [|y l IH] using rev_ind.
  - simpl. split; [apply list_elem_of_singleton; reflexivity |].
    constructor; [apply ltb_irrefl | constructor].
  - rewrite foldl_app. simpl. destruct IH as [Hin Hall].
    set (r := foldl (fun m y => if ltb m y then y else m) m l) in *.
    rewrite app_comm_cons. split.
    + rewrite elem_of_app, list_elem_of_singleton.
      destruct (ltb r y); auto.
    + apply Forall_app. destruct (ltb r y) eqn:Hlt.
      * split.
        -- eapply Forall_impl; [exact Hall |]. cbv beta. intros v Hv.
           destruct (ltb y v) eqn:E; [| reflexivity].
           rewrite (ltb_trans r y v Hlt E) in Hv. discriminate.
        -- constructor; [apply ltb_irrefl | constructor].
      * split; [exact Hall |]. constructor; [exact Hlt | constructor].
Qed.

Lemma row_max_spec (vs : list float) (r : float) :
  row_max vs = Ok r -> r ∈ vs /\ Forall (fun v => ltb r v = false) vs.
Proof.
  destruct vs as [|x xs]; [discriminate |]. intros [= <-].
  apply max_from_spec.
Qed.

Lemma softMaxAlteration_row `{L : NumLib} (d : list float) (lo hi : Z)
    (ix : list Z) :
  0 <= lo -> lo <= hi -> hi <= Z.of_nat (length d) ->
  mutil.softMaxAlteration d lo hi ix
  = (row ← softmax_row (slice d lo hi);
     Ok (take (Z.to_nat lo) d ++ row ++ drop (Z.to_nat hi) d)).
Proof.
  intros Hlo Hlh Hhi. unfold mutil.softMaxAlteration, softmax_row.
  rewrite <- (py_max_row_max (slice d lo hi)).
  destruct (mutil.py_max (slice d lo hi)) as [rowMax|e]; [| reflexivity].
  rewrite !bind_Ok.
  destruct (py_assert (negb (is_nan rowMax)) "") as [[]|e]; [| reflexivity].
  rewrite !bind_Ok.
  rewrite (forM_slice_map (exp_shifted rowMax) _ d lo hi Hlo Hlh Hhi).
  2:{ intros j P x rest Hj HP. rewrite getitem_boundary by (try lia; exact HP).
      rewrite bind_Ok. unfold exp_shifted.
      destruct (np_sub x rowMax) as [y|e]; [| reflexivity]. rewrite !bind_Ok.
      destruct (math_exp y) as [v|e]; [| reflexivity]. rewrite !bind_Ok.
      apply setitem_boundary; [lia | exact HP]. }
  destruct (mapM (exp_shifted rowMax) (slice d lo hi)) as [es|e] eqn:Hes;
    [| reflexivity].
  rewrite !bind_Ok.
  pose proof (mapM_length _ _ _ Hes) as Hlen.
  rewrite slice_in_range, length_take, length_drop in Hlen by lia.
  destruct (slice_middle (take (Z.to_nat lo) d) es (drop (Z.to_nat hi) d) lo hi
              Hlo ltac:(rewrite length_take; lia) ltac:(lia) Hlh)
    as (Hs & Ht & Hd).
  set (d1 := take (Z.to_nat lo) d ++ es ++ drop (Z.to_nat hi) d) in *.
  rewrite Hs. rewrite <- (py_sum_row_norm es).
  destruct (mutil.py_sum es) as [rowNorm|e]; [| reflexivity].
  rewrite !bind_Ok.
  destruct (py_assert (negb (is_nan rowNorm)) "") as [[]|e]; [| reflexivity].
  rewrite !bind_Ok.
  assert (length d1 = length d) as Hd1.
  { subst d1. rewrite !length_app, length_take, length_drop. lia. }
  rewrite (forM_slice_map (normalised rowNorm) _ d1 lo hi Hlo Hlh
             ltac:(rewrite Hd1; exact Hhi)).
  2:{ intros j P x rest Hj HP. rewrite getitem_boundary by (try lia; exact HP).
      rewrite bind_Ok. unfold normalised.
      destruct (np_div x rowNorm) as [q|e]; [| reflexivity]. rewrite !bind_Ok.
      rewrite setitem_boundary by (try lia; exact HP). rewrite bind_Ok.
      rewrite getitem_boundary by (try lia; exact HP). rewrite bind_Ok.
      destruct (py_assert (negb (is_nan q)) "") as [[]|e]; [| reflexivity].
      rewrite !bind_Ok.
      destruct (is_zero_f q); [| reflexivity].
      change (math_exp mutil.nullEpsilon) with (math_exp (-10)%float).
      destruct (math_exp (-10)%float) as [v|e]; [| reflexivity].
      rewrite !bind_Ok. apply setitem_boundary; [lia | exact HP]. }
  rewrite Hs, Ht, Hd. reflexivity.
Qed.

Lemma mapM_Forall {X Y} (g : X -> outcome Y) (Q : Y -> Prop) (l : list X)
    (ys : list Y) :
  (forall x y, g x = Ok y -> Q y) -> mapM g l = Ok ys -> Forall Q ys.
Proof.
  intros Hg. revert ys. induction l as [|x l IH]; intros ys H; simpl in H.
  - injection H as <-. constructor.
  - destruct (g x) as [y|e] eqn:E; [| discriminate]. simpl in H.
    destruct (mapM g l) as [ys'|e]; [| discriminate]. simpl in H.
    injection H as <-. constructor; [eapply Hg; exact E | apply IH; reflexivity].
Qed.

Section Softmax.
Context {L : NumLib}.

Lemma softmax_row_length (vs row : list float) :
  softmax_row vs = Ok row -> length row = length vs.
Proof.
  unfold softmax_row. intros H.
  destruct (row_max vs) as [rowMax|e]; [| discriminate].
  rewrite bind_Ok in H.
  destruct (py_assert (negb (is_nan rowMax)) "") as [[]|e]; [| discriminate].
  rewrite bind_Ok in H.
  destruct (mapM (exp_shifted rowMax) vs) as [es|e] eqn:Hes; [| discriminate].
  rewrite bind_Ok in H.
  destruct (row_norm es) as [rowNorm|e]; [| discriminate].
  rewrite bind_Ok in H.
  destruct (py_assert (negb (is_nan rowNorm)) "") as [[]|e]; [| discriminate].
  rewrite bind_Ok in H.
  rewrite (mapM_length _ _ _ H), (mapM_length _ _ _ Hes). reflexivity.
Qed.

Lemma softmax_row_nonzero (vs row : list float) :
  (forall e, math_exp (-10)%float = Ok e -> is_zero_f e = false) ->
  softmax_row vs = Ok row -> Forall (fun v => is_zero_f v = false) row.
Proof.
  intros Hexp. unfold softmax_row. intros H.
  destruct (row_max vs) as [rowMax|e]; [| discriminate].
  rewrite bind_Ok in H.
  destruct (py_assert (negb (is_nan rowMax)) "") as [[]|e]; [| discriminate].
  rewrite bind_Ok in H.
  destruct (mapM (exp_shifted rowMax) vs) as [es|e]; [| discriminate].
  rewrite bind_Ok in H.
  destruct (row_norm es) as [rowNorm|e]; [| discriminate].
  rewrite bind_Ok in H.
  destruct (py_assert (negb (is_nan rowNorm)) "") as [[]|e]; [| discriminate].
  rewrite bind_Ok in H.
  eapply mapM_Forall; [| exact H].
  intros x y Hy. unfold normalised in Hy.
  destruct (np_div x rowNorm) as [q|e]; [| discriminate].
  rewrite bind_Ok in Hy.
  destruct (py_assert (negb (is_nan q)) "") as [[]|e]; [| discriminate].
  rewrite bind_Ok in Hy.
  destruct (is_zero_f q) eqn:Hq.
  - apply Hexp. exact Hy.
  - injection Hy as <-. exact Hq.
Qed.

(** The steps of the softmax of one row that returns. *)
Lemma softmax_row_steps (vs row : list float) :
  softmax_row vs = Ok row ->
  exists rowMax es rowNorm,
    rowMax ∈ vs
    /\ Forall (fun v => ltb rowMax v = false) vs
    /\ is_nan rowMax = false
    /\ mapM (exp_shifted rowMax) vs = Ok es
    /\ row_norm es = Ok rowNorm
    /\ is_nan rowNorm = false
    /\ mapM (normalised rowNorm) es = Ok row.
Proof.
  unfold softmax_row. intros H.
  destruct (row_max vs) as [rowMax|e] eqn:Hmax; [| discriminate].
  rewrite bind_Ok in H.
  destruct (is_nan rowMax) eqn:Hnan; [discriminate |].
  simpl py_assert in H. rewrite bind_Ok in H.
  destruct (mapM (exp_shifted rowMax) vs) as [es|e] eqn:Hes; [| discriminate].
  rewrite bind_Ok in H.
  destruct (row_norm es) as [rowNorm|e] eqn:Hnorm; [| discriminate].
  rewrite bind_Ok in H.
  destruct (is_nan rowNorm) eqn:Hnan'; [discriminate |].
  simpl py_assert in H. rewrite bind_Ok in H.
  destruct (row_max_spec vs rowMax Hmax) as [Hin Hub].
  exists rowMax, es, rowNorm. auto 10.
Qed.

Lemma alterMatrixRows_softmax (m : csr_matrix) :
  csr_wf m ->
  mutil.alterMatrixRows m mutil.softMaxAlteration = softmax_rows m.
Proof.
  intros Hwf. unfold mutil.alterMatrixRows, softmax_rows.
  pose proof (wf_rows_nonneg m Hwf) as Hr.
  set (f := fun i : Z => softmax_row (row_values m i)).
  pose (R := fun (ys : list (list float)) (d : list float) =>
    let a := Z.to_nat (rowptr m (Z.of_nat (length ys))) in
    length d = length (data m)
    /\ take a d = concat ys
    /\ drop a d = drop a (data m)).
  match goal with |- context [forM (range 0 (numRows m)) ?body ?s] =>
    pose proof (forM_mapM_sim f body R 0 (numRows m) s ltac:(lia)) as Hsim
  end.
  lapply Hsim; [clear Hsim; intros Hsim |].
  2:{ unfold R. cbv zeta.
      change (Z.of_nat (length (@nil (list float)))) with 0.
      rewrite (rowptr_0 m Hwf). simpl. auto. }
  lapply Hsim; [clear Hsim; intros Hsim |].
  2:{ clear Hsim. intros i ys d Hi Hlen (Hd & Htake & Hdrop).
      rewrite Z.sub_0_r in Hlen. rewrite Hlen, Z2Nat.id in Htake, Hdrop by lia.
      cbv beta.
      rewrite (getitem_indptr m Hwf i) by lia. rewrite bind_Ok.
      rewrite (getitem_indptr m Hwf (i + 1)) by lia. rewrite bind_Ok.
      pose proof (rowptr_mono m Hwf i (i + 1) ltac:(lia) ltac:(lia) ltac:(lia)) as M.
      pose proof (rowptr_bounds m Hwf i ltac:(lia)) as B1.
      pose proof (rowptr_bounds m Hwf (i + 1) ltac:(lia)) as B2.
      set (a := rowptr m i) in *. set (b := rowptr m (i + 1)) in *.
      rewrite softMaxAlteration_row by lia.
      assert (slice d a b = row_values m i) as ->.
      { unfold row_values. fold a b. rewrite !slice_in_range by lia.
        rewrite Hdrop. reflexivity. }
      unfold f. destruct (softmax_row (row_values m i)) as [row|e] eqn:Hrow;
        [| reflexivity].
      rewrite bind_Ok. eexists. split; [reflexivity |].
      pose proof (softmax_row_length _ _ Hrow) as Hlr.
      unfold row_values in Hlr. fold a b in Hlr.
      rewrite slice_in_range, length_take, length_drop in Hlr by lia.
      unfold R. cbv zeta. rewrite (length_app ys [row]).
      change (length [row]) with 1%nat.
      replace (Z.of_nat (length ys + 1)) with (i + 1) by lia. fold b.
      destruct (slice_middle (take (Z.to_nat a) d) row (drop (Z.to_nat b) d) a b
                  ltac:(lia) ltac:(rewrite length_take; lia) ltac:(lia) M)
        as (_ & Ht & Hdr).
      split; [rewrite !length_app, length_take, length_drop; lia |].
      split.
      - rewrite concat_app. simpl. rewrite app_nil_r, <- Htake.
        rewrite app_assoc. apply take_app_length'.
        rewrite length_app, length_take. lia.
      - rewrite Hdr.
        replace (Z.to_nat b) with (Z.to_nat a + Z.to_nat (b - a))%nat by lia.
        rewrite <- !drop_drop, Hdrop. reflexivity. }
  fold f.
  destruct (mapM f (range 0 (numRows m))) as [rows|e];
    [| rewrite Hsim; reflexivity].
  destruct Hsim as (d & Hf & (Hd & Htake & _) & Hlen).
  rewrite Hf, !bind_Ok. f_equal. f_equal.
  rewrite Z.sub_0_r in Hlen. rewrite Hlen, Z2Nat.id in Htake by lia.
  rewrite (rowptr_last m Hwf), Nat2Z.id in Htake.
  rewrite take_ge in Htake by lia. exact Htake.
Qed.

End Softmax.

(** ** Loops over the rows *)

(** A loop over the rows whose step [i] rewrites the segment of row [i]
    by [g i] of it builds the rows one after the other. *)
Lemma forM_rows (m : csr_matrix) (body g : Z -> list float -> outcome (list float)) :
  csr_wf m ->
  (forall i d, 0 <= i < numRows m -> length d = length (data m) ->
     body i d
     = (row ← g i (slice d (rowptr m i) (rowptr m (i + 1)));
        Ok (take (Z.to_nat (rowptr m i)) d ++ row
            ++ drop (Z.to_nat (rowptr m (i + 1))) d))) ->
  (forall i vs row, 0 <= i < numRows m ->
     length vs = Z.to_nat (rowptr m (i + 1) - rowptr m i) ->
     g i vs = Ok row -> length row = length vs) ->
  forM (range 0 (numRows m)) body (data m)
  = (rows ← mapM (fun i => g i (row_values m i)) (range 0 (numRows m));
     Ok (concat rows)).
Proof.
  intros Hwf Hbody Hg.
  pose proof (wf_rows_nonneg m Hwf) as Hr.
  set (f := fun i : Z => g i (row_values m i)).
  pose (R := fun (ys : list (list float)) (d : list float) =>
    let a := Z.to_nat (rowptr m (Z.of_nat (length ys))) in
    length d = length (data m)
    /\ take a d = concat ys
    /\ drop a d = drop a (data m)).
  pose proof (forM_mapM_sim f body R 0 (numRows m) (data m) ltac:(lia)) as Hsim.
  lapply Hsim; [clear Hsim; intros Hsim |].
  2:{ unfold R. cbv zeta.
      change (Z.of_nat (length (@nil (list float)))) with 0.
      rewrite (rowptr_0 m Hwf). simpl. auto. }
  lapply Hsim; [clear Hsim; intros Hsim |].
  2:{ clear Hsim. intros i ys d Hi Hlen (Hd & Htake & Hdrop).
      rewrite Z.sub_0_r in Hlen. rewrite Hlen, Z2Nat.id in Htake, Hdrop by lia.
      rewrite (Hbody i d Hi Hd).
      pose proof (rowptr_mono m Hwf i (i + 1) ltac:(lia) ltac:(lia) ltac:(lia)) as M.
      pose proof (rowptr_bounds m Hwf i ltac:(lia)) as B1.
      pose proof (rowptr_bounds m Hwf (i + 1) ltac:(lia)) as B2.
      set (a := rowptr m i) in *. set (b := rowptr m (i + 1)) in *.
      assert (slice d a b = row_values m i) as ->.
      { unfold row_values. fold a b. rewrite !slice_in_range by lia.
        rewrite Hdrop. reflexivity. }
      unfold f. destruct (g i (row_values m i)) as [row|e] eqn:Hrow;
        [| reflexivity].
      rewrite bind_Ok. eexists. split; [reflexivity |].
      assert (length (row_values m i) = Z.to_nat (b - a)) as Hlv.
      { unfold row_values. fold a b.
        rewrite slice_in_range, length_take, length_drop by lia. lia. }
      pose proof (Hg _ _ _ Hi Hlv Hrow) as Hlr. rewrite Hlv in Hlr.
      unfold R. cbv zeta. rewrite (length_app ys [row]).
      change (length [row]) with 1%nat.
      replace (Z.of_nat (length ys + 1)) with (i + 1) by lia. fold b.
      destruct (slice_middle (take (Z.to_nat a) d) row (drop (Z.to_nat b) d) a b
                  ltac:(lia) ltac:(rewrite length_take; lia) ltac:(lia) M)
        as (_ & Ht & Hdr).
      split; [rewrite !length_app, length_take, length_drop; lia |].
      split.
      - rewrite concat_app. simpl. rewrite app_nil_r, <- Htake.
        rewrite app_assoc. apply take_app_length'.
        rewrite length_app, length_take. lia.
      - rewrite Hdr.
        replace (Z.to_nat b) with (Z.to_nat a + Z.to_nat (b - a))%nat by lia.
        rewrite <- !drop_drop, Hdrop. reflexivity. }
  fold f.
  destruct (mapM f (range 0 (numRows m))) as [rows|e];
    [| rewrite Hsim; reflexivity].
  destruct Hsim as (d & Hf & (Hd & Htake & _) & Hlen).
  rewrite Hf, !bind_Ok. f_equal.
  rewrite Z.sub_0_r in Hlen. rewrite Hlen, Z2Nat.id in Htake by lia.
  rewrite (rowptr_last m Hwf), Nat2Z.id in Htake.
  rewrite take_ge in Htake by lia. exact Htake.
Qed.

(** The rows built by such a loop, read back from the new value array. *)
Lemma rows_read_back (m : csr_matrix) (g : Z -> list float -> outcome (list float))
    (rows : list (list float)) :
  csr_wf m ->
  (forall i vs row, 0 <= i < numRows m ->
     length vs = Z.to_nat (rowptr m (i + 1) - rowptr m i) ->
     g i vs = Ok row -> length row = length vs) ->
  mapM (fun i => g i (row_values m i)) (range 0 (numRows m)) = Ok rows ->
  length (concat rows) = length (data m)
  /\ forall i, 0 <= i < numRows m ->
       exists row, g i (row_values m i) = Ok row
                   /\ rows !! Z.to_nat i = Some row
                   /\ row_values (mutil.with_data m (concat rows)) i = row.
Proof.
  intros Hwf Hg Hrows.
  pose proof (wf_rows_nonneg m Hwf) as Hr.
  pose proof (mapM_length _ _ _ Hrows) as Hlen.
  unfold range in Hlen. rewrite length_seqZ, Z.sub_0_r in Hlen.
  assert (forall (i : nat) row, rows !! i = Some row ->
            g (Z.of_nat i) (row_values m (Z.of_nat i)) = Ok row) as Hrow.
  { intros i row Hi. pose proof (lookup_lt_Some _ _ _ Hi) as Hlt.
    destruct (mapM_lookup _ _ _ i (Z.of_nat i) Hrows) as (y & Hy & Hyl).
    { unfold range. rewrite lookup_seqZ_lt by lia. f_equal. }
    cbv beta in Hy. congruence. }
  assert (forall k : nat, (k <= length rows)%nat ->
            length (concat (take k rows))
            = Z.to_nat (rowptr m (Z.of_nat k))) as Hk.
  { induction k as [|k IH]; intros Hle.
    - rewrite take_0. change (Z.of_nat 0) with 0.
      rewrite (rowptr_0 m Hwf). reflexivity.
    - destruct (lookup_lt_is_Some_2 rows k ltac:(lia)) as [row Hrk].
      rewrite (take_S_r _ _ _ Hrk), concat_app, length_app, IH by lia.
      simpl. rewrite app_nil_r.
      pose proof (lookup_lt_Some _ _ _ Hrk) as Hkl.
      pose proof (rowptr_mono m Hwf (Z.of_nat k) (Z.of_nat k + 1)
                    ltac:(lia) ltac:(lia) ltac:(lia)).
      pose proof (rowptr_bounds m Hwf (Z.of_nat k) ltac:(lia)).
      pose proof (rowptr_bounds m Hwf (Z.of_nat k + 1) ltac:(lia)).
      assert (length (row_values m (Z.of_nat k))
              = Z.to_nat (rowptr m (Z.of_nat k + 1) - rowptr m (Z.of_nat k)))
        as Hlv.
      { unfold row_values.
        rewrite slice_in_range, length_take, length_drop by lia. lia. }
      rewrite (Hg (Z.of_nat k) _ _ ltac:(lia) Hlv (Hrow k row Hrk)), Hlv.
      replace (Z.of_nat (Datatypes.S k)) with (Z.of_nat k + 1) by lia. lia. }
  assert (length (concat rows) = length (data m)) as Htot.
  { specialize (Hk (length rows) ltac:(lia)).
    rewrite take_ge in Hk by lia. rewrite Hk, Hlen.
    rewrite Z2Nat.id by lia. rewrite (rowptr_last m Hwf). lia. }
  split; [exact Htot |].
  intros i Hi.
  destruct (lookup_lt_is_Some_2 rows (Z.to_nat i) ltac:(lia)) as [row Hri].
  pose proof (Hrow _ _ Hri) as Hgi. rewrite Z2Nat.id in Hgi by lia.
  exists row. split; [exact Hgi |]. split; [exact Hri |].
  unfold row_values. simpl.
  change (rowptr (mutil.with_data m (concat rows))) with (rowptr m).
  pose proof (rowptr_mono m Hwf i (i + 1) ltac:(lia) ltac:(lia) ltac:(lia)) as M.
  pose proof (rowptr_bounds m Hwf i ltac:(lia)) as B1.
  pose proof (rowptr_bounds m Hwf (i + 1) ltac:(lia)) as B2.
  assert (length (row_values m i) = Z.to_nat (rowptr m (i + 1) - rowptr m i))
    as Hlv.
  { unfold row_values.
    rewrite slice_in_range, length_take, length_drop by lia. lia. }
  pose proof (Hg _ _ _ Hi Hlv Hgi) as Hlr. rewrite Hlv in Hlr.
  rewrite <- (take_drop (Z.to_nat i) rows) at 1.
  rewrite (drop_S _ _ _ Hri), concat_app. simpl concat.
  apply (slice_middle (concat (take (Z.to_nat i) rows)) row
           (concat (drop (Datatypes.S (Z.to_nat i)) rows))
           (rowptr m i) (rowptr m (i + 1))).
  - lia.
  - rewrite Hk by lia. rewrite Z2Nat.id by lia. reflexivity.
  - lia.
  - exact M.
Qed.

Lemma with_data_wf (m : csr_matrix) (d : list float) :
  csr_wf m -> length d = length (data m) -> csr_wf (mutil.with_data m d).
Proof.
  intros Hwf Hd.
  destruct (csr_wf_spec m Hwf) as (H1 & H2 & H3 & H4 & H5 & H6 & H7 & H8).
  apply csr_wf_intro; simpl; try assumption; congruence.
Qed.

(** C4: when [densify] rejects the (well-formed) softmax input, [softmax]
    is the row-by-row alteration of the specification: per row the
    maximum, [exp(v - rowMax)] for each value, their sum, each quotient by
    the sum, and [exp(-10)] in place of a quotient equal to zero (failing
    exactly when a row is empty or a step raises).  Whatever it returns
    keeps the index arrays and the shape; each of its rows is obtained
    from a [rowMax] that is a value of the row than which no value of the
    row is greater, the exponentials of the differences to it, their sum
    from zero [rowNorm], and the quotients by it; and, [exp(-10)] not
    being zero, it stores no value equal to zero. *)
Theorem softmax_sparse_path `{L : NumLib} (result : csr_matrix) :
  csr_wf result -> mutil.densify result 3 = Ok (None, None) ->
  mutil.softmax_of result = softmax_rows result
  /\ (forall db mat nullRow tiled,
        sp_scale (nullMatrix db 1) (-10)%float = Ok nullRow ->
        mutil.repeat nullRow (numRows mat) = Ok tiled ->
        sp_add tiled mat = Ok result ->
        mutil.softmax db mat = softmax_rows result)
  /\ (forall res,
        mutil.softmax_of result = Ok res ->
        indices res = indices result /\ indptr res = indptr result
        /\ shape res = shape result
        /\ length (data res) = length (data result)
        /\ (forall i, 0 <= i < numRows result ->
              exists rowMax es rowNorm,
                rowMax ∈ row_values result i
                /\ Forall (fun v => ltb rowMax v = false) (row_values result i)
                /\ is_nan rowMax = false
                /\ mapM (exp_shifted rowMax) (row_values result i) = Ok es
                /\ row_norm es = Ok rowNorm
                /\ is_nan rowNorm = false
                /\ mapM (normalised rowNorm) es = Ok (row_values res i))
        /\ ((forall e, math_exp (-10)%float = Ok e -> is_zero_f e = false) ->
            Forall (fun v => is_zero_f v = false) (data res))).
Proof.
  intros Hwf Hdens.
  assert (mutil.softmax_of result = softmax_rows result) as Heq.
  { unfold mutil.softmax_of. rewrite Hdens, bind_Ok.
    apply alterMatrixRows_softmax. exact Hwf. }
  split; [exact Heq |]. split.
  { intros db mat nullRow tiled H1 H2 H3. unfold mutil.softmax.
    change mutil.nullEpsilon with (-10)%float.
    rewrite H1, bind_Ok, H2, bind_Ok, H3, bind_Ok. exact Heq. }
  intros res Hres. rewrite Heq in Hres. unfold softmax_rows in Hres.
  destruct (mapM (fun i => softmax_row (row_values result i))
                 (range 0 (numRows result))) as [rows|e] eqn:Hrows;
    [| discriminate].
  rewrite bind_Ok in Hres. injection Hres as <-.
  destruct (rows_read_back result (fun _ vs => softmax_row vs) rows Hwf
              ltac:(intros i vs row _ _ H; exact (softmax_row_length vs row H))
              Hrows) as [Hlen Hback].
  split; [reflexivity |]. split; [reflexivity |]. split; [reflexivity |].
  split; [exact Hlen |]. split.
  - intros i Hi. destruct (Hback i Hi) as (row & Hrow & _ & Hrv).
    cbv beta in Hrow. rewrite Hrv. apply softmax_row_steps. exact Hrow.
  - intros Hexp. simpl. apply Forall_concat. apply Forall_lookup.
    intros i row Hi. pose proof (lookup_lt_Some _ _ _ Hi) as Hlt.
    pose proof (mapM_length _ _ _ Hrows) as Hl.
    unfold range in Hl. rewrite length_seqZ in Hl.
    destruct (mapM_lookup _ _ _ i (Z.of_nat i) Hrows) as (y & Hy & Hyl).
    { unfold range. rewrite lookup_seqZ_lt by lia. f_equal. }
    cbv beta in Hy. assert (y = row) as -> by congruence.
    eapply softmax_row_nonzero; [exact Hexp | exact Hy].
Qed.

Lemma softmax_sparse_path_witness :
  csr_wf examples.wide3
  /\ mutil.densify examples.wide3 3 = Ok (None, None)
  /\ row_max (data examples.wide3) = Ok 3%float
  /\ let e1 := examples.exp_taylor (1 - 3) in
     let e3 := examples.exp_taylor (3 - 3) in
     let rowNorm := (0 + e1 + e3 + 0)%float in
     mutil.softmax_of (L := examples.underflow_lib) examples.wide3
     = Ok (mutil.with_data examples.wide3
             [e1 / rowNorm; e3 / rowNorm; examples.exp_taylor (-10)]%float).
Proof.
  split; [reflexivity |]. split; [reflexivity |]. split; [reflexivity |].
  destruct (softmax_sparse_path (L := examples.underflow_lib) examples.wide3
              eq_refl eq_refl) as [Heq _].
  cbv zeta. rewrite Heq. vm_compute. reflexivity.
Defined.

(** ** Checks and summaries of the stored values *)

Lemma any_nan_false (l : list float) :
  any_nan l = false <-> Forall (fun v => is_nan v = false) l.
Proof.
  unfold any_nan. induction l as [|x l IH]; simpl.
  - split; auto.
  - rewrite orb_false_iff, IH. split.
    + intros [? ?]. constructor; auto.
    + intros H. inversion H; subst. auto.
Qed.

(** X1: with [conf.careful] off [checkNoNANs] accepts anything; with it on
    it returns exactly for a CSR matrix none of whose stored values is NaN,
    and otherwise fails with an [AssertionError] whose message names the
    context of the caller when a NaN is found, but the default context
    [unknown] when the argument is not a CSR matrix (the inner [checkCSR]
    call passes no context). *)
Theorem checkNoNANs_spec (mat : pyobj) (context : string) :
  checkNoNANs (mk_config false) mat context = Ok tt
  /\ (checkNoNANs (mk_config true) mat context = Ok tt
      <-> exists m, mat = PyCsr m /\ Forall (fun v => is_nan v = false) (data m))
  /\ (forall e, checkNoNANs (mk_config true) mat context = Raise e ->
        e = AssertionError (if isinstance_csr mat
                            then "nan's found: " ++ context
                            else "bad type [context unknown]")).
Proof.
  split; [reflexivity |].
  unfold checkNoNANs, checkCSR, py_assert. simpl.
  destruct mat as [| z | d | m]; simpl.
  1-3: split; [split; [discriminate | intros (m & ? & _); discriminate]
              | intros e [= <-]; reflexivity].
  destruct (any_nan (data m)) eqn:Hn; simpl.
  - split.
    + split; [discriminate |]. intros (m' & [= <-] & Hf).
      apply any_nan_false in Hf. congruence.
    + intros e [= <-]. reflexivity.
  - split.
    + split; [| reflexivity]. intros _. exists m. split; [reflexivity |].
      apply any_nan_false. exact Hn.
    + discriminate.
Qed.

Lemma fmax_fold_spec (xs : list float) (x : float) :
  let r := foldl fmax_step x xs in
  r ∈ x :: xs
  /\ (Forall (fun v => is_nan v = false) (x :: xs) ->
      is_nan r = false /\ Forall (fun v => ltb r v = false) (x :: xs))
  /\ (Exists (fun v => is_nan v = true) (x :: xs) -> is_nan r = true).
Proof.
  induction xs as [|y xs IH] using rev_ind; simpl.
  - split; [apply list_elem_of_singleton; reflexivity |]. split.
    + intros H. inversion H; subst. split; [assumption |].
      constructor; [apply ltb_irrefl | constructor].
    + intros H. inversion H; subst; [assumption | inversion H1].
  - rewrite foldl_app. simpl. destruct IH as (Hin & Hub & Hnan).
    set (r := foldl fmax_step x xs) in *.
    split; [| split].
    + rewrite app_comm_cons, elem_of_app, list_elem_of_singleton.
      unfold fmax_step.
      destruct (is_nan r); [auto |].
      destruct (is_nan y); [auto |].
      destruct (ltb r y); auto.
    + intros H. rewrite app_comm_cons in H. apply Forall_app in H as [H1 H2].
      inversion H2 as [|? ? Hy _]; subst.
      destruct (Hub H1) as (Hr & Hall).
      unfold fmax_step. rewrite Hr, Hy.
      rewrite app_comm_cons.
      destruct (ltb r y) eqn:Hlt.
      * split; [exact Hy |]. apply Forall_app. split.
        -- eapply Forall_impl; [exact Hall |]. cbv beta. intros v Hv.
           destruct (ltb y v) eqn:E; [| reflexivity].
           rewrite (ltb_trans r y v Hlt E) in Hv. discriminate.
        -- constructor; [apply ltb_irrefl | constructor].
      * split; [exact Hr |]. apply Forall_app. split; [exact Hall |].
        constructor; [exact Hlt | constructor].
    + intros H. rewrite app_comm_cons in H. apply Exists_app in H as [H | H].
      * unfold fmax_step. rewrite (Hnan H). apply Hnan. exact H.
      * inversion H as [? ? Hy | ? ? H']; subst; [| inversion H'].
        unfold fmax_step. destruct (is_nan r) eqn:Hr; [exact Hr |].
        rewrite Hy. exact Hy.
Qed.

(** X2: [maxValue] is [-1] for a matrix with no stored value; otherwise it
    is one of the stored values; when no stored value is NaN it is not NaN
    and no stored value is greater than it; when some stored value is NaN
    it is NaN. *)
Theorem maxValue_spec (mat : csr_matrix) :
  (data mat = [] -> mutil.maxValue mat = (-1)%float)
  /\ (data mat <> [] -> mutil.maxValue mat ∈ data mat)
  /\ (data mat <> [] -> Forall (fun v => is_nan v = false) (data mat) ->
      is_nan (mutil.maxValue mat) = false
      /\ Forall (fun v => ltb (mutil.maxValue mat) v = false) (data mat))
  /\ (Exists (fun v => is_nan v = true) (data mat) ->
      is_nan (mutil.maxValue mat) = true).
Proof.
  unfold mutil.maxValue. destruct (data mat) as [|x xs].
  - split; [reflexivity |]. split; [congruence |]. split; [congruence |].
    intros H. inversion H.
  - pose proof (fmax_fold_spec xs x) as (Hin & Hub & Hnan).
    split; [discriminate |]. split; [intros _; exact Hin |].
    split; [intros _; exact Hub | exact Hnan].
Qed.

Lemma getitem_beyond {A} (l : list A) (i : Z) :
  Z.of_nat (length l) <= i -> getitem l i = Raise IndexError.
Proof.
  intros H. unfold getitem, norm_index.
  destruct (Z.leb_spec 0 i), (Z.ltb_spec i (Z.of_nat (length l))),
    (Z.leb_spec (- Z.of_nat (length l)) i), (Z.ltb_spec i 0);
    simpl; try reflexivity; lia.
Qed.

(** X3: for a well-formed matrix and a row [i] in range, [nzCols] yields
    the storage positions [indptr[i] .. indptr[i+1]-1] (not column
    numbers): reading [indices] and [data] at them gives exactly the
    stored entries of row [i]; for [i] at or beyond the row count it
    raises [IndexError]. *)
Theorem nzCols_positions (m : csr_matrix) (i : Z) :
  csr_wf m ->
  (0 <= i < numRows m ->
   mutil.nzCols m i = Ok (range (rowptr m i) (rowptr m (i + 1)))
   /\ map (fun j => (indices m !!! Z.to_nat j, data m !!! Z.to_nat j))
          (range (rowptr m i) (rowptr m (i + 1)))
      = row_entries m i)
  /\ (numRows m <= i -> mutil.nzCols m i = Raise IndexError).
Proof.
  intros Hwf. split.
  - intros Hi. unfold mutil.nzCols.
    rewrite (getitem_indptr m Hwf i), bind_Ok by lia.
    rewrite (getitem_indptr m Hwf (i + 1)), bind_Ok by lia.
    split; [reflexivity |].
    pose proof (rowptr_mono m Hwf i (i + 1) ltac:(lia) ltac:(lia) ltac:(lia)) as M.
    pose proof (rowptr_bounds m Hwf i ltac:(lia)) as B1.
    pose proof (rowptr_bounds m Hwf (i + 1) ltac:(lia)) as B2.
    pose proof (row_entries_length m Hwf i Hi) as Hlen.
    apply list_eq_lookup_lt.
    + rewrite length_map. unfold range. rewrite length_seqZ. lia.
    + intros k Hk. rewrite length_map in Hk. unfold range in *.
      rewrite length_seqZ in Hk.
      rewrite list_lookup_fmap, lookup_seqZ_lt by lia. simpl.
      rewrite (row_entries_lookup m i k Hwf Hi) by lia.
      do 3 f_equal; lia.
  - intros Hi. unfold mutil.nzCols.
    pose proof (wf_indptr_length m Hwf) as Hl.
    pose proof (wf_rows_nonneg m Hwf) as Hr.
    destruct (Z.eq_dec i (numRows m)) as [-> | Hne].
    + rewrite (getitem_indptr m Hwf (numRows m)), bind_Ok by lia.
      rewrite getitem_beyond by lia. reflexivity.
    + rewrite (getitem_beyond _ i) by lia. reflexivity.
Qed.

Lemma nzCols_positions_witness :
  csr_wf examples.small
  /\ mutil.nzCols examples.small 1 = Ok [1]
  /\ mutil.nzCols examples.small 2 = Raise IndexError.
Proof.
  split; [reflexivity |].
  destruct (nzCols_positions examples.small 1 eq_refl) as [H1 _].
  destruct (nzCols_positions examples.small 2 eq_refl) as [_ H2].
  split; [apply H1 | apply H2]; unfold numRows; simpl; lia.
Defined.

(** ** Bounds and row-count errors *)

(** X12: when the row counts differ and neither is one, both broadcast
    operations fail their assertion, [broadcastAndComponentwiseMultiply]
    with the message about mismatched sizes. *)
Theorem broadcast_mismatched_rows `{L : NumLib} (m1 m2 : csr_matrix) :
  numRows m1 <> numRows m2 -> numRows m1 <> 1 -> numRows m2 <> 1 ->
  mutil.broadcastAndComponentwiseMultiply m1 m2
  = Raise (AssertionError "mismatched matrix sizes")
  /\ mutil.broadcastAndWeightByRowSum m1 m2 = Raise (AssertionError "").
Proof.
  intros H12 H1 H2.
  unfold mutil.broadcastAndComponentwiseMultiply, mutil.broadcastAndWeightByRowSum.
  apply Z.eqb_neq in H12, H1, H2. rewrite H12, H1, H2. split; reflexivity.
Qed.

Lemma broadcast_mismatched_rows_witness :
  mutil.broadcastAndComponentwiseMultiply (L := examples.ref_lib)
    examples.small (mk_csr [] [] [0; 0; 0; 0] (3, 2))
  = Raise (AssertionError "mismatched matrix sizes")
  /\ mutil.broadcastAndWeightByRowSum (L := examples.ref_lib)
       examples.small (mk_csr [] [] [0; 0; 0; 0] (3, 2))
     = Raise (AssertionError "").
Proof.
  apply (broadcast_mismatched_rows (L := examples.ref_lib));
    unfold numRows; simpl; lia.
Defined.

Lemma setitem_beyond {A} (l : list A) (i : Z) (v : A) :
  Z.of_nat (length l) <= i \/ i < - Z.of_nat (length l) ->
  setitem l i v = Raise IndexError.
Proof.
  intros H. unfold setitem, norm_index.
  destruct (Z.leb_spec 0 i), (Z.ltb_spec i (Z.of_nat (length l))),
    (Z.leb_spec (- Z.of_nat (length l)) i), (Z.ltb_spec i 0);
    simpl; try reflexivity; lia.
Qed.

(** X7: on a well-formed matrix [selectRows] raises [IndexError] when
    [lo] exceeds the row count, and never returns when [0 <= hi < lo]:
    it raises [ValueError] (a negative allocation) when the rows from
    [hi] up to [lo] (excluded) hold an entry or [hi + 1 < lo], and
    [IndexError] (the write of the last row pointer) otherwise. *)
Theorem selectRows_bad_bounds (m : csr_matrix) (lo hi : Z) :
  csr_wf m ->
  (numRows m < lo -> mutil.selectRows m lo hi = Raise IndexError)
  /\ (0 <= hi -> hi < lo -> lo <= numRows m ->
      mutil.selectRows m lo hi
      = (if (rowptr m hi <? rowptr m lo) || (hi + 1 <? lo)
         then Raise ValueError else Raise IndexError)).
Proof.
  intros Hwf. pose proof (wf_indptr_length m Hwf) as Hl.
  pose proof (wf_rows_nonneg m Hwf) as Hr. split.
  - intros Hlo. unfold mutil.selectRows.
    rewrite (getitem_beyond _ lo) by lia. reflexivity.
  - intros Hhi Hlt Hlo. unfold mutil.selectRows.
    replace (numRows m <? hi) with false by (symmetry; apply Z.ltb_ge; lia).
    rewrite (getitem_indptr m Hwf lo), bind_Ok by lia.
    rewrite (getitem_indptr m Hwf hi) by lia. rewrite !bind_Ok.
    pose proof (rowptr_mono m Hwf hi lo ltac:(lia) ltac:(lia) ltac:(lia)) as M.
    unfold np_zeros.
    destruct (Z.ltb_spec (rowptr m hi) (rowptr m lo)) as [Hj | Hj]; simpl.
    + replace (rowptr m hi - rowptr m lo <? 0) with true
        by (symmetry; apply Z.ltb_lt; lia). reflexivity.
    + replace (rowptr m hi - rowptr m lo <? 0) with false
        by (symmetry; apply Z.ltb_ge; lia). rewrite !bind_Ok.
      destruct (Z.ltb_spec (hi + 1) lo) as [Hk | Hk].
      * replace (hi - lo + 1 <? 0) with true
          by (symmetry; apply Z.ltb_lt; lia). reflexivity.
      * replace (hi - lo + 1 <? 0) with false
          by (symmetry; apply Z.ltb_ge; lia). rewrite bind_Ok.
        replace (hi - lo + 1) with 0 by lia.
        rewrite range_nil by lia. simpl forM.
        change (setitem [] (hi - lo) (rowptr m hi - rowptr m lo)
                ≫= (fun ip => csr_new
                      (replicate (Z.to_nat (rowptr m hi - rowptr m lo)) 0%float)
                      (replicate (Z.to_nat (rowptr m hi - rowptr m lo)) 0)
                      ip (hi - lo, numCols m)) = Raise IndexError).
        rewrite setitem_beyond by (simpl; lia). reflexivity.
Qed.

Lemma selectRows_bad_bounds_witness :
  csr_wf examples.small
  /\ mutil.selectRows examples.small 3 5 = Raise IndexError
  /\ mutil.selectRows examples.small 2 0 = Raise ValueError
  /\ mutil.selectRows examples.empty23 1 0 = Raise IndexError.
Proof.
  split; [reflexivity |].
  destruct (selectRows_bad_bounds examples.small 3 5 eq_refl) as [H1 _].
  destruct (selectRows_bad_bounds examples.small 2 0 eq_refl) as [_ H2].
  destruct (selectRows_bad_bounds examples.empty23 1 0 eq_refl) as [_ H3].
  split; [apply H1; unfold numRows; simpl; lia |].
  split; [apply H2 | apply H3]; unfold numRows; simpl; lia.
Defined.

(** ** Tiling one row *)

Lemma single_row_entries (row : csr_matrix) :
  csr_wf row -> numRows row = 1 -> row_entries row 0 = entries row.
Proof.
  intros Hwf H1.
  pose proof (rows_concat row Hwf 0 1 ltac:(simpl; lia)) as H.
  change (seqZ (Z.of_nat 0) (Z.of_nat 1)) with [0] in H.
  cbn [map concat] in H. rewrite app_nil_r in H.
  change (Z.of_nat 0) with 0 in H. change (0 + 1)%nat with 1%nat in H. rewrite H.
  change (Z.of_nat 1) with 1. rewrite <- H1 at 1.
  rewrite (rowptr_last row Hwf), (rowptr_0 row Hwf), Z.sub_0_r, Nat2Z.id.
  change (Z.to_nat 0) with 0%nat. rewrite drop_0.
  rewrite take_ge by (rewrite (entries_length row Hwf); lia). reflexivity.
Qed.

Lemma np_tile_ok {A} (a : list A) (n : Z) :
  0 <= n -> np_tile a n = Ok (concat (replicate (Z.to_nat n) a)).
Proof.
  intros Hn. unfold np_tile. destruct a as [|x a].
  - f_equal. induction (Z.to_nat n) as [|j IH]; [reflexivity | exact IH].
  - replace (n <? 0) with false by (symmetry; apply Z.ltb_ge; lia).
    reflexivity.
Qed.

Lemma repeat_closed (row : csr_matrix) (n : Z) :
  csr_wf row -> numRows row = 1 -> data row <> [] -> 0 <= n ->
  mutil.repeat row n
  = Ok (of_rows (replicate (Z.to_nat n) (entries row)) (n, numCols row))
  /\ csr_wf (of_rows (replicate (Z.to_nat n) (entries row)) (n, numCols row)).
Proof.
  intros Hwf H1 Hne Hn.
  destruct (csr_wf_spec row Hwf) as (_ & Hc & _ & _ & _ & Hil & _ & Hcols).
  assert (csr_wf (of_rows (replicate (Z.to_nat n) (entries row)) (n, numCols row)))
    as Hres.
  { apply csr_wf_of_rows; simpl.
    - rewrite length_replicate. lia.
    - exact Hc.
    - apply Forall_replicate. unfold entries.
      apply (Forall_zip_fst (fun c => 0 <= c < numCols row)). exact Hcols. }
  split; [| exact Hres].
  unfold mutil.repeat. rewrite !np_tile_ok by lia.
  rewrite !bind_Ok. rewrite H1. simpl py_assert. rewrite bind_Ok.
  rewrite (getitem_indptr row Hwf 1), bind_Ok by lia.
  assert (rowptr row 1 = Z.of_nat (length (data row))) as ->.
  { rewrite <- H1. apply (rowptr_last row Hwf). }
  set (k := Z.of_nat (length (data row))).
  assert (0 < k) as Hk.
  { subst k. destruct (data row); [congruence | simpl; lia]. }
  unfold range3.
  replace (k =? 0) with false by (symmetry; apply Z.eqb_neq; lia).
  replace (0 <? k) with true by (symmetry; apply Z.ltb_lt; lia).
  cbv beta iota zeta. rewrite bind_Ok.
  replace ((k * n + 1 - 0 + k - 1) / k) with (n + 1).
  2:{ replace (k * n + 1 - 0 + k - 1) with ((n + 1) * k) by lia.
      rewrite Z.div_mul by lia. reflexivity. }
  pose proof (tiled_as_rows (indices row) (replicate (Z.to_nat n) (data row))
                (n, numCols row)) as HT.
  rewrite length_replicate, Z2Nat.id in HT by lia.
  rewrite Hil in HT. fold k in HT.
  assert (map (zip (indices row)) (replicate (Z.to_nat n) (data row))
          = replicate (Z.to_nat n) (entries row)) as Hz.
  { unfold entries. generalize (Z.to_nat n). intros j.
    induction j as [|j IH]; simpl; [reflexivity | rewrite IH; reflexivity]. }
  rewrite Hz in HT.
  assert (map (fun j => 0 + j * k) (seqZ 0 (n + 1))
          = map (fun j => j * k) (seqZ 0 (n + 1))) as ->.
  { apply map_ext. intros; lia. }
  rewrite csr_new_wf; [rewrite HT; [reflexivity |] | rewrite HT; [exact Hres |]].
  all: apply Forall_replicate; reflexivity.
Qed.

(** X4: for a well-formed single row with at least one stored entry and
    [n >= 0], [repeat] returns a well-formed [n]-row matrix of the same
    width whose value and column arrays are [n] copies of the row's, and
    every row of which holds exactly the entries of the input row. *)
Theorem repeat_spec (row : csr_matrix) (n : Z) :
  csr_wf row -> numRows row = 1 -> data row <> [] -> 0 <= n ->
  exists res,
    mutil.repeat row n = Ok res
    /\ csr_wf res
    /\ shape res = (n, numCols row)
    /\ data res = concat (replicate (Z.to_nat n) (data row))
    /\ indices res = concat (replicate (Z.to_nat n) (indices row))
    /\ rows_of res = replicate (Z.to_nat n) (row_entries row 0)
    /\ (forall i, 0 <= i < n -> row_entries res i = row_entries row 0).
Proof.
  intros Hwf H1 Hne Hn.
  destruct (repeat_closed row n Hwf H1 Hne Hn) as [Heq Hres].
  eexists. split; [exact Heq |]. split; [exact Hres |].
  split; [reflexivity |].
  rewrite (single_row_entries row Hwf H1).
  assert (forall (A B : Type) (f : A -> B) (l : list A) (j : nat),
            map f (concat (replicate j l)) = concat (replicate j (map f l))) as Hmc.
  { intros A B f l j. induction j as [|j IH]; simpl; [reflexivity |].
    rewrite map_app, IH. reflexivity. }
  split; [| split; [| split]].
  - unfold of_rows. simpl. rewrite Hmc. unfold entries. rewrite snd_zip.
    + reflexivity.
    + rewrite (wf_indices_length row Hwf). lia.
  - unfold of_rows. simpl. rewrite Hmc. unfold entries. rewrite fst_zip.
    + reflexivity.
    + rewrite (wf_indices_length row Hwf). lia.
  - apply rows_of_of_rows. simpl. rewrite length_replicate. lia.
  - intros i Hi. replace i with (Z.of_nat (Z.to_nat i)) by lia.
    apply row_entries_of_rows. apply lookup_replicate_2. lia.
Qed.

Lemma repeat_spec_witness :
  exists res,
    mutil.repeat examples.wrs_m1 3 = Ok res
    /\ csr_wf res
    /\ shape res = (3, 3)
    /\ data res = [2; 4; 2; 4; 2; 4]%float.
Proof.
  destruct (repeat_spec examples.wrs_m1 3 eq_refl eq_refl
              ltac:(discriminate) ltac:(lia))
    as (res & H1 & H2 & H3 & H4 & _).
  exists res. split; [exact H1 |]. split; [exact H2 |].
  split; [exact H3 | exact H4].
Defined.

(** X6: selecting any single row of [repeat(row, n)] gives back [row]
    itself. *)
Theorem selectRows_of_repeat (row : csr_matrix) (n i : Z) :
  csr_wf row -> numRows row = 1 -> data row <> [] -> 0 <= i < n ->
  exists tiled,
    mutil.repeat row n = Ok tiled
    /\ mutil.selectRows tiled i (i + 1) = Ok row.
Proof.
  intros Hwf H1 Hne Hi.
  destruct (repeat_closed row n Hwf H1 Hne ltac:(lia)) as [Heq Hres].
  eexists. split; [exact Heq |].
  set (tiled := of_rows (replicate (Z.to_nat n) (entries row)) (n, numCols row))
    in *.
  assert (numRows tiled = n) as Hnt by reflexivity.
  rewrite (selectRows_closed tiled i (i + 1) Hres) by lia.
  f_equal. replace (Z.min (i + 1) (numRows tiled)) with (i + 1)
    by lia.
  pose proof (selected_of_rows tiled Hres (Z.to_nat i) 1) as Hs.
  replace (Z.of_nat (Z.to_nat i + 1)) with (i + 1) in Hs by lia.
  rewrite Z2Nat.id in Hs by lia.
  rewrite Hs by lia.
  change (Z.of_nat 1) with 1. change (seqZ i 1) with [i]. simpl map.
  replace i with (Z.of_nat (Z.to_nat i)) by lia.
  unfold tiled at 1.
  rewrite (row_entries_of_rows _ _ _ (entries row))
    by (apply lookup_replicate_2; lia).
  rewrite <- (single_row_entries row Hwf H1).
  pose proof (rows_of_all row Hwf) as Hall.
  unfold rows_of in Hall. rewrite H1 in Hall. change (seqZ 0 1) with [0] in Hall.
  simpl map in Hall. rewrite <- Hall at 2. f_equal.
  change (numCols tiled) with (numCols row). unfold numCols, numRows in *.
  destruct (shape row) as [r c]. simpl in *. subst r. reflexivity.
Qed.

Lemma selectRows_of_repeat_witness :
  exists tiled,
    mutil.repeat examples.wrs_m1 3 = Ok tiled
    /\ mutil.selectRows tiled 2 3 = Ok examples.wrs_m1.
Proof.
  apply (selectRows_of_repeat examples.wrs_m1 3 2 eq_refl eq_refl);
    [discriminate | lia].
Defined.

(** ** Selections compose *)

Lemma selected_rows (m : csr_matrix) (lo hi : Z) :
  csr_wf m -> 0 <= lo -> lo <= hi -> hi <= numRows m ->
  selected m lo hi
  = of_rows (map (row_entries m) (seqZ lo (hi - lo))) (hi - lo, numCols m).
Proof.
  intros Hwf Hlo Hlh Hhi.
  pose proof (selected_of_rows m Hwf (Z.to_nat lo) (Z.to_nat (hi - lo))) as H.
  replace (Z.of_nat (Z.to_nat lo + Z.to_nat (hi - lo))) with hi in H by lia.
  rewrite !Z2Nat.id in H by lia. apply H. lia.
Qed.

Lemma rows_of_selected (m : csr_matrix) (lo hi : Z) :
  csr_wf m -> 0 <= lo -> lo <= hi -> hi <= numRows m ->
  rows_of (selected m lo hi) = map (row_entries m) (seqZ lo (hi - lo)).
Proof.
  intros Hwf Hlo Hlh Hhi. rewrite selected_rows by assumption.
  apply rows_of_of_rows. simpl. rewrite length_map, length_seqZ. lia.
Qed.

(** X8: selecting the rows from [c] up to [d] (excluded) of the rows from
    [a] up to [b] (excluded) of a well-formed matrix is selecting the rows
    from [a + c] up to [min (a + d) b] (excluded) of the matrix. *)
Theorem selectRows_compose (m : csr_matrix) (a b c d : Z) :
  csr_wf m -> 0 <= a -> a <= b -> b <= numRows m ->
  0 <= c -> c <= d -> c <= b - a ->
  exists m1,
    mutil.selectRows m a b = Ok m1
    /\ mutil.selectRows m1 c d = mutil.selectRows m (a + c) (Z.min (a + d) b).
Proof.
  intros Hwf Ha Hab Hb Hc Hcd Hcb.
  exists (selected m a b).
  rewrite (selectRows_closed m a b Hwf) by lia.
  replace (Z.min b (numRows m)) with b by lia. split; [reflexivity |].
  destruct (selected_wf m a b Hwf Ha Hab Hb) as [Hwf1 Hrows].
  assert (numRows (selected m a b) = b - a) as Hn1 by reflexivity.
  rewrite (selectRows_closed _ c d Hwf1) by lia.
  rewrite (selectRows_closed m (a + c) _ Hwf) by lia.
  f_equal. rewrite Hn1.
  set (d' := Z.min d (b - a)).
  replace (Z.min (Z.min (a + d) b) (numRows m)) with (a + d') by lia.
  rewrite (selected_rows _ c d' Hwf1) by lia.
  rewrite (selected_rows m (a + c) (a + d') Hwf) by lia.
  replace (a + d' - (a + c)) with (d' - c) by lia.
  f_equal. apply list_eq_lookup_lt.
  - rewrite !length_map, !length_seqZ. reflexivity.
  - intros k Hk. rewrite length_map, length_seqZ in Hk.
    rewrite !list_lookup_fmap, !lookup_seqZ_lt by lia. simpl. f_equal.
    rewrite Hrows by lia. f_equal. lia.
Qed.

Lemma selectRows_compose_witness :
  (exists m1,
     mutil.selectRows examples.small 0 2 = Ok m1
     /\ mutil.selectRows m1 1 2
        = mutil.selectRows examples.small (0 + 1) (Z.min (0 + 2) 2))
  /\ mutil.selectRows examples.small 1 2
     = Ok (mk_csr [2]%float [1] [0; 1] (1, 2))
  /\ (exists m1,
        mutil.selectRows examples.uneven 0 2 = Ok m1
        /\ mutil.selectRows m1 1 5
           = mutil.selectRows examples.uneven (0 + 1) (Z.min (0 + 5) 2))
  /\ mutil.selectRows examples.uneven 1 2
     = Ok (mk_csr [5]%float [0] [0; 1] (1, 3)).
Proof.
  split.
  { apply (selectRows_compose examples.small 0 2 1 2 eq_refl);
      unfold numRows; simpl; lia. }
  split; [reflexivity |]. split; [| reflexivity].
  apply (selectRows_compose examples.uneven 0 2 1 5 eq_refl);
    unfold numRows; simpl; lia.
Defined.

(** X9: cutting a well-formed matrix at row [k] loses nothing: the rows,
    values and columns of [selectRows(m, 0, k)] followed by those of
    [selectRows(m, k, hi)] (any [hi] at or beyond the row count) are the
    rows, values and columns of [m]. *)
Theorem selectRows_partition (m : csr_matrix) (k hi : Z) :
  csr_wf m -> 0 <= k <= numRows m -> numRows m <= hi ->
  exists top bottom,
    mutil.selectRows m 0 k = Ok top
    /\ mutil.selectRows m k hi = Ok bottom
    /\ numRows top + numRows bottom = numRows m
    /\ rows_of top ++ rows_of bottom = rows_of m
    /\ data top ++ data bottom = data m
    /\ indices top ++ indices bottom = indices m.
Proof.
  intros Hwf Hk Hhi.
  exists (selected m 0 k), (selected m k (numRows m)).
  rewrite (selectRows_closed m 0 k Hwf) by lia.
  rewrite (selectRows_closed m k hi Hwf) by lia.
  replace (Z.min k (numRows m)) with k by lia.
  replace (Z.min hi (numRows m)) with (numRows m) by lia.
  split; [reflexivity |]. split; [reflexivity |].
  split; [unfold selected, numRows; simpl; lia |].
  pose proof (rowptr_bounds m Hwf k ltac:(lia)) as Bk.
  pose proof (wf_indices_length m Hwf) as Hil.
  split; [| split].
  - rewrite !rows_of_selected by (assumption || lia).
    rewrite <- map_app. unfold rows_of. f_equal.
    rewrite Z.sub_0_r.
    replace (numRows m) with (k + (numRows m - k)) at 2 by lia.
    rewrite seqZ_app by lia. reflexivity.
  - unfold selected. simpl. rewrite (rowptr_0 m Hwf), (rowptr_last m Hwf).
    rewrite !slice_in_range by lia.
    change (Z.to_nat 0) with 0%nat. rewrite drop_0, Z.sub_0_r.
    rewrite (take_ge (drop _ _)) by (rewrite length_drop; lia).
    apply take_drop.
  - unfold selected. simpl. rewrite (rowptr_0 m Hwf), (rowptr_last m Hwf).
    rewrite !slice_in_range by lia.
    change (Z.to_nat 0) with 0%nat. rewrite drop_0, Z.sub_0_r.
    rewrite (take_ge (drop _ _)) by (rewrite length_drop; lia).
    apply take_drop.
Qed.

Lemma selectRows_partition_witness :
  exists top bottom,
    mutil.selectRows examples.small 0 1 = Ok top
    /\ mutil.selectRows examples.small 1 2 = Ok bottom
    /\ numRows top + numRows bottom = numRows examples.small
    /\ rows_of top ++ rows_of bottom = rows_of examples.small
    /\ data top ++ data bottom = data examples.small
    /\ indices top ++ indices bottom = indices examples.small.
Proof.
  apply (selectRows_partition examples.small 1 2 eq_refl);
    unfold numRows; simpl; lia.
Defined.

(** ** Shuffles compose *)

Lemma forallb_perm {A} (f : A -> bool) (l k : list A) :
  l ≡ₚ k -> forallb f l = forallb f k.
Proof.
  induction 1 as [|x l k _ IH|x y l|l k j _ IH1 _ IH2]; simpl.
  - reflexivity.
  - rewrite IH. reflexivity.
  - destruct (f x), (f y); reflexivity.
  - congruence.
Qed.

Lemma sort_indices_rows (rows : list (list (Z * float))) (sh : Z * Z) :
  fst sh = Z.of_nat (length rows) ->
  sort_indices (of_rows rows sh)
  = of_rows (if forallb (fun r => nondecreasing (map fst r)) rows
             then rows else map sort_row rows) sh.
Proof.
  intros Hsh. unfold sort_indices, has_sorted_indices.
  rewrite (rows_of_of_rows rows sh Hsh).
  destruct (forallb _ rows); reflexivity.
Qed.

Lemma shuffleRows_rows `{L : NumLib} (m : csr_matrix) (p : list Z) :
  csr_wf m -> p ≡ₚ seqZ 0 (numRows m) ->
  let F := if has_sorted_indices m then (fun r => r) else sort_row in
  mutil.shuffleRows m (Some p)
  = Ok (of_rows (map (fun r => F (row_entries m r)) p) (shape m))
  /\ csr_wf (of_rows (map (fun r => F (row_entries m r)) p) (shape m))
  /\ Forall (fun r => nondecreasing (map fst r) = true)
            (map (fun r => F (row_entries m r)) p).
Proof.
  intros Hwf Hp F.
  pose proof (perm_length m p Hp) as Hlen.
  pose proof (wf_rows_nonneg m Hwf) as Hr.
  assert (fst (shape m) = Z.of_nat (length p)) as Hsh
    by (fold (numRows m); lia).
  assert (forallb (fun r => nondecreasing (map fst r)) (map (row_entries m) p)
          = has_sorted_indices m) as Hs.
  { unfold has_sorted_indices, rows_of. apply forallb_perm.
    apply fmap_Permutation. exact Hp. }
  split; [| split].
  - rewrite (shuffleRows_closed m p Hwf Hp). f_equal.
    rewrite sort_indices_rows by (rewrite length_map; exact Hsh).
    rewrite Hs. subst F. destruct (has_sorted_indices m).
    + reflexivity.
    + rewrite map_map. reflexivity.
  - apply csr_wf_of_rows.
    + rewrite length_map. exact Hsh.
    + destruct (csr_wf_spec m Hwf) as (_ & Hc & _). exact Hc.
    + apply Forall_map. apply Forall_forall. intros r _. cbv beta.
      pose proof (row_entries_cols m r Hwf) as Hc.
      subst F. destruct (has_sorted_indices m); [exact Hc |].
      rewrite (sort_row_perm (row_entries m r)). exact Hc.
  - apply Forall_map. apply Forall_forall. intros r Hin. cbv beta.
    subst F. destruct (has_sorted_indices m) eqn:E.
    + unfold has_sorted_indices, rows_of in E.
      rewrite forallb_forall in E. apply E.
      apply in_map. rewrite <- Hp. apply list_elem_of_In. exact Hin.
    + apply sort_row_sorted.
Qed.

(** X10: shuffling by [p] and then by [q] is shuffling once by the
    composed permutation [i -> p[q[i]]]; when the rows of [m] are sorted
    by column and the composition is the identity, the second shuffle
    gives back [m]. *)
Theorem shuffleRows_compose `{L : NumLib} (m : csr_matrix) (p q : list Z) :
  csr_wf m -> p ≡ₚ seqZ 0 (numRows m) -> q ≡ₚ seqZ 0 (numRows m) ->
  let pq := map (fun j => p !!! Z.to_nat j) q in
  exists m1,
    mutil.shuffleRows m (Some p) = Ok m1
    /\ mutil.shuffleRows m1 (Some q) = mutil.shuffleRows m (Some pq)
    /\ (has_sorted_indices m = true -> pq = seqZ 0 (numRows m) ->
        mutil.shuffleRows m1 (Some q) = Ok m).
Proof.
  intros Hwf Hp Hq pq.
  pose proof (perm_length m p Hp) as Hlp.
  pose proof (perm_length m q Hq) as Hlq.
  pose proof (wf_rows_nonneg m Hwf) as Hr.
  assert (pq ≡ₚ seqZ 0 (numRows m)) as Hpq.
  { subst pq. rewrite Hq. rewrite <- Hp at 2.
    assert (map (fun j => p !!! Z.to_nat j) (seqZ 0 (numRows m)) = p) as ->;
      [| reflexivity].
    apply list_eq_lookup_lt.
    - rewrite length_map, length_seqZ. lia.
    - intros k Hk. rewrite length_map, length_seqZ in Hk.
      rewrite list_lookup_fmap, lookup_seqZ_lt by lia.
      replace (0 + Z.of_nat k) with (Z.of_nat k) by lia.
      cbn [fmap option_fmap option_map]. rewrite Nat2Z.id.
      destruct (lookup_lt_is_Some_2 p k ltac:(lia)) as [x Hx].
      rewrite Hx. f_equal. apply list_lookup_total_correct. exact Hx. }
  destruct (shuffleRows_rows m p Hwf Hp) as (E1 & Hwf1 & Hs1).
  destruct (shuffleRows_rows m pq Hwf Hpq) as (E2 & _ & _).
  set (F := if has_sorted_indices m then (fun r => r) else sort_row) in *.
  set (m1 := of_rows (map (fun r => F (row_entries m r)) p) (shape m)) in *.
  assert (numRows m1 = numRows m) as Hn1 by reflexivity.
  assert (has_sorted_indices m1 = true) as Hsm1.
  { unfold has_sorted_indices, m1.
    rewrite rows_of_of_rows
      by (rewrite length_map; fold (numRows m); lia).
    apply forallb_forall. intros r Hin.
    rewrite Forall_forall in Hs1. apply Hs1. apply list_elem_of_In. exact Hin. }
  assert (mutil.shuffleRows m1 (Some q) = mutil.shuffleRows m (Some pq)) as Hc.
  { destruct (shuffleRows_rows m1 q Hwf1 ltac:(rewrite Hn1; exact Hq))
      as (E3 & _ & _).
    rewrite E3, E2, Hsm1. f_equal.
    change (shape m1) with (shape m). f_equal.
    subst pq. rewrite map_map. apply map_ext_in. intros j Hj.
    assert (0 <= j < numRows m) as Hjr.
    { apply list_elem_of_In in Hj. rewrite Hq in Hj.
      apply elem_of_seqZ in Hj. lia. }
    replace j with (Z.of_nat (Z.to_nat j)) at 1 by lia.
    unfold m1. apply row_entries_of_rows.
    rewrite list_lookup_fmap.
    destruct (lookup_lt_is_Some_2 p (Z.to_nat j) ltac:(lia)) as [x Hx].
    rewrite Hx. simpl. f_equal.
    rewrite (list_lookup_total_correct _ _ _ Hx). reflexivity. }
  exists m1. split; [exact E1 |]. split; [exact Hc |].
  intros Hsorted Hid. rewrite Hc, E2. f_equal.
  subst F. rewrite Hsorted, Hid.
  change (map (fun r => row_entries m r) (seqZ 0 (numRows m))) with (rows_of m).
  apply rows_of_all. exact Hwf.
Qed.

Lemma shuffleRows_compose_witness :
  exists m1,
    mutil.shuffleRows (L := examples.ref_lib) examples.small (Some [1; 0])
    = Ok m1
    /\ mutil.shuffleRows (L := examples.ref_lib) m1 (Some [1; 0])
       = Ok examples.small.
Proof.
  destruct (shuffleRows_compose (L := examples.ref_lib) examples.small
              [1; 0] [1; 0] eq_refl
              (Permutation_swap 0 1 []) (Permutation_swap 0 1 []))
    as (m1 & H1 & _ & H3).
  exists m1. split; [exact H1 |]. apply H3; reflexivity.
Defined.

(** ** Validity of the tiled product *)

(** X13: in the tiling branch ([rows(m1) = 1 < rows(m2)]) the result takes
    the shape of [m2] but the columns of [m1], so it satisfies the CSR
    invariants exactly when every column stored in [m1] is a column of
    [m2]. *)
Theorem weightByRowSum_valid `{L : NumLib} (m1 m2 res : csr_matrix) :
  csr_wf m1 -> csr_wf m2 -> numRows m1 = 1 -> 1 < numRows m2 ->
  mutil.broadcastAndWeightByRowSum m1 m2 = Ok res ->
  (csr_wf res <-> Forall (fun c => c < numCols m2) (indices m1)).
Proof.
  intros Hwf1 Hwf2 H1 H2 Hres.
  rewrite (weightByRowSum_tiles m1 m2 Hwf1 Hwf2 H1 H2) in Hres.
  unfold tiled_by_row_sum in Hres.
  destruct (weighted_rows m1 m2) as [rows|e] eqn:Hrows; [| discriminate].
  rewrite bind_Ok in Hres. injection Hres as <-.
  pose proof (mapM_length _ _ _ Hrows) as Hlen.
  unfold range in Hlen. rewrite length_seqZ, Z.sub_0_r in Hlen.
  assert (Forall (fun r => length r = length (indices m1)) rows) as Hall.
  { eapply mapM_Forall; [| exact Hrows]. intros i r Hr. cbv beta in Hr.
    destruct (np_sum (row_values m2 i)) as [w|e]; [| discriminate].
    rewrite bind_Ok in Hr. rewrite (mapM_length _ _ _ Hr).
    symmetry. apply (wf_indices_length m1 Hwf1). }
  destruct (csr_wf_spec m1 Hwf1) as (_ & _ & _ & _ & _ & Hil & _ & Hc1).
  destruct (csr_wf_spec m2 Hwf2) as (_ & Hc2 & _).
  split.
  - intros Hwf. destruct (csr_wf_spec _ Hwf) as (_ & _ & _ & _ & _ & _ & _ & Hc).
    simpl in Hc. unfold numCols in Hc. simpl in Hc. fold (numCols m2) in Hc.
    destruct (Z.to_nat (numRows m2)) as [|k] eqn:Hk; [lia |].
    simpl in Hc. apply Forall_app in Hc as [Hc _].
    eapply Forall_impl; [exact Hc |]. cbv beta. intros; lia.
  - intros Hcols.
    pose proof (tiled_as_rows (indices m1) rows (shape m2) Hall) as HT.
    rewrite Hlen, Z2Nat.id, Hil in HT by lia. rewrite HT.
    apply csr_wf_of_rows.
    + rewrite length_map, Hlen. fold (numRows m2). lia.
    + exact Hc2.
    + apply Forall_map. apply Forall_forall. intros r _. cbv beta.
      apply (Forall_zip_fst (fun c => 0 <= c < snd (shape m2))).
      rewrite Forall_forall in Hc1, Hcols. apply Forall_forall. intros c Hin.
      specialize (Hc1 c Hin). specialize (Hcols c Hin).
      unfold numCols in Hcols. lia.
Qed.

Lemma weightByRowSum_valid_witness :
  exists res,
    mutil.broadcastAndWeightByRowSum (L := examples.ref_lib)
      examples.wrs_m1 examples.wrs_m2 = Ok res
    /\ csr_wf res.
Proof.
  eexists. split; [reflexivity |].
  apply (weightByRowSum_valid (L := examples.ref_lib)
           examples.wrs_m1 examples.wrs_m2 _ eq_refl eq_refl eq_refl
           ltac:(unfold numRows; simpl; lia) eq_refl).
  repeat constructor.
Defined.

(** ** Row-wise scaling *)

Lemma slice_scale_in_range `{L : NumLib} (d : list float) (a b : Z) (w : float) :
  0 <= a -> a <= b -> b <= Z.of_nat (length d) ->
  mutil.slice_scale d a b w
  = (mid ← mapM (fun x => np_mul x w) (slice d a b);
     Ok (take (Z.to_nat a) d ++ mid ++ drop (Z.to_nat b) d)).
Proof.
  intros Ha Hab Hb. unfold mutil.slice_scale, slice_bound.
  replace (a <? 0) with false by (symmetry; apply Z.ltb_ge; lia).
  replace (b <? 0) with false by (symmetry; apply Z.ltb_ge; lia).
  rewrite !Z.min_l by lia. cbv zeta.
  rewrite slice_in_range by lia.
  replace (Z.to_nat a + Z.to_nat (b - a))%nat with (Z.to_nat b) by lia.
  reflexivity.
Qed.

(** X14: when both operands are well formed and have the same number of
    rows (not one), [broadcastAndWeightByRowSum] multiplies every stored
    value of row [i] of [m1] by the sum of the values stored in row [i] of
    [m2], row after row (failing exactly when a row sum or a product
    does); the result is well formed and keeps the index arrays and the
    shape of [m1]. *)
Theorem weightByRowSum_equal_rows `{L : NumLib} (m1 m2 : csr_matrix) :
  csr_wf m1 -> csr_wf m2 -> numRows m1 = numRows m2 -> numRows m2 <> 1 ->
  mutil.broadcastAndWeightByRowSum m1 m2
  = (rows ← scaled_rows m1 m2; Ok (mutil.with_data m1 (concat rows)))
  /\ forall res,
       mutil.broadcastAndWeightByRowSum m1 m2 = Ok res ->
       csr_wf res
       /\ indices res = indices m1 /\ indptr res = indptr m1
       /\ shape res = shape m1
       /\ forall i, 0 <= i < numRows m1 ->
            exists w vs,
              np_sum (row_values m2 i) = Ok w
              /\ mapM (fun x => np_mul x w) (row_values m1 i) = Ok vs
              /\ row_values res i = vs.
Proof.
  intros Hwf Hwf2 H12 H2.
  set (g := fun (i : Z) (vs : list float) =>
              w ← np_sum (row_values m2 i); mapM (fun x => np_mul x w) vs).
  assert (forall i vs row, 0 <= i < numRows m1 ->
            length vs = Z.to_nat (rowptr m1 (i + 1) - rowptr m1 i) ->
            g i vs = Ok row -> length row = length vs) as Hg.
  { intros i vs row _ _ H. unfold g in H.
    destruct (np_sum (row_values m2 i)) as [w|e]; [| discriminate].
    rewrite bind_Ok in H. apply (mapM_length _ _ _ H). }
  assert (mutil.broadcastAndWeightByRowSum m1 m2
          = (rows ← scaled_rows m1 m2; Ok (mutil.with_data m1 (concat rows))))
    as Heq.
  { unfold mutil.broadcastAndWeightByRowSum.
    replace (numRows m2 =? 1) with false by (symmetry; apply Z.eqb_neq; lia).
    replace (numRows m1 =? 1) with false by (symmetry; apply Z.eqb_neq; lia).
    replace (numRows m1 =? numRows m2) with true
      by (symmetry; apply Z.eqb_eq; lia).
    simpl andb. cbv iota. simpl py_assert. rewrite bind_Ok.
    match goal with |- context [forM (range 0 (numRows m1)) ?body (data m1)] =>
      rewrite (forM_rows m1 body g Hwf)
    end.
    - unfold scaled_rows. subst g. cbv beta.
      destruct (mapM _ (range 0 (numRows m1))); reflexivity.
    - intros i d Hi Hd. unfold g.
      rewrite (row_sum_values m2 i Hwf2 ltac:(lia)).
      destruct (np_sum (row_values m2 i)) as [w|e]; [| reflexivity].
      rewrite !bind_Ok.
      rewrite (getitem_indptr m1 Hwf i), bind_Ok by lia.
      rewrite (getitem_indptr m1 Hwf (i + 1)), bind_Ok by lia.
      pose proof (rowptr_mono m1 Hwf i (i + 1) ltac:(lia) ltac:(lia) ltac:(lia)).
      pose proof (rowptr_bounds m1 Hwf i ltac:(lia)).
      pose proof (rowptr_bounds m1 Hwf (i + 1) ltac:(lia)).
      apply slice_scale_in_range; lia.
    - exact Hg. }
  split; [exact Heq |].
  intros res Hres. rewrite Heq in Hres. unfold scaled_rows in Hres.
  change (mapM (fun i => g i (row_values m1 i)) (range 0 (numRows m1))
          ≫= (fun rows => Ok (mutil.with_data m1 (concat rows))) = Ok res)
    in Hres.
  destruct (mapM (fun i => g i (row_values m1 i)) (range 0 (numRows m1)))
    as [rows|e] eqn:Hrows; [| discriminate].
  rewrite bind_Ok in Hres. injection Hres as <-.
  destruct (rows_read_back m1 g rows Hwf Hg Hrows) as [Hlen Hback].
  split; [apply with_data_wf; assumption |].
  split; [reflexivity |]. split; [reflexivity |]. split; [reflexivity |].
  intros i Hi. destruct (Hback i Hi) as (row & Hgi & _ & Hrv).
  unfold g in Hgi.
  destruct (np_sum (row_values m2 i)) as [w|e]; [| discriminate].
  rewrite bind_Ok in Hgi. exists w, row. auto.
Qed.

Lemma weightByRowSum_equal_rows_witness :
  mutil.broadcastAndWeightByRowSum (L := examples.ref_lib)
    examples.small examples.uneven
  = Ok (mutil.with_data examples.small [3; 10]%float)
  /\ np_sum (NumLib := examples.ref_lib) (row_values examples.uneven 0)
     = Ok 3%float
  /\ np_sum (NumLib := examples.ref_lib) (row_values examples.uneven 1)
     = Ok 5%float.
Proof.
  destruct (weightByRowSum_equal_rows (L := examples.ref_lib)
              examples.small examples.uneven eq_refl eq_refl eq_refl
              ltac:(unfold numRows; simpl; lia)) as [Heq _].
  rewrite Heq. split; [reflexivity |]. split; reflexivity.
Defined.

(** ** Multiplication by a row vector *)

Lemma forM_segment_zip {A B} `{!Inhabited A} `{!Inhabited B}
    (g : B -> A -> outcome A)
    (body : Z -> list A -> outcome (list A)) (aux : list B) (src : list A)
    (hi : Z) :
  hi <= Z.of_nat (length src) -> hi <= Z.of_nat (length aux) ->
  (forall (j : Z) (P : list A) (x : A) (rest : list A),
     0 <= j < hi -> length P = Z.to_nat j ->
     body j (P ++ x :: rest)
     = (y ← g (aux !!! Z.to_nat j) x; Ok (P ++ y :: rest))) ->
  forall (n : nat) (j : Z) (P : list A),
    0 <= j -> j + Z.of_nat n = hi -> length P = Z.to_nat j ->
    forM (range j hi) body (P ++ drop (Z.to_nat j) src)
    = (ys ← mapM (fun e => g e.1 e.2)
                 (zip (take n (drop (Z.to_nat j) aux))
                      (take n (drop (Z.to_nat j) src)));
       Ok (P ++ ys ++ drop (Z.to_nat hi) src)).
Proof.
  intros Hhi Hhi' Hbody. induction n as [|n IH]; intros j P Hj Hn HP.
  - assert (j = hi) as -> by lia. rewrite range_nil by lia. reflexivity.
  - rewrite range_cons by lia. simpl forM.
    assert (src !! Z.to_nat j = Some (src !!! Z.to_nat j)) as Hx
      by (apply list_lookup_lookup_total_lt; lia).
    assert (aux !! Z.to_nat j = Some (aux !!! Z.to_nat j)) as Hb
      by (apply list_lookup_lookup_total_lt; lia).
    rewrite (drop_S _ _ _ Hx), (drop_S _ _ _ Hb). simpl take. simpl zip.
    simpl mapM.
    rewrite Hbody by (try lia; exact HP).
    destruct (g (aux !!! Z.to_nat j) (src !!! Z.to_nat j)) as [y|e];
      [| reflexivity].
    rewrite !bind_Ok.
    specialize (IH (j + 1) (P ++ [y]) ltac:(lia) ltac:(lia)
                  ltac:(rewrite length_app; simpl; lia)).
    replace (Z.to_nat (j + 1)) with (Datatypes.S (Z.to_nat j)) in IH by lia.
    rewrite <- app_assoc in IH. simpl in IH. rewrite IH.
    match goal with |- context [mapM ?h ?l] =>
      destruct (mapM h l) as [ys|e]; [| reflexivity] end.
    rewrite !bind_Ok. rewrite <- app_assoc. reflexivity.
Qed.

Lemma forM_slice_zip {A B} `{!Inhabited A} `{!Inhabited B}
    (g : B -> A -> outcome A)
    (body : Z -> list A -> outcome (list A)) (aux : list B) (src : list A)
    (lo hi : Z) :
  0 <= lo -> lo <= hi ->
  hi <= Z.of_nat (length src) -> hi <= Z.of_nat (length aux) ->
  (forall (j : Z) (P : list A) (x : A) (rest : list A),
     0 <= j < hi -> length P = Z.to_nat j ->
     body j (P ++ x :: rest)
     = (y ← g (aux !!! Z.to_nat j) x; Ok (P ++ y :: rest))) ->
  forM (range lo hi) body src
  = (ys ← mapM (fun e => g e.1 e.2) (zip (slice aux lo hi) (slice src lo hi));
     Ok (take (Z.to_nat lo) src ++ ys ++ drop (Z.to_nat hi) src)).
Proof.
  intros Hlo Hlh Hhi Hhi' Hbody.
  pose proof (forM_segment_zip g body aux src hi Hhi Hhi' Hbody
                (Z.to_nat (hi - lo)) lo (take (Z.to_nat lo) src)
                Hlo ltac:(lia) ltac:(rewrite length_take; lia)) as H.
  rewrite take_drop in H. rewrite !slice_in_range by lia. exact H.
Qed.

Lemma mapM_app {X Y} (h : X -> outcome Y) (l k : list X) :
  mapM h (l ++ k) = (a ← mapM h l; b ← mapM h k; Ok (a ++ b)).
Proof.
  induction l as [|x l IH]; simpl.
  - destruct (mapM h k); reflexivity.
  - destruct (h x) as [y|e]; [| reflexivity]. simpl. rewrite IH.
    destruct (mapM h l) as [a|e]; [| reflexivity]. simpl.
    destruct (mapM h k) as [b|e]; reflexivity.
Qed.

Lemma mapM_concat {I X Y} (h : X -> outcome Y) (F : I -> list X) (l : list I) :
  (rows ← mapM (fun i => mapM h (F i)) l; Ok (concat rows))
  = mapM h (concat (map F l)).
Proof.
  induction l as [|i l IH]; simpl; [reflexivity |].
  rewrite mapM_app, <- IH.
  destruct (mapM h (F i)) as [a|e]; [| reflexivity]. simpl.
  destruct (mapM (fun i => mapM h (F i)) l) as [rows|e]; reflexivity.
Qed.

Lemma row_entries_zip (m : csr_matrix) (i : Z) :
  csr_wf m -> 0 <= i < numRows m ->
  row_entries m i
  = zip (slice (indices m) (rowptr m i) (rowptr m (i + 1))) (row_values m i).
Proof.
  intros Hwf Hi.
  pose proof (rowptr_mono m Hwf i (i + 1) ltac:(lia) ltac:(lia) ltac:(lia)).
  pose proof (rowptr_bounds m Hwf i ltac:(lia)).
  pose proof (rowptr_bounds m Hwf (i + 1) ltac:(lia)).
  pose proof (wf_indices_length m Hwf) as Hil.
  unfold row_values. rewrite !slice_in_range by lia.
  unfold row_entries, entries. fold (rowptr m i) (rowptr m (i + 1)).
  rewrite zip_with_drop, zip_with_take. reflexivity.
Qed.

Lemma row_dict_loop (v : csr_matrix) :
  csr_wf v -> 1 <= numRows v ->
  forM (range 0 (rowptr v 1))
    (fun j (vd : gmap Z float) =>
       k ← getitem (indices v) j;
       x ← getitem (data v) j;
       Ok (<[k := x]> vd))
    ∅
  = Ok (row_dict (row_entries v 0)).
Proof.
  intros Hwf Hr.
  pose proof (rowptr_bounds v Hwf 1 ltac:(lia)) as B1.
  pose proof (row_entries_length v Hwf 0 ltac:(lia)) as Hlen.
  rewrite (rowptr_0 v Hwf) in Hlen. change (0 + 1) with 1 in Hlen.
  rewrite Z.sub_0_r in Hlen.
  match goal with |- forM _ ?body _ = _ =>
    destruct (forM_range_inv
                (fun j vd => vd = row_dict (take (Z.to_nat j) (row_entries v 0)))
                body 0 (rowptr v 1) ∅) as (vd & Heq & HP)
  end.
  - lia.
  - reflexivity.
  - intros j vd Hj ->. cbv beta.
    rewrite (getitem_indices v Hwf j), bind_Ok by lia.
    rewrite (getitem_data v j), bind_Ok by lia.
    eexists. split; [reflexivity |].
    replace (Z.to_nat (j + 1)) with (Datatypes.S (Z.to_nat j)) by lia.
    pose proof (row_entries_lookup v 0 (Z.to_nat j) Hwf ltac:(lia) ltac:(lia))
      as Hl.
    rewrite (rowptr_0 v Hwf) in Hl. change (Z.to_nat 0 + Z.to_nat j)%nat with (Z.to_nat j) in Hl.
    rewrite (take_S_r _ _ _ Hl). unfold row_dict. rewrite foldl_app.
    reflexivity.
  - rewrite Heq, HP. rewrite take_ge by lia. reflexivity.
Qed.

Lemma multiplyByBroadcastRowVec_closed `{L : NumLib} (m v : csr_matrix) :
  csr_wf m -> csr_wf v -> 1 <= numRows v ->
  mutil.multiplyByBroadcastRowVec m v = times_row_vector m v.
Proof.
  intros Hwf Hwfv Hr. unfold mutil.multiplyByBroadcastRowVec.
  rewrite (getitem_indptr v Hwfv 0), bind_Ok by lia.
  rewrite (getitem_indptr v Hwfv 1), bind_Ok by lia.
  rewrite (rowptr_0 v Hwfv).
  rewrite (row_dict_loop v Hwfv Hr), bind_Ok. cbv zeta.
  unfold mutil.alterMatrixRows.
  set (h := fun e : Z * float =>
              np_mul e.2 (broadcast_factor (row_entries v 0) e.1)).
  set (g := fun (i : Z) (vs : list float) =>
              mapM h (zip (slice (indices m) (rowptr m i) (rowptr m (i + 1))) vs)).
  pose proof (wf_indices_length m Hwf) as Hil.
  match goal with |- context [forM (range 0 (numRows m)) ?body (data m)] =>
    rewrite (forM_rows m body g Hwf)
  end.
  - unfold times_row_vector. fold h.
    pose proof (mapM_concat h (row_entries m) (range 0 (numRows m))) as Hc.
    pose proof (rows_concat m Hwf 0 (Z.to_nat (numRows m))) as Hcat.
    pose proof (wf_rows_nonneg m Hwf) as Hrows.
    rewrite Nat.add_0_l, Z2Nat.id in Hcat by lia.
    change (Z.of_nat 0) with 0 in Hcat.
    rewrite (rowptr_last m Hwf), (rowptr_0 m Hwf), Z.sub_0_r, Nat2Z.id in Hcat.
    change (Z.to_nat 0) with 0%nat in Hcat. rewrite drop_0 in Hcat.
    rewrite take_ge in Hcat by (rewrite (entries_length m Hwf); lia).
    specialize (Hcat ltac:(lia)).
    unfold range in Hc at 2. rewrite Z.sub_0_r, Hcat in Hc. rewrite <- Hc.
    assert (mapM (fun i => g i (row_values m i)) (range 0 (numRows m))
            = mapM (fun i => mapM h (row_entries m i)) (range 0 (numRows m)))
      as ->.
    { assert (forall l, Forall (fun i => 0 <= i < numRows m) l ->
                mapM (fun i => g i (row_values m i)) l
                = mapM (fun i => mapM h (row_entries m i)) l) as Hext.
      { induction 1 as [|i l Hi _ IH]; [reflexivity |]. cbn [mapM].
        rewrite IH. unfold g at 1.
        rewrite <- (row_entries_zip m i Hwf Hi). reflexivity. }
      apply Hext. apply Forall_forall. intros i Hin.
      apply elem_of_seqZ in Hin. lia. }
    destruct (mapM (fun i => mapM h (row_entries m i)) (range 0 (numRows m)));
      reflexivity.
  - intros i d Hi Hd.
    rewrite (getitem_indptr m Hwf i), bind_Ok by lia.
    rewrite (getitem_indptr m Hwf (i + 1)), bind_Ok by lia.
    pose proof (rowptr_mono m Hwf i (i + 1) ltac:(lia) ltac:(lia) ltac:(lia)).
    pose proof (rowptr_bounds m Hwf i ltac:(lia)).
    pose proof (rowptr_bounds m Hwf (i + 1) ltac:(lia)).
    unfold g.
    apply (forM_slice_zip (fun c x => h (c, x))); try lia.
    intros j P x rest Hj HP.
    rewrite getitem_boundary by lia. rewrite bind_Ok.
    rewrite (getitem_indices m Hwf j), bind_Ok by lia.
    unfold h. simpl.
    destruct (np_mul x _) as [y|e]; [| reflexivity].
    rewrite !bind_Ok. apply setitem_boundary; lia.
  - intros i vs row Hi Hvs Hrow. unfold g in Hrow.
    rewrite (mapM_length _ _ _ Hrow), length_zip_with.
    pose proof (rowptr_mono m Hwf i (i + 1) ltac:(lia) ltac:(lia) ltac:(lia)).
    pose proof (rowptr_bounds m Hwf i ltac:(lia)).
    pose proof (rowptr_bounds m Hwf (i + 1) ltac:(lia)).
    rewrite slice_in_range, length_take, length_drop by lia. lia.
Qed.

Lemma row_dict_fold_absent (es : list (Z * float)) (d : gmap Z float) (c : Z) :
  c ∉ map fst es ->
  foldl (fun d e => <[e.1 := e.2]> d) d es !! c = d !! c.
Proof.
  revert d. induction es as [|e es IH]; intros d Hc; [reflexivity |].
  simpl in *. apply not_elem_of_cons in Hc as [Hne Hc].
  rewrite IH by exact Hc. apply lookup_insert_ne. congruence.
Qed.

Lemma broadcast_factor_spec :
  (forall es c, c ∉ map fst es -> broadcast_factor es c = 0%float)
  /\ (forall es1 es2 c x, c ∉ map fst es2 ->
        broadcast_factor (es1 ++ (c, x) :: es2) c = x).
Proof.
  split.
  - intros es c Hc. unfold broadcast_factor, row_dict.
    rewrite row_dict_fold_absent by exact Hc. reflexivity.
  - intros es1 es2 c x Hc. unfold broadcast_factor, row_dict.
    rewrite foldl_app. simpl.
    rewrite row_dict_fold_absent by exact Hc.
    rewrite lookup_insert_eq. reflexivity.
Qed.

(** X15: whatever [multiplyByBroadcastRowVec] returns for a well-formed
    matrix and a well-formed row vector, a stored value of the matrix
    whose column the vector's row 0 does not store has been multiplied by
    [0.0], and one whose column the row stores, once or several times, has
    been multiplied by the value the row stores last for that column. *)
Theorem multiplyByBroadcastRowVec_factors (m v res : csr_matrix) :
  csr_wf m -> csr_wf v -> 1 <= numRows v ->
  mutil.multiplyByBroadcastRowVec m v = Ok res ->
  forall (k : nat) c x, entries m !! k = Some (c, x) ->
    (c ∉ map fst (row_entries v 0) ->
     exists y, np_mul x 0%float = Ok y /\ data res !! k = Some y)
    /\ (forall es1 w es2,
          row_entries v 0 = es1 ++ (c, w) :: es2 -> c ∉ map fst es2 ->
          exists y, np_mul x w = Ok y /\ data res !! k = Some y).
Proof.
  intros Hwf Hwfv Hr Hres k c x Hk.
  rewrite (multiplyByBroadcastRowVec_closed (L := examples.ref_lib)
             m v Hwf Hwfv Hr) in Hres.
  unfold times_row_vector in Hres.
  match type of Hres with context [mapM ?h ?l] =>
    destruct (mapM h l) as [d|e] eqn:Hd; [| discriminate] end.
  rewrite bind_Ok in Hres. injection Hres as <-.
  destruct (mapM_lookup _ _ _ k (c, x) Hd Hk) as (y & Hy & Hyl).
  cbv beta in Hy. simpl fst in Hy. simpl snd in Hy.
  destruct broadcast_factor_spec as [Habsent Hlast]. split.
  - intros Hc. rewrite (Habsent _ _ Hc) in Hy. exists y. auto.
  - intros es1 w es2 Hrow Hc. rewrite Hrow, (Hlast _ _ _ _ Hc) in Hy.
    exists y. auto.
Qed.

Lemma multiplyByBroadcastRowVec_factors_witness :
  exists res,
    mutil.multiplyByBroadcastRowVec examples.small examples.twice_col1
    = Ok res
    /\ (exists y, np_mul 1 0 = Ok y /\ data res !! 0%nat = Some y)
    /\ (exists y, np_mul 2 5 = Ok y /\ data res !! 1%nat = Some y)
    /\ data res = [0; 10]%float.
Proof.
  eexists. split; [reflexivity |].
  pose proof (multiplyByBroadcastRowVec_factors
                examples.small examples.twice_col1 _ eq_refl eq_refl
                ltac:(unfold numRows; simpl; lia) eq_refl) as H.
  split; [| split; [| reflexivity]].
  - destruct (H 0%nat 0 1%float eq_refl) as [H0 _]. apply H0.
    intros Hin. apply elem_of_cons in Hin as [Hin | Hin]; [discriminate |].
    apply elem_of_cons in Hin as [Hin | Hin]; [discriminate |].
    inversion Hin.
  - destruct (H 1%nat 1 2%float eq_refl) as [_ H1].
    apply (H1 [(1, 3%float)] 5%float []); [reflexivity |].
    intros Hin. inversion Hin.
Defined.

(** X16: when the row counts differ, one of them is one and [m2] has a
    row, [broadcastAndComponentwiseMultiply] multiplies every stored value
    of [m1] by the factor that row 0 of [m2] gives for its column (whichever
    operand is the single row), in storage order and failing exactly when
    a product does; the result is well formed and keeps the index arrays
    and the shape of [m1]. *)
Theorem multiply_by_row_vector `{L : NumLib} (m1 m2 : csr_matrix) :
  csr_wf m1 -> csr_wf m2 ->
  numRows m1 <> numRows m2 -> 1 <= numRows m2 ->
  numRows m1 = 1 \/ numRows m2 = 1 ->
  mutil.broadcastAndComponentwiseMultiply m1 m2 = times_row_vector m1 m2
  /\ forall res,
       mutil.broadcastAndComponentwiseMultiply m1 m2 = Ok res ->
       csr_wf res
       /\ indices res = indices m1 /\ indptr res = indptr m1
       /\ shape res = shape m1
       /\ length (data res) = length (data m1)
       /\ forall (k : nat) c x, entries m1 !! k = Some (c, x) ->
            exists y,
              np_mul x (broadcast_factor (row_entries m2 0) c) = Ok y
              /\ data res !! k = Some y.
Proof.
  intros Hwf1 Hwf2 Hne Hr2 H1.
  assert (mutil.broadcastAndComponentwiseMultiply m1 m2
          = times_row_vector m1 m2) as Heq.
  { unfold mutil.broadcastAndComponentwiseMultiply.
    replace (numRows m1 =? numRows m2) with false
      by (symmetry; apply Z.eqb_neq; lia).
    destruct H1 as [H1 | H1]; rewrite H1.
    - simpl. apply multiplyByBroadcastRowVec_closed; assumption.
    - rewrite orb_true_r. simpl py_assert. rewrite bind_Ok. simpl.
      destruct (numRows m1 =? 1);
        apply multiplyByBroadcastRowVec_closed; assumption. }
  split; [exact Heq |].
  intros res Hres. rewrite Heq in Hres. unfold times_row_vector in Hres.
  match type of Hres with context [mapM ?h ?l] =>
    destruct (mapM h l) as [d|e] eqn:Hd; [| discriminate] end.
  rewrite bind_Ok in Hres. injection Hres as <-.
  pose proof (mapM_length _ _ _ Hd) as Hlen.
  rewrite (entries_length m1 Hwf1) in Hlen.
  split; [apply with_data_wf; assumption |].
  split; [reflexivity |]. split; [reflexivity |]. split; [reflexivity |].
  split; [exact Hlen |].
  intros k c x Hk.
  destruct (mapM_lookup _ _ _ k (c, x) Hd Hk) as (y & Hy & Hyl).
  exists y. split; [exact Hy | exact Hyl].
Qed.

Lemma multiply_by_row_vector_witness :
  mutil.broadcastAndComponentwiseMultiply (L := examples.ref_lib)
    examples.small examples.bcast_m1
  = Ok (mutil.with_data examples.small [0; 6]%float).
Proof.
  destruct (multiply_by_row_vector (L := examples.ref_lib)
              examples.small examples.bcast_m1 eq_refl eq_refl
              ltac:(unfold numRows; simpl; lia)
              ltac:(unfold numRows; simpl; lia)
              (or_intror eq_refl)) as [Heq _].
  rewrite Heq. vm_compute. reflexivity.
Defined.

(** ** Rows of the sparse softmax *)

Lemma mapM_first_raise {X Y} (f : X -> outcome Y) (l1 l2 : list X) (x : X)
    (e : exn) :
  Forall (fun k => exists y, f k = Ok y) l1 -> f x = Raise e ->
  mapM f (l1 ++ x :: l2) = Raise e.
Proof.
  intros Hall Hx. induction Hall as [|k l1 [y Hy] _ IH]; simpl.
  - rewrite Hx. reflexivity.
  - rewrite Hy, bind_Ok, IH. reflexivity.
Qed.

(** X17: on the sparse path (the dense form rejected) [softmax] returns
    only if every row holds at least one stored entry; it raises
    [ValueError] at the first row without one when the rows before it go
    through. *)
Theorem softmax_sparse_empty_row `{L : NumLib} (result : csr_matrix) :
  csr_wf result -> mutil.densify result 3 = Ok (None, None) ->
  (forall res, mutil.softmax_of result = Ok res ->
     forall i, 0 <= i < numRows result ->
       rowptr result i < rowptr result (i + 1))
  /\ (forall i, 0 <= i < numRows result ->
        rowptr result i = rowptr result (i + 1) ->
        (forall k, 0 <= k < i ->
           exists row, softmax_row (row_values result k) = Ok row) ->
        mutil.softmax_of result = Raise ValueError).
Proof.
  intros Hwf Hdens.
  assert (mutil.softmax_of result = softmax_rows result) as Heq.
  { unfold mutil.softmax_of. rewrite Hdens, bind_Ok.
    apply alterMatrixRows_softmax. exact Hwf. }
  assert (forall i, 0 <= i < numRows result ->
            length (row_values result i)
            = Z.to_nat (rowptr result (i + 1) - rowptr result i)) as Hlv.
  { intros i Hi. unfold row_values.
    pose proof (rowptr_mono result Hwf i (i + 1) ltac:(lia) ltac:(lia) ltac:(lia)).
    pose proof (rowptr_bounds result Hwf i ltac:(lia)).
    pose proof (rowptr_bounds result Hwf (i + 1) ltac:(lia)).
    rewrite slice_in_range, length_take, length_drop by lia. lia. }
  split.
  - intros res Hres i Hi. rewrite Heq in Hres. unfold softmax_rows in Hres.
    destruct (mapM (fun i => softmax_row (row_values result i))
                   (range 0 (numRows result))) as [rows|e] eqn:Hrows;
      [| discriminate].
    destruct (mapM_lookup _ _ _ (Z.to_nat i) i Hrows) as (row & Hrow & _).
    { unfold range. rewrite lookup_seqZ_lt by lia. f_equal. lia. }
    cbv beta in Hrow. unfold softmax_row in Hrow.
    specialize (Hlv i Hi).
    destruct (row_values result i) as [|x xs]; [discriminate |].
    pose proof (rowptr_mono result Hwf i (i + 1) ltac:(lia) ltac:(lia) ltac:(lia)).
    simpl in Hlv. lia.
  - intros i Hi Hempty Hbefore. rewrite Heq. unfold softmax_rows.
    assert (range 0 (numRows result)
            = seqZ 0 i ++ i :: seqZ (i + 1) (numRows result - i - 1)) as ->.
    { unfold range. rewrite Z.sub_0_r.
      replace (numRows result) with (i + (1 + (numRows result - i - 1))) at 1
        by lia.
      rewrite seqZ_app by lia. f_equal. rewrite seqZ_app by lia.
      reflexivity. }
    rewrite (mapM_first_raise _ _ _ _ ValueError); [reflexivity | |].
    + apply Forall_forall. intros k Hk. apply elem_of_seqZ in Hk.
      apply Hbefore. lia.
    + specialize (Hlv i Hi). rewrite Hempty, Z.sub_diag in Hlv.
      destruct (row_values result i); [reflexivity | discriminate].
Qed.

Lemma softmax_sparse_empty_row_witness :
  mutil.softmax_of (L := examples.ref_lib)
    (mk_csr [1; 1]%float [0; 1000] [0; 2; 2] (2, 1001))
  = Raise ValueError.
Proof.
  destruct (softmax_sparse_empty_row (L := examples.ref_lib)
              (mk_csr [1; 1]%float [0; 1000] [0; 2; 2] (2, 1001))
              eq_refl eq_refl) as [_ H].
  apply (H 1); [unfold numRows; simpl; lia | reflexivity |].
  intros k Hk. assert (k = 0) as -> by lia. eexists. reflexivity.
Defined.

(** ** Shapes through softmax, and the dense softmax *)

Lemma csr_new_shape (d : list float) (ix ip : list Z) (sh : Z * Z)
    (m : csr_matrix) :
  csr_new d ix ip sh = Ok m -> shape m = sh /\ indptr m = ip.
Proof.
  unfold csr_new. destruct (format_ok d ix ip sh); [| discriminate].
  intros [= <-]. split; reflexivity.
Qed.

Lemma densify_shapes (mat : csr_matrix) (k : Z) (D : dense_matrix)
    (undensifier : option (Z * Z)) :
  mutil.densify mat k = Ok (Some D, undensifier) ->
  exists lo, undensifier = Some (lo, numCols mat)
             /\ fst (dshape D) = numRows mat.
Proof.
  unfold mutil.densify. intros H.
  destruct (np_max (indices mat)) as [hi|e]; [| discriminate].
  rewrite bind_Ok in H.
  destruct (np_min (indices mat)) as [lo|e]; [| discriminate].
  rewrite bind_Ok in H. cbv zeta in H.
  destruct (_ <? _); [discriminate |].
  destruct (csr_new _ _ _ _) as [s|e] eqn:Hs; [| discriminate].
  rewrite bind_Ok in H. apply csr_new_shape in Hs as [Hs _].
  unfold todense in H. destruct (csr_valid s); [| discriminate].
  rewrite bind_Ok in H. injection H as <- <-.
  exists lo. split; [reflexivity |]. simpl. rewrite Hs. reflexivity.
Qed.

Lemma undensify_shape (D : dense_matrix) (info : Z * Z) (res : csr_matrix) :
  mutil.undensify D info = Ok res -> shape res = (fst (dshape D), snd info).
Proof.
  unfold mutil.undensify. destruct info as [lo nc].
  destruct (dshape D) as [nr w]. intros H.
  destruct (csr_new _ _ _ _) as [r|e] eqn:Hr; [| discriminate].
  rewrite bind_Ok in H. injection H as <-.
  apply csr_new_shape in Hr as [Hr _]. simpl. exact Hr.
Qed.

(** X18: whichever path it takes, dense or sparse, what [softmax] returns
    has the shape of the matrix it normalises. *)
Theorem softmax_of_shape `{L : NumLib} (result res : csr_matrix) :
  mutil.softmax_of result = Ok res -> shape res = shape result.
Proof.
  unfold mutil.softmax_of. intros H.
  destruct (mutil.densify result 3) as [[denseResult undensifier]|e] eqn:Hd;
    [| discriminate].
  rewrite bind_Ok in H. destruct denseResult as [D|].
  - destruct (densify_shapes _ _ _ _ Hd) as (lo & -> & Hrows).
    unfold mutil.denseSoftmax in H.
    destruct (mapM mutil.denseSoftmaxRow (cells D)) as [rows|e];
      [| discriminate].
    rewrite !bind_Ok in H. apply undensify_shape in H. rewrite H. simpl.
    rewrite Hrows. unfold numRows, numCols. destruct (shape result).
    reflexivity.
  - destruct (alterMatrixRows_frame _ _ _ H) as (_ & _ & Hs). exact Hs.
Qed.

Lemma softmax_of_shape_witness :
  exists res,
    mutil.softmax_of (L := examples.ref_lib) examples.small = Ok res
    /\ shape res = (2, 2).
Proof.
  eexists. split; [reflexivity |].
  apply (softmax_of_shape (L := examples.ref_lib) examples.small).
  reflexivity.
Defined.

(** Floats: a product with zero and a quotient of zero are zero or NaN. *)
Lemma is_nan_spec (x : float) :
  is_nan x = match Prim2SF x with SpecFloat.S754_nan => true | _ => false end.
Proof.
  unfold is_nan. rewrite FloatAxioms.eqb_spec.
  unfold SpecFloat.SFeqb, SpecFloat.SFcompare.
  destruct (Prim2SF x) as [s|s| |s m e]; try destruct s; try reflexivity.
  all: rewrite Z.compare_refl, Pos.compare_cont_refl; reflexivity.
Qed.

Lemma is_zero_spec (x : float) :
  is_zero_f x = match Prim2SF x with SpecFloat.S754_zero _ => true | _ => false end.
Proof.
  unfold is_zero_f. rewrite FloatAxioms.eqb_spec.
  change (Prim2SF 0) with (SpecFloat.S754_zero false).
  unfold SpecFloat.SFeqb, SpecFloat.SFcompare.
  destruct (Prim2SF x) as [s|s| |s m e]; try destruct s; reflexivity.
Qed.

Lemma mul_zero_or_nan (e : float) :
  is_zero_f (e * 0)%float = true \/ is_nan (e * 0)%float = true.
Proof.
  rewrite is_zero_spec, is_nan_spec, FloatAxioms.mul_spec.
  change (Prim2SF 0) with (SpecFloat.S754_zero false).
  unfold FloatAxioms.SF64mul, SpecFloat.SFmul.
  destruct (Prim2SF e) as [s|s| |s m ex]; auto.
Qed.

Lemma div_zero_or_nan (p s : float) :
  is_zero_f p = true \/ is_nan p = true ->
  is_zero_f (p / s)%float = true \/ is_nan (p / s)%float = true.
Proof.
  rewrite !is_zero_spec, !is_nan_spec, FloatAxioms.div_spec.
  unfold FloatAxioms.SF64div, SpecFloat.SFdiv.
  destruct (Prim2SF p) as [sp|sp| |sp mp ep];
    destruct (Prim2SF s) as [ss|ss| |ss ms es]; intros [H | H];
    try discriminate; auto.
Qed.

Lemma fp_op_result (op : float -> float -> float) (x y r : float) :
  fp_op op x y = Ok r -> r = op x y.
Proof.
  unfold fp_op. destruct (fp_trapped _ _ _); [discriminate |].
  intros [= <-]. reflexivity.
Qed.

(** X20: [denseSoftmax] keeps the shape, the number of rows and the length
    of every row, and a cell equal to zero in the input is zero (or NaN)
    in the output. *)
Theorem denseSoftmax_keeps_zeros `{L : NumLib} (m out : dense_matrix) :
  mutil.denseSoftmax m = Ok out ->
  dshape out = dshape m
  /\ length (cells out) = length (cells m)
  /\ forall (r : nat) row, cells m !! r = Some row ->
       exists orow,
         cells out !! r = Some orow
         /\ length orow = length row
         /\ forall (c : nat) x, row !! c = Some x -> is_zero_f x = true ->
              exists q, orow !! c = Some q
                        /\ (is_zero_f q = true \/ is_nan q = true).
Proof.
  unfold mutil.denseSoftmax. intros H.
  destruct (mapM mutil.denseSoftmaxRow (cells m)) as [rows|e] eqn:Hrows;
    [| discriminate].
  rewrite bind_Ok in H. injection H as <-. simpl.
  split; [reflexivity |]. split; [apply (mapM_length _ _ _ Hrows) |].
  intros r row Hr.
  destruct (mapM_lookup _ _ _ r row Hrows Hr) as (orow & Ho & Hol).
  exists orow. split; [exact Hol |].
  unfold mutil.denseSoftmaxRow in Ho.
  destruct (mutil.np_rowmax row) as [mx|e]; [| discriminate].
  rewrite bind_Ok in Ho.
  match type of Ho with context [mapM ?h row] =>
    destruct (mapM h row) as [e_m|e] eqn:He; [| discriminate] end.
  rewrite bind_Ok in Ho.
  destruct (np_sum e_m) as [s|e]; [| discriminate].
  rewrite bind_Ok in Ho.
  split; [rewrite (mapM_length _ _ _ Ho), (mapM_length _ _ _ He); reflexivity |].
  intros c x Hc Hx.
  destruct (mapM_lookup _ _ _ c x He Hc) as (p & Hp & Hpl). cbv beta in Hp.
  destruct (mapM_lookup _ _ _ c p Ho Hpl) as (q & Hq & Hql). cbv beta in Hq.
  exists q. split; [exact Hql |].
  destruct (np_sub x mx) as [y|e]; [| discriminate]. rewrite bind_Ok in Hp.
  destruct (np_exp y) as [ex|e]; [| discriminate]. rewrite bind_Ok in Hp.
  unfold nonzero_f in Hp. rewrite Hx in Hp. simpl in Hp.
  apply fp_op_result in Hp, Hq. subst p q.
  apply div_zero_or_nan, mul_zero_or_nan.
Qed.

Lemma denseSoftmax_keeps_zeros_witness :
  exists out,
    mutil.denseSoftmax (L := examples.ref_lib)
      (mk_dense [[1; 0]; [0; 2]]%float (2, 2)) = Ok out
    /\ dshape out = (2, 2)
    /\ length (cells out) = 2%nat.
Proof.
  eexists. split; [reflexivity |].
  destruct (denseSoftmax_keeps_zeros (L := examples.ref_lib)
              (mk_dense [[1; 0]; [0; 2]]%float (2, 2)) _ eq_refl)
    as (H1 & H2 & _).
  split; [exact H1 | exact H2].
Defined.

(** ** Leaving the dense form *)

Lemma increasing_cons_intro (a : Z) (l : list Z) :
  Forall (fun b => a < b) l -> increasing l = true ->
  increasing (a :: l) = true.
Proof.
  intros Hall Hinc. destruct l as [|b t]; [reflexivity |].
  inversion Hall; subst. simpl in *. rewrite Hinc, andb_true_r.
  apply Z.ltb_lt. assumption.
Qed.

Lemma increasing_filter (p : Z * float -> bool) (l : list (Z * float)) :
  increasing (map fst l) = true ->
  increasing (map fst (List.filter p l)) = true.
Proof.
  induction l as [|e l IH]; intros H; [reflexivity |].
  change (map fst (e :: l)) with (e.1 :: map fst l) in H.
  apply increasing_cons in H as [Hall Hinc].
  simpl. destruct (p e); [| apply IH; exact Hinc].
  change (map fst (e :: List.filter p l))
    with (e.1 :: map fst (List.filter p l)).
  apply increasing_cons_intro; [| apply IH; exact Hinc].
  clear -Hall. induction l as [|x l IH]; [constructor |].
  simpl in *. inversion Hall; subst.
  destruct (p x); [constructor; auto | auto].
Qed.

Lemma increasing_shift (lo : Z) (l : list (Z * float)) :
  increasing (map fst l) = true ->
  increasing (map fst (map (fun e => (e.1 + lo, e.2)) l)) = true.
Proof.
  induction l as [|a l IH]; intros H; [reflexivity |].
  destruct l as [|b t]; [reflexivity |].
  simpl in *. apply andb_true_iff in H as [Hab Ht].
  apply andb_true_iff. split; [| apply IH; exact Ht].
  apply Z.ltb_lt in Hab. apply Z.ltb_lt. lia.
Qed.

Lemma increasing_zip_seqZ (row : list float) (s : Z) (n : nat) :
  increasing (map fst (zip (seqZ s (Z.of_nat n)) row)) = true.
Proof.
  revert s n. induction row as [|x row IH]; intros s n.
  - destruct (seqZ s (Z.of_nat n)); reflexivity.
  - destruct n as [|n]; [reflexivity |].
    rewrite seqZ_cons by lia.
    replace (Z.pred (Z.of_nat (Datatypes.S n))) with (Z.of_nat n) by lia.
    change (map fst (zip (s :: seqZ (Z.succ s) (Z.of_nat n)) (x :: row)))
      with (s :: map fst (zip (seqZ (Z.succ s) (Z.of_nat n)) row)).
    apply increasing_cons_intro; [| apply IH].
    apply Forall_forall. intros c Hc.
    apply list_elem_of_fmap in Hc as ([c' x'] & -> & He).
    apply elem_of_zip_l in He. apply elem_of_seqZ in He. simpl. lia.
Qed.

Lemma nz_cells_canonical (row : list float) (lo : Z) :
  let r := map (fun e => (e.1 + lo, e.2)) (nz_cells row) in
  increasing (map fst r) = true /\ forallb nz_entry r = true
  /\ Forall (fun e => lo <= e.1 < lo + Z.of_nat (length row)) r.
Proof.
  cbv zeta. split; [| split].
  - apply increasing_shift. unfold nz_cells. apply increasing_filter.
    apply increasing_zip_seqZ.
  - apply forallb_forall. intros e He.
    apply in_map_iff in He as (e' & <- & He').
    unfold nz_cells in He'. apply filter_In in He' as [_ Hnz]. exact Hnz.
  - apply Forall_forall. intros e He.
    apply list_elem_of_fmap in He as ([c' x'] & -> & He').
    unfold nz_cells in He'. apply list_elem_of_In, filter_In in He' as [He' _].
    apply list_elem_of_In, elem_of_zip_l, elem_of_seqZ in He'. simpl. lia.
Qed.

(** X21: for a dense matrix whose row count agrees with its shape,
    [undensify] returns a matrix with that many rows and the recorded
    number of columns, whose row [r] stores exactly the cells of dense row
    [r] that differ from zero, at their position plus [loIndex], by
    increasing column: it is canonical (no stored zero, columns strictly
    increasing), and well formed when the shifted cells fit in the
    recorded width. *)
Theorem undensify_spec (D : dense_matrix) (lo nc : Z) :
  0 <= nc -> Z.of_nat (length (cells D)) = fst (dshape D) ->
  exists res,
    mutil.undensify D (lo, nc) = Ok res
    /\ shape res = (fst (dshape D), nc)
    /\ rows_of res
       = map (fun row => map (fun e => (e.1 + lo, e.2)) (nz_cells row)) (cells D)
    /\ canonical res = true
    /\ (0 <= lo ->
        Forall (fun row => lo + Z.of_nat (length row) <= nc) (cells D) ->
        csr_wf res).
Proof.
  intros Hnc Hlen.
  set (R := map (fun row => map (fun e => (e.1 + lo, e.2)) (nz_cells row))
                (cells D)).
  assert (length R = length (cells D)) as HlR by (unfold R; apply length_map).
  assert (Forall (fun r => List.filter (fun e => nonzero_f e.2) r = r) R) as Hfix.
  { unfold R. apply Forall_map. apply Forall_forall. intros row _. cbv beta.
    destruct (nz_cells_canonical row lo) as (_ & Hnz & _).
    cbv zeta in Hnz. revert Hnz.
    generalize (map (fun e : Z * float => (e.1 + lo, e.2)) (nz_cells row)).
    intros l. induction l as [|e l IH]; intros H; [reflexivity |].
    simpl in H. apply andb_true_iff in H as [He Hl].
    simpl. unfold nz_entry in He. rewrite He, IH by exact Hl. reflexivity. }
  assert (mutil.undensify D (lo, nc) = Ok (of_rows R (fst (dshape D), nc)))
    as Heq.
  { unfold mutil.undensify. destruct (dshape D) as [nr w] eqn:Hsh.
    simpl in Hlen.
    pose proof (of_rows_shift (map nz_cells (cells D)) lo (nr, nc)) as Hshift.
    rewrite map_map in Hshift. fold R in Hshift.
    unfold fromdense. rewrite Hsh.
    change (data (of_rows (map nz_cells (cells D)) (nr, w)))
      with (data (of_rows (map nz_cells (cells D)) (nr, nc))).
    change (indices (of_rows (map nz_cells (cells D)) (nr, w)))
      with (indices (of_rows (map nz_cells (cells D)) (nr, nc))).
    change (indptr (of_rows (map nz_cells (cells D)) (nr, w)))
      with (indptr (of_rows (map nz_cells (cells D)) (nr, nc))).
    unfold csr_new.
    set (tmp := of_rows (map nz_cells (cells D)) (nr, nc)) in *.
    assert (List.last (indptr tmp) 0 = Z.of_nat (length (data tmp))) as Hlast.
    { unfold tmp, of_rows. simpl. rewrite ptrs_from_last, sum_list_lengths.
      rewrite length_map. lia. }
    assert (length (indices tmp) = length (data tmp)) as Hil.
    { unfold tmp, of_rows. simpl. rewrite !length_map. reflexivity. }
    assert (format_ok (data tmp) (map (fun c => c + lo) (indices tmp))
              (indptr tmp) (nr, nc) = true) as ->.
    { unfold format_ok. simpl fst. simpl snd.
      rewrite (proj2 (Z.leb_le 0 nr)) by lia.
      rewrite (proj2 (Z.leb_le 0 nc)) by lia.
      assert (Z.of_nat (length (indptr tmp)) = nr + 1) as ->.
      { unfold tmp, of_rows. simpl. rewrite ptrs_from_length, !length_map. lia. }
      rewrite Z.eqb_refl.
      assert (indptr tmp !! 0%nat = Some 0) as Hip0.
      { unfold tmp, of_rows. simpl. destruct (map length _); reflexivity. }
      rewrite (bool_decide_eq_true_2 _ Hip0).
      rewrite length_map, Hil, Nat.eqb_refl.
      rewrite (proj2 (Z.leb_le _ _)) by lia. reflexivity. }
    rewrite bind_Ok. f_equal. rewrite Hlast.
    rewrite <- Hil at 2. rewrite <- (length_map (fun c => c + lo) (indices tmp)).
    rewrite !slice_all. rewrite Hshift.
    unfold eliminate_zeros. simpl shape.
    rewrite rows_of_of_rows by (simpl; lia). f_equal.
    clear -Hfix. induction Hfix as [|r R Hr _ IH]; [reflexivity |].
    simpl. rewrite Hr, IH. reflexivity. }
  exists (of_rows R (fst (dshape D), nc)).
  split; [exact Heq |]. split; [reflexivity |].
  assert (rows_of (of_rows R (fst (dshape D), nc)) = R) as Hrows
    by (apply rows_of_of_rows; simpl; lia).
  split; [exact Hrows |]. split.
  - unfold canonical. rewrite Hrows. apply forallb_forall. intros r Hr.
    unfold R in Hr. apply in_map_iff in Hr as (row & <- & _).
    destruct (nz_cells_canonical row lo) as (H1 & H2 & _). cbv zeta in H1, H2.
    rewrite H1, H2. reflexivity.
  - intros Hlo Hw. apply csr_wf_of_rows; simpl; [lia | exact Hnc |].
    unfold R. apply Forall_map. apply Forall_forall. intros row Hrow.
    cbv beta. destruct (nz_cells_canonical row lo) as (_ & _ & H3).
    cbv zeta in H3. rewrite Forall_forall in Hw. specialize (Hw row Hrow).
    eapply Forall_impl; [exact H3 |]. cbv beta. intros e He. lia.
Qed.

Lemma undensify_spec_witness :
  exists res,
    mutil.undensify (mk_dense [[0; 3]; [0; 0]]%float (2, 2)) (5, 9) = Ok res
    /\ shape res = (2, 9)
    /\ rows_of res = [[(6, 3%float)]; []]
    /\ canonical res = true.
Proof.
  destruct (undensify_spec (mk_dense [[0; 3]; [0; 0]]%float (2, 2)) 5 9
              ltac:(lia) eq_refl) as (res & H1 & H2 & H3 & H4 & _).
  exists res. split; [exact H1 |]. split; [exact H2 |].
  split; [exact H3 | exact H4].
Defined.

(** ** Mapping the stored values *)


(** X23: without a selector, on a well-formed matrix, [mapData] returns
    the matrix with the values the data function gives (same index arrays
    and shape, well formed) when there are as many of them as stored
    values, and fails its assertion otherwise; mapping twice is mapping
    once with the composed function. *)
Theorem mapData_spec (dataFun : list float -> outcome (list float))
    (mat : csr_matrix) (default : float) (nd : list float) :
  csr_wf mat -> dataFun (data mat) = Ok nd ->
  mutil.mapData dataFun mat None default
  = (if (length nd =? length (data mat))%nat
     then Ok (mutil.with_data mat nd)
     else Raise (AssertionError "shape mismatch"))
  /\ (length nd = length (data mat) ->
      csr_wf (mutil.with_data mat nd)
      /\ forall g,
           mutil.mapData g (mutil.with_data mat nd) None default
           = mutil.mapData (fun d => x ← dataFun d; g x) mat None default).
Proof.
  intros Hwf Hnd.
  assert (forall f d, f (data mat) = Ok d ->
            mutil.mapData f mat None default
            = (if (length d =? length (data mat))%nat
               then Ok (mutil.with_data mat d)
               else Raise (AssertionError "shape mismatch"))) as Hone.
  { intros f d Hf. unfold mutil.mapData. rewrite !bind_Ok. cbv beta iota.
    rewrite Hf, !bind_Ok.
    destruct (length d =? length (data mat))%nat eqn:E; [| reflexivity].
    simpl py_assert. rewrite bind_Ok. apply Nat.eqb_eq in E.
    apply csr_new_wf. apply (with_data_wf mat d Hwf E). }
  split; [apply Hone; exact Hnd |].
  intros Hlen. pose proof (with_data_wf mat nd Hwf Hlen) as Hwf'.
  split; [exact Hwf' |].
  intros g. unfold mutil.mapData. rewrite !bind_Ok. cbv beta iota.
  simpl data. rewrite Hnd, bind_Ok.
  destruct (g nd) as [nd2|e]; [| reflexivity]. rewrite !bind_Ok.
  rewrite Hlen. reflexivity.
Qed.

Lemma mapData_spec_witness :
  mutil.mapData (fun d => Ok (map (fun x => (x + x)%float) d))
    examples.small None 0%float
  = Ok (mutil.with_data examples.small [2; 4]%float).
Proof.
  destruct (mapData_spec (fun d => Ok (map (fun x => (x + x)%float) d))
              examples.small 0%float [2; 4]%float eq_refl eq_refl)
    as [H _].
  exact H.
Defined.

(** ** Rejected arguments *)

(** X5: [repeat] raises [ValueError] for a negative count on a row with
    stored values (the tiling comes before the row-count check), and for a
    count [n >= 0] fails its assertion when the input does not have
    exactly one row. *)
Theorem repeat_rejects (row : csr_matrix) (n : Z) :
  (data row <> [] -> n < 0 -> mutil.repeat row n = Raise ValueError)
  /\ (0 <= n -> numRows row <> 1 ->
      mutil.repeat row n = Raise (AssertionError "")).
Proof.
  split.
  - intros Hne Hn. unfold mutil.repeat, np_tile.
    destruct (data row); [congruence |].
    replace (n <? 0) with true by (symmetry; apply Z.ltb_lt; lia).
    reflexivity.
  - intros Hn H1. unfold mutil.repeat. rewrite !np_tile_ok by lia.
    rewrite !bind_Ok.
    replace (numRows row =? 1) with false by (symmetry; apply Z.eqb_neq; lia).
    reflexivity.
Qed.

Lemma getitem_raises {A} (l : list A) (i : Z) (e : exn) :
  getitem l i = Raise e -> e = IndexError.
Proof.
  unfold getitem. destruct (norm_index _ _); [| congruence].
  destruct (l !! _); congruence.
Qed.

Lemma setitem_raises {A} (l : list A) (i : Z) (v : A) (e : exn) :
  setitem l i v = Raise e -> e = IndexError.
Proof. unfold setitem. destruct (norm_index _ _); congruence. Qed.

Lemma forM_raises_only {X S} (e0 : exn) (body : X -> S -> outcome S)
    (l : list X) (s : S) (e : exn) :
  (forall x s e, body x s = Raise e -> e = e0) ->
  forM l body s = Raise e -> e = e0.
Proof.
  intros Hb. revert s. induction l as [|x l IH]; intros s H; simpl in H.
  - discriminate.
  - destruct (body x s) as [s'|e'] eqn:E.
    + rewrite bind_Ok in H. apply (IH _ H).
    + injection H as <-. apply (Hb _ _ _ E).
Qed.

Lemma forM_must_raise {X S} (e0 : exn) (body : X -> S -> outcome S)
    (l1 l2 : list X) (x : X) (s : S) :
  (forall y s e, body y s = Raise e -> e = e0) ->
  (forall s, body x s = Raise e0) ->
  forM (l1 ++ x :: l2) body s = Raise e0.
Proof.
  intros Hb Hx. revert s. induction l1 as [|y l1 IH]; intros s; simpl.
  - rewrite Hx. reflexivity.
  - destruct (body y s) as [s'|e] eqn:E.
    + rewrite bind_Ok. apply IH.
    + rewrite (Hb _ _ _ E). reflexivity.
Qed.

(** X11: when the permutation holds fewer entries than the matrix has
    rows, [shuffleRows] raises [IndexError]. *)
Theorem shuffleRows_short_permutation `{L : NumLib} (m : csr_matrix)
    (shuffled : list Z) :
  csr_wf m -> Z.of_nat (length shuffled) < numRows m ->
  mutil.shuffleRows m (Some shuffled) = Raise IndexError.
Proof.
  intros Hwf Hshort. unfold mutil.shuffleRows. cbv zeta.
  pose proof (wf_indptr_length m Hwf) as Hl.
  set (k := Z.of_nat (length shuffled)) in *.
  assert (range 0 (Z.of_nat (length (indptr m)) - 1)
          = seqZ 0 k ++ k :: seqZ (k + 1) (numRows m - k - 1)) as ->.
  { unfold range. rewrite Hl.
    replace (Z.of_nat (Datatypes.S (Z.to_nat (numRows m))) - 1 - 0)
      with (k + (1 + (numRows m - k - 1))) by lia.
    rewrite seqZ_app by lia. f_equal. rewrite seqZ_app by lia. reflexivity. }
  rewrite (forM_must_raise IndexError); [reflexivity | |].
  - intros i [[[d ix] ip] lo] e H.
    destruct (getitem shuffled i) as [r|e1] eqn:E1;
      [rewrite bind_Ok in H | injection H as <-; apply (getitem_raises _ _ _ E1)].
    destruct (getitem (indptr m) (r + 1)) as [hi_r|e2] eqn:E2;
      [rewrite bind_Ok in H | injection H as <-; apply (getitem_raises _ _ _ E2)].
    destruct (getitem (indptr m) r) as [lo_r|e3] eqn:E3;
      [rewrite bind_Ok in H | injection H as <-; apply (getitem_raises _ _ _ E3)].
    destruct (setitem ip i lo) as [ip1|e4] eqn:E4;
      [rewrite bind_Ok in H | injection H as <-; apply (setitem_raises _ _ _ _ E4)].
    destruct (setitem ip1 (i + 1) (lo + (hi_r - lo_r))) as [ip2|e5] eqn:E5;
      [rewrite bind_Ok in H | injection H as <-; apply (setitem_raises _ _ _ _ E5)].
    match type of H with context [forM ?l ?b ?s] =>
      destruct (forM l b s) as [[d' ix']|e6] eqn:E6 end.
    + rewrite bind_Ok in H. discriminate.
    + injection H as <-. eapply forM_raises_only; [| exact E6].
      intros j [d0 ix0] e0 H0. rewrite bind_Ok in H0.
      destruct (getitem (data m) (lo_r + j)) as [x|f2] eqn:F2;
        [rewrite bind_Ok in H0
        | injection H0 as <-; apply (getitem_raises _ _ _ F2)].
      destruct (getitem ip2 i) as [base|f3] eqn:F3;
        [rewrite bind_Ok in H0
        | injection H0 as <-; apply (getitem_raises _ _ _ F3)].
      destruct (setitem d0 (base + j) x) as [d1|f4] eqn:F4;
        [rewrite !bind_Ok in H0
        | injection H0 as <-; apply (setitem_raises _ _ _ _ F4)].
      destruct (getitem (indices m) (lo_r + j)) as [c|f5] eqn:F5;
        [rewrite !bind_Ok in H0
        | injection H0 as <-; apply (getitem_raises _ _ _ F5)].
      destruct (setitem ix0 (base + j) c) as [ix1|f7] eqn:F7;
        [rewrite bind_Ok in H0; discriminate
        | injection H0 as <-; apply (setitem_raises _ _ _ _ F7)].
  - intros [[[d ix] ip] lo]. rewrite (getitem_beyond shuffled k) by lia.
    reflexivity.
Qed.

Lemma shuffleRows_short_permutation_witness :
  mutil.shuffleRows (L := examples.ref_lib) examples.small (Some [1])
  = Raise IndexError.
Proof.
  apply (shuffleRows_short_permutation (L := examples.ref_lib)
           examples.small [1] eq_refl).
  unfold numRows. simpl. lia.
Defined.

(** ** Expansion bounds and the null row *)

(** X22: a dense form that [densify] returns under one expansion bound is
    returned unchanged under any larger bound. *)
Theorem densify_monotone (mat : csr_matrix) (k k' : Z) (D : dense_matrix)
    (info : Z * Z) :
  csr_wf mat -> k <= k' ->
  mutil.densify mat k = Ok (Some D, Some info) ->
  mutil.densify mat k' = Ok (Some D, Some info).
Proof.
  intros Hwf Hk H.
  assert (indices mat <> []) as Hne.
  { intros Hnil. unfold mutil.densify in H. rewrite Hnil in H. discriminate. }
  destruct (densify_closed mat k Hwf Hne) as (lo & hi & (Hlo & Hhi & Hall) & E).
  destruct (densify_closed mat k' Hwf Hne)
    as (lo' & hi' & (Hlo' & Hhi' & Hall') & E').
  assert (lo' = lo /\ hi' = hi) as [-> ->].
  { rewrite Forall_forall in Hall, Hall'.
    pose proof (Hall lo' Hlo'). pose proof (Hall hi' Hhi').
    pose proof (Hall' lo Hlo). pose proof (Hall' hi Hhi). lia. }
  rewrite E in H. rewrite E'.
  pose proof (wf_rows_nonneg mat Hwf) as Hr.
  pose proof (last_nnz mat Hwf) as Hnnz.
  destruct (Z.ltb_spec (k * (numRows mat + 1 + 2 * nnz mat))
                       (numRows mat * (hi - lo))) as [Hc | Hc];
    [discriminate |].
  destruct (Z.ltb_spec (k' * (numRows mat + 1 + 2 * nnz mat))
                       (numRows mat * (hi - lo))) as [Hc' | Hc'];
    [| exact H].
  exfalso. nia.
Qed.

Lemma densify_monotone_witness :
  mutil.densify examples.small 7
  = Ok (Some (mk_dense [[1; 0]; [0; 2]]%float (2, 2)), Some (0, 2)).
Proof.
  apply (densify_monotone examples.small 3 7 _ _ eq_refl ltac:(lia)).
  reflexivity.
Defined.

(** X19: [softmax] raises [ValueError] when the scaled null row of the
    database (well formed, one row) stores no entry, whatever the
    matrix. *)
Theorem softmax_needs_null_entry `{L : NumLib} (db : matrixdb)
    (mat nullRow : csr_matrix) :
  sp_scale (nullMatrix db 1) mutil.nullEpsilon = Ok nullRow ->
  csr_wf nullRow -> numRows nullRow = 1 -> data nullRow = [] ->
  mutil.softmax db mat = Raise ValueError.
Proof.
  intros Hscale Hwf H1 Hd. unfold mutil.softmax.
  rewrite Hscale, bind_Ok.
  assert (mutil.repeat nullRow (numRows mat) = Raise ValueError) as ->;
    [| reflexivity].
  unfold mutil.repeat.
  assert (indices nullRow = []) as Hi.
  { apply last_nil_length. rewrite (wf_indices_length nullRow Hwf), Hd.
    reflexivity. }
  rewrite Hd, Hi. simpl np_tile. rewrite !bind_Ok, H1. simpl py_assert.
  rewrite bind_Ok.
  rewrite (getitem_indptr nullRow Hwf 1), bind_Ok by lia.
  assert (rowptr nullRow 1 = 0) as ->.
  { rewrite <- H1, (rowptr_last nullRow Hwf), Hd. reflexivity. }
  reflexivity.
Qed.

Lemma softmax_needs_null_entry_witness :
  mutil.softmax (L := examples.scaling_lib)
    (mk_db (fun _ => examples.empty_row)) examples.small
  = Raise ValueError.
Proof.
  apply (softmax_needs_null_entry (L := examples.scaling_lib)
           (mk_db (fun _ => examples.empty_row))
           examples.small examples.empty_row eq_refl eq_refl eq_refl eq_refl).
Defined.

